(** * Undo/redo tracking and sparse-matrix addressing of the shared sequence

    A shallow embedding of

    - [packages/runtime/sequence/src/sparsematrix.ts]
      (the row/column addressing scheme and the matrix operations), and
    - [packages/framework/undo-redo/src/sequenceHandler.ts]
      (the undo/redo handler and its revertable),

    followed by the properties of the specification, each one proved or
    refuted on the embedding. *)

From Stdlib Require Import ZArith Lia String.
From stdpp Require Import base option list gmap.

Local Open Scope Z_scope.

(** ** JavaScript numbers that hold integers

    Every [number] of the two source files holds an integer (a row, a
    column, a position, a length).  A [number] is an IEEE-754 binary64
    value, so an integer is held exactly only when 53 significant bits
    suffice; the result of [+], [-], [*] and [/] is the exact result rounded
    to the nearest such value, ties going to the even significand.  The
    model represents an integer-valued [number] by the integer it holds and
    writes the rounding out.  Infinities, NaN and subnormal values are out
    of its range. *)
Module JsNumber.

(** The integer nearest to [n/d], ties to even ([0 <= n], [0 < d]). *)
Definition rne (n d : Z) : Z :=
  let q := n / d in
  let r := n mod d in
  if 2 * r <? d then q
  else if d <? 2 * r then q + 1
  else if Z.even q then q else q + 1.

(** [floor (log2 (n/d))] for [0 < n], [0 < d]. *)
Definition ilog2q (n d : Z) : Z :=
  let k := Z.log2 n - Z.log2 d in
  if (if 0 <=? k then d * 2 ^ k <=? n else d <=? n * 2 ^ (- k))
  then k else k - 1.

(** The binary64 value nearest to [n/d], as a significand [m] and an
    exponent [e]: the value is [m * 2^e], with [2^52 <= m <= 2^53]. *)
Definition round_q (n d : Z) : Z * Z :=
  if n =? 0 then (0, 0)
  else
    let e := ilog2q n d - 52 in
    (if 0 <=? e then rne n (d * 2 ^ e) else rne (n * 2 ^ (- e)) d, e).

(** [Math.floor] of the non-negative value [m * 2^e]. *)
Definition floor_me (me : Z * Z) : Z :=
  let '(m, e) := me in
  if 0 <=? e then m * 2 ^ e else m / 2 ^ (- e).

(** The [number] that an exact integer result rounds to. *)
Definition round53 (z : Z) : Z :=
  Z.sgn z * floor_me (round_q (Z.abs z) 1).

Definition add (a b : Z) : Z := round53 (a + b).
Definition sub (a b : Z) : Z := round53 (a - b).
Definition mul (a b : Z) : Z := round53 (a * b).

(** [Math.floor(a / b)] for [0 <= a], [0 < b]: the quotient is rounded to a
    [number] first and floored afterwards. *)
Definition floor_div (a b : Z) : Z := floor_me (round_q a b).

End JsNumber.

Declare Scope js_scope.
Delimit Scope js_scope with js.
Arguments JsNumber.add (a b)%_js.
Arguments JsNumber.sub (a b)%_js.
Arguments JsNumber.mul (a b)%_js.
Infix "+" := JsNumber.add : js_scope.
Infix "-" := JsNumber.sub : js_scope.
Infix "*" := JsNumber.mul : js_scope.

(** ** Control flow

    How a statement completes: normally, by a thrown [Error], or, in the
    model only, by running out of the fuel that bounds a loop.  The state
    that a statement has reached when it throws is kept, since the effects
    before a [throw] persist. *)

Inductive Completion :=
| Normal
| Throw (message : string)
| OutOfFuel.

(** [while (cond) body], running [body] at most [fuel] times. *)
Fixpoint while {St : Type} (fuel : nat) (cond : St -> bool)
    (body : St -> St * Completion) (s : St) : St * Completion :=
  if cond s then
    match fuel with
    | O => (s, OutOfFuel)
    | S fuel' =>
        let '(s', c) := body s in
        match c with
        | Normal => while fuel' cond body s'
        | _ => (s', c)
        end
    end
  else (s, Normal).

(** ** Sparse matrix addressing ([sparsematrix.ts]) *)

Definition maxCol : Z := 0x200000.
Definition maxCols : Z := (maxCol + 1)%js.

Definition maxRow : Z := 0xFFFFFFFF.
Definition maxRows : Z := (maxRow + 1)%js.

Definition maxCellPosition : Z := (maxCol * maxRow)%js.

Definition rowColToPosition (row col : Z) : Z := (row * maxCols + col)%js.

Definition positionToRowCol (position : Z) : Z * Z :=
  let row := JsNumber.floor_div position maxCols in
  let col := (position - (row * maxCols))%js in
  (row, col).


(** The two segment kinds of the matrix, and any other kind of segment a
    sequence may hold.  A run owns its items and one tag per item; padding
    owns only a length. *)
Inductive MatrixSegment (Item Tag : Type) :=
| RunSegment (items : list Item) (tags : list (option Tag))
| PaddingSegment (cachedLength : Z)
| OtherSegment (type : string).
Arguments RunSegment {Item Tag} items tags.
Arguments PaddingSegment {Item Tag} cachedLength.
Arguments OtherSegment {Item Tag} type.

Definition segmentLength {Item Tag} (s : MatrixSegment Item Tag) : Z :=
  match s with
  | RunSegment items _ => Z.of_nat (length items)
  | PaddingSegment n => n
  | OtherSegment _ => 0
  end.

(** Modelled from the spec: the primitive edits of the merge tree, which
    are not part of these sources.  A local edit call of the client returns
    the primitive edit it has applied, a removal of a range or an insertion
    of a segment at a position, and [createGroupOp] makes one grouped
    operation of a list of them. *)
Inductive IMergeTreeOp (Item Tag : Type) :=
| RemoveOp (pos1 pos2 : Z)
| InsertOp (pos1 : Z) (seg : MatrixSegment Item Tag).
Arguments RemoveOp {Item Tag} pos1 pos2.
Arguments InsertOp {Item Tag} pos1 seg.

Inductive IMergeTreeGroupMsg (Item Tag : Type) :=
| GroupOp (ops : list (IMergeTreeOp Item Tag)).
Arguments GroupOp {Item Tag} ops.

(** Modelled from the spec: the merge-tree client of the sequence, which is
    not part of these sources.  The matrix consumes its length, the
    resolution of a position to the segment that contains it and the offset
    in that segment (absent when no segment resolves), and the two local
    edits: remove a range, insert a segment at a position. *)
Class MergeTreeClient := {
  SparseMatrixItem : Type;
  SparseMatrixTag : Type;
  Client : Type;
  getLength : Client -> Z;
  getContainingSegment :
    Client -> Z -> option (MatrixSegment SparseMatrixItem SparseMatrixTag * Z);
  removeRangeLocal : Z -> Z -> Client -> Client;
  insertSegmentLocal :
    Z -> MatrixSegment SparseMatrixItem SparseMatrixTag -> Client -> Client;
}.

Module SparseMatrix.
Section WithClient.
Context `{MergeTreeClient}.

Local Abbreviation Segment := (MatrixSegment SparseMatrixItem SparseMatrixTag).
Local Abbreviation Op := (IMergeTreeOp SparseMatrixItem SparseMatrixTag).
Local Abbreviation GroupMsg := (IMergeTreeGroupMsg SparseMatrixItem SparseMatrixTag).

(** The matrix: its client, and the messages it has submitted. *)
Record t := {
  client : Client;
  submitted : list GroupMsg;
}.

Definition submitSequenceMessage (message : GroupMsg) (m : t) : t :=
  {| client := client m; submitted := submitted m ++ [message] |}.

Definition createGroupOp (ops : list Op) : GroupMsg := GroupOp ops.

Definition numRows (m : t) : Z :=
  fst (positionToRowCol (getLength (client m))).

(** What a read returns: a value, [undefined], or a thrown error. *)
Inductive Read :=
| Value (item : SparseMatrixItem)
| Undefined
| ReadError (message : string).

(** [segment.items[offset]] *)
Definition itemAt (items : list SparseMatrixItem) (offset : Z) : Read :=
  if offset <? 0 then Undefined
  else match items !! Z.to_nat offset with
       | Some item => Value item
       | None => Undefined
       end.

(** When no segment resolves, [segment] is [undefined] and the test of its
    type throws a [TypeError]. *)
Definition getItem (row col : Z) (m : t) : Read :=
  let pos := rowColToPosition row col in
  match getContainingSegment (client m) pos with
  | None => ReadError "TypeError"
  | Some (segment, offset) =>
      match segment with
      | RunSegment items _ => itemAt items offset
      | PaddingSegment _ => Undefined
      | OtherSegment _ => ReadError "Unrecognized Segment type"
      end
  end.

(** The loop variables of [moveAsPadding]. *)
Record MoveState := {
  matrix : t;
  r : Z;
  rowStart : Z;
  ops : list Op;
}.

Definition moveRow (removeColStart removeColEnd destCol numCols : Z)
    (s : MoveState) : MoveState * Completion :=
  let m := matrix s in
  let start := (rowStart s + removeColStart)%js in
  let stop := (rowStart s + removeColEnd)%js in
  let c1 := removeRangeLocal start stop (client m) in
  let ops1 := ops s ++ [RemoveOp start stop] in
  let insertPos := (rowStart s + destCol)%js in
  let segment := PaddingSegment numCols in
  let c2 := insertSegmentLocal insertPos segment c1 in
  let ops2 := ops1 ++ [InsertOp insertPos segment] in
  ({| matrix := {| client := c2; submitted := submitted m |};
      r := (r s + 1)%js;
      rowStart := (rowStart s + maxCols)%js;
      ops := ops2 |}, Normal).

Definition moveAsPadding (fuel : nat) (srcCol destCol numCols : Z) (m : t)
    : t * Completion :=
  let removeColStart := srcCol in
  let removeColEnd := (srcCol + numCols)%js in
  let '(s, c) :=
    while fuel (fun s => r s <? numRows (matrix s))
      (moveRow removeColStart removeColEnd destCol numCols)
      {| matrix := m; r := 0; rowStart := 0; ops := [] |} in
  match c with
  | Normal => (submitSequenceMessage (createGroupOp (ops s)) (matrix s), Normal)
  | _ => (matrix s, c)
  end.

Definition insertCols (fuel : nat) (col numCols : Z) (m : t) : t * Completion :=
  moveAsPadding fuel (maxCol - numCols)%js col numCols m.

Definition removeCols (fuel : nat) (col numCols : Z) (m : t) : t * Completion :=
  moveAsPadding fuel col (maxCol - numCols)%js numCols m.

(** The client after a list of primitive edits, applied in order. *)
Definition applyOp (c : Client) (op : Op) : Client :=
  match op with
  | RemoveOp pos1 pos2 => removeRangeLocal pos1 pos2 c
  | InsertOp pos1 seg => insertSegmentLocal pos1 seg c
  end.

(** The pair of edits that moves [numCols] columns of row [row] from
    [srcCol] away and pads at [destCol]. *)
Definition rowOps (srcCol destCol numCols row : Z) : list Op :=
  let rowStart := row * maxCols in
  [RemoveOp (rowStart + srcCol) (rowStart + srcCol + numCols);
   InsertOp (rowStart + destCol) (PaddingSegment numCols)].

End WithClient.
End SparseMatrix.

(** A matrix nobody has written to: its sequence is all padding, so the
    client is known by its length alone. *)
Module UnwrittenMatrix.

#[local] Instance client : MergeTreeClient := {|
  SparseMatrixItem := Z;
  SparseMatrixTag := unit;
  Client := Z;
  getLength c := c;
  getContainingSegment c pos :=
    if (0 <=? pos) && (pos <? c) then Some (PaddingSegment c, pos) else None;
  removeRangeLocal pos1 pos2 c := c - (pos2 - pos1);
  insertSegmentLocal pos1 seg c := c + segmentLength seg;
|}.

Definition ofRows (rows : Z) : SparseMatrix.t :=
  {| SparseMatrix.client := rows * maxCols; SparseMatrix.submitted := [] |}.

End UnwrittenMatrix.


(** ** JavaScript arrays

    The array operations the segments use, on a list: [slice], [splice],
    the assignment to [length], and the read and the write of an element.
    An array of tags may hold [undefined], so its elements are options. *)
Module JsArray.
Section Ops.
Context {A : Type}.

(** The index that a relative index [i] stands for in an array of length
    [len]: a negative one counts from the end, and the result stays in
    [[0, len]]. *)
Definition relativeIndex (len i : Z) : Z :=
  if i <? 0 then Z.max (len + i) 0 else Z.min i len.

(** [l.slice(start, stop)]; [stop] may be left out. *)
Definition slice (start : Z) (stop : option Z) (l : list A) : list A :=
  let len := Z.of_nat (length l) in
  let k := relativeIndex len start in
  let final := match stop with
               | Some e => relativeIndex len e
               | None => len
               end in
  take (Z.to_nat (final - k)) (drop (Z.to_nat k) l).

(** The array after [l.splice(start, deleteCount, ...items)]. *)
Definition splice (start deleteCount : Z) (items l : list A) : list A :=
  let len := Z.of_nat (length l) in
  let k := relativeIndex len start in
  let dc := Z.min (Z.max deleteCount 0) (len - k) in
  take (Z.to_nat k) l ++ items ++ drop (Z.to_nat (k + dc)) l.

(** The array after [l.length = n], for [0 <= n]: cut, or filled up with
    elements that read as [undefined]. *)
Definition setLength (n : Z) (l : list (option A)) : list (option A) :=
  take (Z.to_nat n) l ++ replicate (Z.to_nat n - length l) None.

(** [l[pos]] *)
Definition get (pos : Z) (l : list (option A)) : option A :=
  if pos <? 0 then None else mjoin (l !! Z.to_nat pos).

(** The array after [l[pos] = x]: an index past the end makes the array
    longer, and a negative one is no index of the array. *)
Definition set (pos : Z) (x : option A) (l : list (option A)) : list (option A) :=
  if pos <? 0 then l
  else
    let i := Z.to_nat pos in
    if (i <? length l)%nat then <[i := x]> l
    else l ++ replicate (i - length l) None ++ [x].

End Ops.
End JsArray.

(** ** The segments of the matrix ([sparsematrix.ts]) *)

(** What a call returns: a value, or a thrown [Error]. *)
Inductive Outcome (A : Type) :=
| Returns (a : A)
| Throws (message : string).
Arguments Returns {A} a.
Arguments Throws {A} message.

(** The serialized form of a segment, with the fields the segments look
    at: an object may have a [pad], which is a number, and [items]; its
    [props], when it has them, are a property set.  Anything that is not an
    object is [NotAnObject]. *)
Module JSON.

Record Fields (Item Props : Type) := {
  pad : option Z;
  items : option (list Item);
  props : option Props;
}.
Arguments pad {Item Props} _.
Arguments items {Item Props} _.
Arguments props {Item Props} _.

Inductive Spec (Item Props : Type) :=
| NotAnObject
| Object (fields : Fields Item Props).
Arguments NotAnObject {Item Props}.
Arguments Object {Item Props} fields.

End JSON.

Module PaddingSegment.
Section Methods.
Context {Item Tag Props : Type}.

(** Modelled from the spec: [addProperties] of the base segment, which is
    not part of these sources, adds a property set to the properties of a
    segment. *)
Variable addProperties : Props -> option Props -> option Props.

Local Abbreviation Segment := (MatrixSegment Item Tag).

(** [PaddingSegment.is(segment)] *)
Definition isPadding (segment : Segment) : bool :=
  match segment with
  | PaddingSegment _ => true
  | _ => false
  end.

(** A padding segment with its properties. *)
Record t := {
  cachedLength : Z;
  properties : option Props;
}.

Definition fromJSONObject (spec : JSON.Spec Item Props) : option t :=
  match spec with
  | JSON.Object fields =>
      match JSON.pad fields with
      | Some size =>
          let segment := {| cachedLength := size; properties := None |} in
          Some match JSON.props fields with
               | Some p =>
                   {| cachedLength := size;
                      properties := addProperties p (properties segment) |}
               | None => segment
               end
      | None => None
      end
  | JSON.NotAnObject => None
  end.

Definition toJSONObject (segment : t) : JSON.Spec Item Props :=
  JSON.Object {| JSON.pad := Some (cachedLength segment);
                 JSON.items := None;
                 JSON.props := properties segment |}.

(** [clone(start, end)] takes no notice of [start] and [end]. *)
Definition clone (start : Z) (stop : option Z) (length : Z) : Z := length.

Definition canAppend (segment : Segment) : bool := isPadding segment.

(** [append], on the length of this segment. *)
Definition append (length : Z) (segment : Segment) : Outcome Z :=
  match segment with
  | PaddingSegment other => Returns (length + other)%js
  | _ => Throws "can only append padding segment"
  end.

(** [removeRange]: the length afterwards, and whether the entire segment
    has been removed. *)
Definition removeRange (start stop : Z) (length : Z) : Z * bool :=
  let length' := (length - (stop - start))%js in
  (length', length' =? 0).

(** [createSplitSegmentAt]: the length of this segment afterwards, and the
    new segment. *)
Definition createSplitSegmentAt (pos : Z) (length : Z) : Z * Segment :=
  let leftLength := pos in
  let rightLength := (length - pos)%js in
  (leftLength, PaddingSegment rightLength).

End Methods.
End PaddingSegment.

(** What [append] of a run reads of the segment it is given: its [type],
    its [items], and its [tags], which a segment that is no run does not
    have. *)
Module AppendedSegment.

Record t (Item Tag : Type) := {
  type : string;
  items : list Item;
  tags : option (list (option Tag));
}.
Arguments type {Item Tag} _.
Arguments items {Item Tag} _.
Arguments tags {Item Tag} _.

End AppendedSegment.

Module RunSegment.
Section Methods.
Context {Item Tag Props : Type}.

(** Modelled from the spec: [addProperties] of the base segment. *)
Variable addProperties : Props -> option Props -> option Props.

Local Abbreviation Segment := (MatrixSegment Item Tag).

(** [RunSegment.is(segment)] *)
Definition isRun (segment : Segment) : bool :=
  match segment with
  | RunSegment _ _ => true
  | _ => false
  end.

(** A run: its items, and its tags. *)
Record t := {
  items : list Item;
  tags : list (option Tag);
}.

(** The tags of a run go with its items, one tag for each item. *)
Definition aligned (segment : t) : Prop :=
  length (tags segment) = length (items segment).

(** [new RunSegment(items)]: the tags are [undefined], one for each item. *)
Definition make (items : list Item) : t :=
  {| items := items; tags := replicate (length items) None |}.

Definition fromJSONObject (spec : JSON.Spec Item Props)
    : option (t * option Props) :=
  match spec with
  | JSON.Object fields =>
      match JSON.items fields with
      | Some its =>
          let segment := make its in
          Some (segment,
                match JSON.props fields with
                | Some p => addProperties p None
                | None => None
                end)
      | None => None
      end
  | JSON.NotAnObject => None
  end.

Definition clone (start : Z) (stop : option Z) (segment : t) : t :=
  {| items := JsArray.slice start stop (items segment);
     tags := JsArray.slice start stop (tags segment) |}.



(** Modelled from the spec: [append] of the sub-sequence, which is not part
    of these sources, is valid only between segments of the same kind and
    fails on a segment of another kind.  The sub-sequence tells the kind by
    the [type] of the segment, as the padding segment does: it accepts a
    segment whose [type] is its own, ["SubSequence"], concatenates the
    items of that segment to the items of this one, and throws on every
    other segment.  A run has a [type] of its own, so the guard that a run
    inherits accepts a plain sub-sequence and no run. *)
Definition superAppend (its : list Item) (other : AppendedSegment.t Item Tag)
    : Outcome (list Item) :=
  if String.eqb (AppendedSegment.type other) "SubSequence"
  then Returns (its ++ AppendedSegment.items other)
  else Throws "can only append another run segment".

(** [append]: the inherited [append] first, which may throw; then the tags
    of the other segment, if it has any, are spliced in at the number of the
    items the run has by then. *)
Definition append (segment : t) (other : AppendedSegment.t Item Tag)
    : Outcome t :=
  match superAppend (items segment) other with
  | Throws message => Throws message
  | Returns its =>
      Returns
        {| items := its;
           tags :=
             match AppendedSegment.tags other with
             | Some tags' =>
                 JsArray.splice (Z.of_nat (length its)) 0 tags' (tags segment)
             | None => tags segment
             end |}
  end.

(** Modelled from the spec: [removeRange] of the sub-sequence, which is not
    part of these sources, takes the items of the range out and tells
    whether none is left. *)
Definition superRemoveRange (start stop : Z) (its : list Item)
    : list Item * bool :=
  let its' := JsArray.splice start (stop - start)%js [] its in
  (its', (length its' =? 0)%nat).

Definition removeRange (start stop : Z) (segment : t) : t * bool :=
  let tags' := JsArray.splice start (stop - start)%js [] (tags segment) in
  let '(its', empty) := superRemoveRange start stop (items segment) in
  ({| items := its'; tags := tags' |}, empty).

Definition getTag (pos : Z) (segment : t) : option Tag :=
  JsArray.get pos (tags segment).

Definition setTag (pos : Z) (tag : option Tag) (segment : t) : t :=
  {| items := items segment; tags := JsArray.set pos tag (tags segment) |}.

(** [createSplitSegmentAt]: this run afterwards and the new run, or no new
    run when [pos] is not positive. *)
Definition createSplitSegmentAt (pos : Z) (segment : t) : t * option t :=
  if 0 <? pos then
    let remainingItems := JsArray.slice pos None (items segment) in
    let its := JsArray.slice 0 (Some pos) (items segment) in
    let leafSegment :=
      {| items := items (make remainingItems);
         tags := JsArray.slice pos None (tags segment) |} in
    ({| items := its; tags := JsArray.setLength pos (tags segment) |},
     Some leafSegment)
  else (segment, None).

End Methods.
End RunSegment.

Module SparseMatrixFactory.
Section Methods.
Context {Item Tag Props : Type}.
Variable addProperties : Props -> option Props -> option Props.

(** [segmentFromSpec]: the segment and its properties, padding first. *)
Definition segmentFromSpec (spec : JSON.Spec Item Props)
    : Outcome (MatrixSegment Item Tag * option Props) :=
  match PaddingSegment.fromJSONObject addProperties spec with
  | Some maybePadding =>
      Returns (PaddingSegment (PaddingSegment.cachedLength maybePadding),
               PaddingSegment.properties maybePadding)
  | None =>
      match RunSegment.fromJSONObject (Tag := Tag) addProperties spec with
      | Some (maybeRun, properties) =>
          Returns (RunSegment (RunSegment.items maybeRun)
                     (RunSegment.tags maybeRun), properties)
      | None => Throws "Unrecognized IJSONObject"
      end
  end.

End Methods.
End SparseMatrixFactory.

(** ** Rows and tags of the matrix ([sparsematrix.ts]) *)

Module SparseMatrixEdit.
Section WithClient.
Context `{MergeTreeClient}.

Local Abbreviation Segment := (MatrixSegment SparseMatrixItem SparseMatrixTag).
Local Abbreviation Op := (IMergeTreeOp SparseMatrixItem SparseMatrixTag).

(** [insertRows]: the client afterwards, and the messages submitted.  The
    local insert returns the edit it has applied, which is submitted. *)
Definition insertRows (row numRows : Z) (c : Client) : Client * list Op :=
  let pos := rowColToPosition row 0 in
  let size := (maxCols * numRows)%js in
  let segment := PaddingSegment size in
  let c' := insertSegmentLocal pos segment c in
  let insertOp := InsertOp pos segment in
  (c', [insertOp]).

(** Modelled from the spec: [removeRange] of the sequence, which is not
    part of these sources, removes the range locally and submits the
    removal. *)
Definition removeRange (start stop : Z) (c : Client) : Client * list Op :=
  (removeRangeLocal start stop c, [RemoveOp start stop]).

Definition removeRows (row numRows : Z) (c : Client) : Client * list Op :=
  let pos := rowColToPosition row 0 in
  let size := (maxCols * numRows)%js in
  removeRange pos (pos + size)%js c.

Definition getSegment (row col : Z) (c : Client) : option (Segment * Z) :=
  let pos := rowColToPosition row col in
  getContainingSegment c pos.

(** [getTag]; when no segment resolves, the test of the type of
    [undefined] throws. *)
Definition getTag (row col : Z) (c : Client) : Outcome (option SparseMatrixTag) :=
  match getSegment row col c with
  | None => Throws "TypeError"
  | Some (RunSegment items tags, offset) =>
      Returns (RunSegment.getTag offset
                 {| RunSegment.items := items; RunSegment.tags := tags |})
  | Some _ => Returns None
  end.

(** [setTag]: the segment it has written to, as it is afterwards, if it
    has written to one.  The message of the error goes on with the name of
    the constructor of the segment. *)
Definition setTag (row col : Z) (tag : option SparseMatrixTag) (c : Client)
    : Outcome (option Segment) :=
  match getSegment row col c with
  | None => Throws "TypeError"
  | Some (RunSegment items tags, offset) =>
      let run := RunSegment.setTag offset tag
                   {| RunSegment.items := items; RunSegment.tags := tags |} in
      Returns (Some (RunSegment (RunSegment.items run) (RunSegment.tags run)))
  | Some _ =>
      match tag with
      | Some _ => Throws "Must not attempt to set tags on"
      | None => Returns None
      end
  end.

End WithClient.
End SparseMatrixEdit.

(** A matrix kept cell by cell: every cell is a segment of its own, a run
    of one item or a padding of one, so no segment is ever split. *)
Module CellMatrix.

Definition Cell : Type := option (Z * option string).

Definition cells (segment : MatrixSegment Z string) : list Cell :=
  match segment with
  | RunSegment items tags =>
      imap (fun i item => Some (item, mjoin (tags !! i))) items
  | PaddingSegment cachedLength => replicate (Z.to_nat cachedLength) None
  | OtherSegment _ => []
  end.

#[local] Instance client : MergeTreeClient := {|
  SparseMatrixItem := Z;
  SparseMatrixTag := string;
  Client := list Cell;
  getLength c := Z.of_nat (length c);
  getContainingSegment c pos :=
    if 0 <=? pos then
      match c !! Z.to_nat pos with
      | Some (Some (item, tag)) => Some (RunSegment [item] [tag], 0)
      | Some None => Some (PaddingSegment 1, 0)
      | None => None
      end
    else None;
  removeRangeLocal pos1 pos2 c :=
    take (Z.to_nat pos1) c ++ drop (Z.to_nat pos2) c;
  insertSegmentLocal pos1 seg c :=
    take (Z.to_nat pos1) c ++ cells seg ++ drop (Z.to_nat pos1) c;
|}.

End CellMatrix.

(** ** Tracking groups *)

Abbreviation SegmentRef := nat (only parsing).
Abbreviation GroupRef := nat (only parsing).

(** Modelled from the spec: the tracking groups of the merge tree, which is
    not part of these sources.  A tracking group is the set of the segments
    currently linked to it; [link] adds a segment that is not yet linked,
    [unlink] takes a linked segment out, and the size is the number of
    linked segments.  The handler reads the segments as an array
    ([segments[0]]), so the model keeps them in the order of linking.
    Groups and segments are objects with an identity: a segment is named by
    a reference, and the groups live in a heap indexed by their reference,
    in the order of their creation.  The tracking collection of a segment is
    the set of the groups it is linked to. *)
Module TrackingGroup.

Abbreviation heap := (list (list SegmentRef)) (only parsing).

Definition segments (h : heap) (tg : GroupRef) : list SegmentRef :=
  default [] (h !! tg).

Definition size (h : heap) (tg : GroupRef) : nat := length (segments h tg).

(** Modelled from the spec: linking adds the segment to the set, after the
    segments linked before; a segment of the set is not added again. *)
Definition link_in (sg : SegmentRef) (segs : list SegmentRef) : list SegmentRef :=
  if decide (sg ∈ segs) then segs else segs ++ [sg].

(** Modelled from the spec: unlinking takes the segment out of the set. *)
Fixpoint unlink_in (sg : SegmentRef) (segs : list SegmentRef) : list SegmentRef :=
  match segs with
  | [] => []
  | s :: rest => if decide (s = sg) then rest else s :: unlink_in sg rest
  end.

(** [new TrackingGroup()] *)
Definition new (h : heap) : heap * GroupRef := (h ++ [[]], length h).

(** [tg.link(sg)] *)
Definition link (tg : GroupRef) (sg : SegmentRef) (h : heap) : heap :=
  alter (link_in sg) tg h.

(** [tg.unlink(sg)], and [sg.trackingCollection.unlink(tg)] *)
Definition unlink (tg : GroupRef) (sg : SegmentRef) (h : heap) : heap :=
  alter (unlink_in sg) tg h.

(** [sg.trackingCollection.trackingGroups.forEach((tg) => {
       tg.link(insertSegment); tg.unlink(sg); })] *)
Definition relink_in (sg insertSegment : SegmentRef) (segs : list SegmentRef)
    : list SegmentRef :=
  if decide (sg ∈ segs) then unlink_in sg (link_in insertSegment segs) else segs.

Definition relink (sg insertSegment : SegmentRef) (h : heap) : heap :=
  relink_in sg insertSegment <$> h.

(** The segments of a group that was empty when [sgs] were linked to it,
    one after the other. *)
Definition link_all (segs sgs : list SegmentRef) : list SegmentRef :=
  foldl (fun l sg => link_in sg l) segs sgs.

(** A group holds no segment twice. *)
Definition wf (h : heap) : Prop := Forall NoDup h.

End TrackingGroup.

(** ** The sequence, its deltas and the revertable ([sequenceHandler.ts]) *)

(** Modelled from the spec: the kinds of operation of the merge tree.  A
    delta is an insert, a remove or an annotate; [GROUP] stands for the
    kinds the undo layer does not revert. *)
Inductive MergeTreeDeltaType := INSERT | REMOVE | ANNOTATE | GROUP.

#[global] Instance MergeTreeDeltaType_eq_dec : EqDecision MergeTreeDeltaType.
Proof. solve_decision. Defined.

(** Modelled from the spec: the kinds of position reference, of which the
    revertable creates the transient one only. *)
Inductive ReferenceType := Transient.

Record LocalReference := {
  refSegment : SegmentRef;
  refOffset : Z;
  refType : ReferenceType;
}.

(** Modelled from the spec: the sequence engine, which is not part of these
    sources.  The revertable reads, of a segment, its removal marker, its
    length, its serialized form and its current position, rebuilds a segment
    from a serialized form (which fails on a form it does not recognize),
    and edits the sequence by removing a range, inserting a segment at a
    position reference and annotating a range with a property delta.
    [matchProperties] is the property-wise equality of two property sets. *)
Class SharedSegmentSequence := {
  PropertySet : Type;
  IJSONSegment : Type;
  ISegment : Type;
  Sequence : Type;
  matchProperties : PropertySet -> PropertySet -> bool;
  removedSeq : Sequence -> SegmentRef -> option Z;
  cachedLength : Sequence -> SegmentRef -> Z;
  toJSONObject : Sequence -> SegmentRef -> IJSONSegment;
  getPosition : Sequence -> SegmentRef -> Z;
  segmentFromSpec : IJSONSegment -> option ISegment;
  removeRange : Z -> Z -> Sequence -> Sequence;
  insertAtReferencePosition :
    LocalReference -> SegmentRef -> ISegment -> Sequence -> Sequence;
  annotateRange : Z -> Z -> PropertySet -> Sequence -> Sequence;
}.

Section WithSequence.
Context `{SharedSegmentSequence}.

Record ISequenceDeltaRange := {
  segment : SegmentRef;
  propertyDeltas : PropertySet;
}.

Record SequenceDeltaEvent := {
  isLocal : bool;
  deltaOperation : MergeTreeDeltaType;
  ranges : list ISequenceDeltaRange;
}.

Record ITrackedSharedSegmentSequenceRevertable := {
  trackingGroup : GroupRef;
  propertyDelta : PropertySet;
  operation : MergeTreeDeltaType;
}.

(** The edits a revertable has made to its sequence, in order. *)
Inductive SequenceCall :=
| RemoveRange (start stop : Z)
| InsertAtReferencePosition (pos : LocalReference) (insertSegment : SegmentRef)
    (content : ISegment)
| AnnotateRange (start stop : Z) (props : PropertySet).

(** What a revertable works on: the heap of the tracking groups, the next
    unused segment reference, its sequence, and the edits made so far.  The
    edits of a revertable cover a whole segment or insert at the start of
    one, so they split no segment and the engine has no group to link
    anew: the sequence and the heap of the groups are separate parts.  The
    deltas that these edits raise are recorded, if at all, in another
    revertable. *)
Record World := {
  groups : TrackingGroup.heap;
  nextSegment : SegmentRef;
  sequence : Sequence;
  calls : list SequenceCall;
}.

Definition setGroups (h : TrackingGroup.heap) (w : World) : World :=
  {| groups := h; nextSegment := nextSegment w;
     sequence := sequence w; calls := calls w |}.

Definition doRemoveRange (start stop : Z) (w : World) : World :=
  {| groups := groups w; nextSegment := nextSegment w;
     sequence := removeRange start stop (sequence w);
     calls := calls w ++ [RemoveRange start stop] |}.

Definition doAnnotateRange (start stop : Z) (props : PropertySet) (w : World)
    : World :=
  {| groups := groups w; nextSegment := nextSegment w;
     sequence := annotateRange start stop props (sequence w);
     calls := calls w ++ [AnnotateRange start stop props] |}.

(** Inserts a rebuilt segment, which is a new object, and returns its
    reference. *)
Definition doInsertAtReferencePosition (pos : LocalReference)
    (content : ISegment) (w : World) : World * SegmentRef :=
  let insertSegment := nextSegment w in
  ({| groups := groups w; nextSegment := S insertSegment;
      sequence :=
        insertAtReferencePosition pos insertSegment content (sequence w);
      calls := calls w ++ [InsertAtReferencePosition pos insertSegment content] |},
   insertSegment).

Definition createPositionReference (sg : SegmentRef) (offset : Z)
    (refType : ReferenceType) : LocalReference :=
  {| refSegment := sg; refOffset := offset; refType := refType |}.

(** The segments that the groups link are objects that exist: their
    references are below the next unused one. *)
Definition allocated (w : World) : Prop :=
  Forall (Forall (fun sg : SegmentRef => (sg < nextSegment w)%nat)) (groups w).

End WithSequence.

Module Revertable.
Section WithSequence.
Context `{SharedSegmentSequence}.

Local Abbreviation Tracked := ITrackedSharedSegmentSequenceRevertable.

(** The revertable: the sequence it belongs to, and its tracked entries,
    oldest first. *)
Record t := {
  target : nat;
  tracking : list Tracked;
}.

Definition setTracking (tr : list Tracked) (r : t) : t :=
  {| target := target r; tracking := tr |}.

(** [this.tracking.pop()] *)
Definition pop (tr : list Tracked) : option (list Tracked * Tracked) :=
  match last tr with
  | Some tracked => Some (removelast tr, tracked)
  | None => None
  end.

(** The variables of the loop of [add]: the heap of the groups, the entries,
    and [current]. *)
Definition AddState : Type :=
  TrackingGroup.heap * list Tracked * option Tracked.

Definition startGroup (op : MergeTreeDeltaType) (s : AddState)
    (range : ISequenceDeltaRange) : AddState :=
  let '(h, tr, _) := s in
  let '(h1, tg) := TrackingGroup.new h in
  let h2 := TrackingGroup.link tg (segment range) h1 in
  let current := {| trackingGroup := tg;
                    propertyDelta := propertyDeltas range;
                    operation := op |} in
  (h2, tr ++ [current], Some current).

Definition addRange (op : MergeTreeDeltaType) (s : AddState)
    (range : ISequenceDeltaRange) : AddState :=
  let '(h, tr, current) := s in
  match current with
  | Some cur =>
      if bool_decide (operation cur = op)
         && matchProperties (propertyDelta cur) (propertyDeltas range)
      then (TrackingGroup.link (trackingGroup cur) (segment range) h, tr, current)
      else startGroup op s range
  | None => startGroup op s range
  end.

Definition add (event : SequenceDeltaEvent) (s : TrackingGroup.heap * t)
    : TrackingGroup.heap * t :=
  let '(h, r) := s in
  if (0 <? length (ranges event))%nat then
    let current := last (tracking r) in
    let '(h', tr', _) :=
      foldl (addRange (deltaOperation event)) (h, tracking r, current)
        (ranges event) in
    (h', setTracking tr' r)
  else s.

(** The body of the inner loop of [revert]: one segment of the group of
    [tracked] is unlinked and the inverse of the operation applied to it.
    The case of [ANNOTATE] has no [break]: it runs on into the [default]
    case, which throws. *)
Definition revertSegment (tracked : Tracked) (w : World) : World * Completion :=
  match TrackingGroup.segments (groups w) (trackingGroup tracked) with
  | [] => (w, Throw "TypeError")
  | sg :: _ =>
      let w := setGroups (TrackingGroup.unlink (trackingGroup tracked) sg (groups w)) w in
      match operation tracked with
      | INSERT =>
          match removedSeq (sequence w) sg with
          | None =>
              let start := getPosition (sequence w) sg in
              (doRemoveRange start (start + cachedLength (sequence w) sg)%js w,
               Normal)
          | Some _ => (w, Normal)
          end
      | REMOVE =>
          match segmentFromSpec (toJSONObject (sequence w) sg) with
          | None => (w, Throw "Unrecognized IJSONObject")
          | Some content =>
              let '(w, insertSegment) :=
                doInsertAtReferencePosition
                  (createPositionReference sg 0 Transient) content w in
              (setGroups (TrackingGroup.relink sg insertSegment (groups w)) w,
               Normal)
          end
      | ANNOTATE =>
          let w :=
            match removedSeq (sequence w) sg with
            | None =>
                let start := getPosition (sequence w) sg in
                doAnnotateRange start (start + cachedLength (sequence w) sg)%js
                  (propertyDelta tracked) w
            | Some _ => w
            end in
          (w, Throw "operationt type not revertable")
      | GROUP => (w, Throw "operationt type not revertable")
      end
  end.

Definition groupNotEmpty (tracked : Tracked) (w : World) : bool :=
  (0 <? TrackingGroup.size (groups w) (trackingGroup tracked))%nat.

Definition hasTracking (s : World * t) : bool :=
  (0 <? length (tracking (snd s)))%nat.

Definition revertEntry (fuel : nat) (s : World * t) : (World * t) * Completion :=
  let '(w, r) := s in
  match pop (tracking r) with
  | Some (rest, tracked) =>
      let '(w', c) := while fuel (groupNotEmpty tracked) (revertSegment tracked) w in
      ((w', setTracking rest r), c)
  | None => (s, Normal)
  end.

Definition revert (fuel : nat) (s : World * t) : (World * t) * Completion :=
  while fuel hasTracking (revertEntry fuel) s.

(** The body of the inner loop of [disgard]. *)
Definition disgardSegment (tracked : Tracked) (w : World) : World * Completion :=
  match TrackingGroup.segments (groups w) (trackingGroup tracked) with
  | [] => (w, Normal)
  | sg :: _ =>
      (setGroups (TrackingGroup.unlink (trackingGroup tracked) sg (groups w)) w,
       Normal)
  end.

Definition disgardEntry (fuel : nat) (s : World * t) : (World * t) * Completion :=
  let '(w, r) := s in
  match pop (tracking r) with
  | Some (rest, tracked) =>
      let '(w', c) := while fuel (groupNotEmpty tracked) (disgardSegment tracked) w in
      ((w', setTracking rest r), c)
  | None => (s, Normal)
  end.

Definition disgard (fuel : nat) (s : World * t) : (World * t) * Completion :=
  while fuel hasTracking (disgardEntry fuel) s.

End WithSequence.
End Revertable.

(** ** The handler *)

Module Handler.
Section WithSequence.
Context `{SharedSegmentSequence}.

(** The handler and what it shares with the stack manager: the map from a
    sequence to its open revertable, the revertables pushed to the current
    operation of the stack manager, the heap of the revertable objects, and
    the heap of the tracking groups. *)
Record t := {
  sequences : gmap nat nat;
  pushed : list nat;
  revertables : list Revertable.t;
  trackingGroups : TrackingGroup.heap;
}.

(** Modelled from the spec: [pushToCurrentOperation] of the stack manager,
    which is not part of these sources, registers the revertable as a frame
    of the current operation. *)
Definition pushToCurrentOperation (revertable : nat) (frames : list nat)
    : list nat :=
  frames ++ [revertable].

(** [this.stackManager.on("changePushed", () => this.sequences.clear())] *)
Definition changePushed (h : t) : t :=
  {| sequences := ∅; pushed := pushed h;
     revertables := revertables h; trackingGroups := trackingGroups h |}.

Definition addTo (revertable : nat) (event : SequenceDeltaEvent) (h : t) : t :=
  match revertables h !! revertable with
  | Some r =>
      let '(g, r') := Revertable.add event (trackingGroups h, r) in
      {| sequences := sequences h; pushed := pushed h;
         revertables := <[revertable := r']> (revertables h);
         trackingGroups := g |}
  | None => h
  end.

Definition sequenceDeltaHandler (event : SequenceDeltaEvent) (target : nat)
    (h : t) : t :=
  if isLocal event then
    match sequences h !! target with
    | Some revertable => addTo revertable event h
    | None =>
        let revertable := length (revertables h) in
        let h :=
          {| sequences := <[target := revertable]> (sequences h);
             pushed := pushToCurrentOperation revertable (pushed h);
             revertables :=
               revertables h ++ [{| Revertable.target := target;
                                    Revertable.tracking := [] |}];
             trackingGroups := trackingGroups h |} in
        addTo revertable event h
    end
  else h.

End WithSequence.
End Handler.

(** ** A small sequence

    A sequence to run the revertable on: a list of segments, each with its
    reference, its length, its properties and its removal marker.  A removed
    segment stays in the list as a tombstone.  The serialized form of a
    segment is its length and its properties. *)

Module ExampleSequence.

Record Seg := {
  ref : SegmentRef;
  len : Z;
  props : list (string * Z);
  removedAt : option Z;
}.

Definition find (doc : list Seg) (sg : SegmentRef) : option Seg :=
  list_find (fun s => ref s = sg) doc ≫= fun '(_, s) => Some s.

Fixpoint position (doc : list Seg) (sg : SegmentRef) : Z :=
  match doc with
  | [] => 0
  | s :: rest =>
      if decide (ref s = sg) then 0
      else (match removedAt s with Some _ => 0 | None => len s end)
           + position rest sg
  end.

(** Applies [f] to the live segments that lie inside [[start, stop)]. *)
Fixpoint inRange (f : Seg -> Seg) (pos start stop : Z) (doc : list Seg)
    : list Seg :=
  match doc with
  | [] => []
  | s :: rest =>
      match removedAt s with
      | Some _ => s :: inRange f pos start stop rest
      | None =>
          (if (start <=? pos) && (pos + len s <=? stop) then f s else s)
          :: inRange f (pos + len s) start stop rest
      end
  end.

Fixpoint insertBefore (sg : SegmentRef) (new : Seg) (doc : list Seg) : list Seg :=
  match doc with
  | [] => [new]
  | s :: rest =>
      if decide (ref s = sg) then new :: s :: rest
      else s :: insertBefore sg new rest
  end.

#[local] Instance engine : SharedSegmentSequence := {|
  PropertySet := list (string * Z);
  IJSONSegment := Z * list (string * Z);
  ISegment := Z * list (string * Z);
  Sequence := list Seg;
  matchProperties a b := bool_decide (a = b);
  removedSeq doc sg := find doc sg ≫= removedAt;
  cachedLength doc sg := from_option len 0 (find doc sg);
  toJSONObject doc sg :=
    from_option (fun s => (len s, props s)) (0, []) (find doc sg);
  getPosition doc sg := position doc sg;
  segmentFromSpec spec := if 0 <? fst spec then Some spec else None;
  removeRange start stop doc :=
    inRange (fun s => {| ref := ref s; len := len s; props := props s;
                         removedAt := Some 1 |}) 0 start stop doc;
  insertAtReferencePosition pos insertSegment content doc :=
    insertBefore (refSegment pos)
      {| ref := insertSegment; len := fst content; props := snd content;
         removedAt := None |} doc;
  annotateRange start stop delta doc :=
    inRange (fun s => {| ref := ref s; len := len s; props := delta;
                         removedAt := removedAt s |}) 0 start stop doc;
|}.

(** Three segments, of which the second has been removed. *)
Definition doc : list Seg :=
  [ {| ref := 0%nat; len := 2; props := []; removedAt := None |};
    {| ref := 1%nat; len := 3; props := []; removedAt := Some 1 |};
    {| ref := 2%nat; len := 4; props := [("bold"%string, 1)];
       removedAt := None |} ].

Definition world (h : TrackingGroup.heap) : World :=
  {| groups := h; nextSegment := 3%nat; sequence := doc; calls := [] |}.

Definition entry (op : MergeTreeDeltaType) (tg : GroupRef)
    (delta : list (string * Z)) : ITrackedSharedSegmentSequenceRevertable :=
  {| trackingGroup := tg; propertyDelta := delta; operation := op |}.

Definition revertable (trs : list ITrackedSharedSegmentSequenceRevertable)
    : Revertable.t :=
  {| Revertable.target := 0%nat; Revertable.tracking := trs |}.

(** An insert of the first segment by another client. *)
Definition remoteInsert : SequenceDeltaEvent :=
  {| isLocal := false; deltaOperation := INSERT;
     ranges := [ {| segment := 0%nat; propertyDeltas := [] |} ] |}.

(** A handler that has seen nothing yet. *)
Definition handler : Handler.t :=
  {| Handler.sequences := ∅; Handler.pushed := [];
     Handler.revertables := []; Handler.trackingGroups := [] |}.

End ExampleSequence.

(** ** What the recording keeps *)

Section RecordingInvariants.
Context `{SharedSegmentSequence}.

(** The entries of a revertable have each a group of their own, and each
    group links a segment. *)
Definition entriesLinked (h : TrackingGroup.heap)
    (tr : list ITrackedSharedSegmentSequenceRevertable) : Prop :=
  NoDup (trackingGroup <$> tr)
  /\ Forall (fun e => TrackingGroup.segments h (trackingGroup e) <> []) tr.

(** No range of [xs] goes with the entry before it: the first one differs
    from [prev], an operation kind and a property delta, in the kind or in
    the delta, and each later one differs from the range before it in the
    delta. *)
Fixpoint distinctRuns (op : MergeTreeDeltaType)
    (prev : option (MergeTreeDeltaType * PropertySet))
    (xs : list ISequenceDeltaRange) : Prop :=
  match xs with
  | [] => True
  | x :: rest =>
      match prev with
      | Some (op', delta) =>
          op' <> op \/ matchProperties delta (propertyDeltas x) = false
      | None => True
      end
      /\ distinctRuns op (Some (op, propertyDeltas x)) rest
  end.

(** Every sequence that the handler has a revertable for has one that
    belongs to it and has been pushed to the stack manager. *)
Definition handlerConsistent (h : Handler.t) : Prop :=
  forall target revertable,
    Handler.sequences h !! target = Some revertable ->
    revertable ∈ Handler.pushed h
    /\ exists r, Handler.revertables h !! revertable = Some r
         /\ Revertable.target r = target.

End RecordingInvariants.

(** Local edits of the small sequence: an insert of its first and its last
    segment, and a remove of the one in between. *)
Module ExampleEvents.

#[local] Existing Instance ExampleSequence.engine.

Definition localInsert : SequenceDeltaEvent :=
  {| isLocal := true; deltaOperation := INSERT;
     ranges := [ {| segment := 0%nat; propertyDeltas := [] |};
                 {| segment := 2%nat; propertyDeltas := [] |} ] |}.

Definition localRemove : SequenceDeltaEvent :=
  {| isLocal := true; deltaOperation := REMOVE;
     ranges := [ {| segment := 1%nat; propertyDeltas := [] |} ] |}.

(** The handler after the local insert on sequence [7]: the sequence has
    an open revertable, which has been pushed and holds the insert. *)
Definition openHandler : Handler.t :=
  {| Handler.sequences := {[ 7%nat := 0%nat ]};
     Handler.pushed := [0%nat];
     Handler.revertables :=
       [ {| Revertable.target := 7%nat;
            Revertable.tracking := [ ExampleSequence.entry INSERT 0%nat [] ] |} ];
     Handler.trackingGroups := [[0; 2]]%nat |}.

End ExampleEvents.

(** The small sequence again, now with an engine that rebuilds a segment
    from every serialized form. *)
Module LenientSequence.

#[local] Instance engine : SharedSegmentSequence := {|
  PropertySet := list (string * Z);
  IJSONSegment := Z * list (string * Z);
  ISegment := Z * list (string * Z);
  Sequence := list ExampleSequence.Seg;
  matchProperties a b := bool_decide (a = b);
  removedSeq := removedSeq (SharedSegmentSequence := ExampleSequence.engine);
  cachedLength := cachedLength (SharedSegmentSequence := ExampleSequence.engine);
  toJSONObject := toJSONObject (SharedSegmentSequence := ExampleSequence.engine);
  getPosition := getPosition (SharedSegmentSequence := ExampleSequence.engine);
  segmentFromSpec spec := Some spec;
  removeRange := removeRange (SharedSegmentSequence := ExampleSequence.engine);
  insertAtReferencePosition :=
    insertAtReferencePosition (SharedSegmentSequence := ExampleSequence.engine);
  annotateRange := annotateRange (SharedSegmentSequence := ExampleSequence.engine);
|}.

Definition world (h : TrackingGroup.heap) : World :=
  {| groups := h; nextSegment := 3%nat; sequence := ExampleSequence.doc;
     calls := [] |}.

Definition entry (op : MergeTreeDeltaType) (tg : GroupRef)
    : ITrackedSharedSegmentSequenceRevertable :=
  {| trackingGroup := tg; propertyDelta := []; operation := op |}.

Definition revertable (trs : list ITrackedSharedSegmentSequenceRevertable)
    : Revertable.t :=
  {| Revertable.target := 0%nat; Revertable.tracking := trs |}.

End LenientSequence.

(** ** The timer of the build tool ([timer.ts], with [logging.ts]) *)

From stdpp Require Import pretty.

Local Open Scope Z_scope.

(** A [number] that need not hold an integer, as a significand and an
    exponent: the value is [m * 2^e]. *)
Module JsFloat.

(** [a / b] for integers [a] and [0 < b]. *)
Definition div (a b : Z) : Z * Z :=
  let '(m, e) := JsNumber.round_q (Z.abs a) b in (Z.sgn a * m, e).

(** The integer [n] for which [n / 10^3] is nearest to the value that is
    not negative, the larger one of two. *)
Definition nearestThousandth (me : Z * Z) : Z :=
  let '(m, e) := me in
  if 0 <=? e then m * 2 ^ e * 1000
  else (2 * (m * 1000) + 2 ^ (- e)) / 2 ^ (- e + 1).

(** The digits of [n], which is below a thousand, filled up to three. *)
Definition digits3 (n : Z) : string :=
  let s := pretty n in
  match String.length s with
  | 1%nat => "00" +:+ s
  | 2%nat => "0" +:+ s
  | _ => s
  end.

(** The text of a count [n] of thousandths with the point in it. *)
Definition thousandths (n : Z) : string :=
  pretty (n / 1000) +:+ "." +:+ digits3 (n mod 1000).

(** [x.toFixed(3)], for a value below [10^21] in size: above, the text has
    an exponent. *)
Definition toFixed3 (me : Z * Z) : string :=
  let '(m, e) := me in
  if m <? 0 then "-" +:+ thousandths (nearestThousandth (- m, e))
  else thousandths (nearestThousandth (m, e)).

End JsFloat.

Module Logging.

(** The options of the build tool that the logging reads. *)
Record Options := {
  verbose : bool;
  logtime : bool;
}.

(** What the logging reads of a [Date]. *)
Record Date := {
  getHours : Z;
  getMinutes : Z;
  getSeconds : Z;
}.

Section WithChalk.

(** [chalk.default.yellow], of a library. *)
Variable yellow : string -> string.

Definition logVerbose (options : Options) (msg : string) (console : list string)
    : list string :=
  if verbose options then console ++ [msg] else console.

(** [if (s.length === 1) { s = '0' + s; }] *)
Definition pad (s : string) : string :=
  if (String.length s =? 1)%nat then "0" +:+ s else s.

Definition stamp (date : Date) : string :=
  let hours := pad (pretty (getHours date)) in
  let mins := pad (pretty (getMinutes date)) in
  let secs := pad (pretty (getSeconds date)) in
  "[" +:+ hours +:+ ":" +:+ mins +:+ ":" +:+ secs +:+ "] ".

Definition logStatus (options : Options) (date : Date) (msg : string)
    (console : list string) : list string :=
  if negb (logtime options) then console ++ [msg]
  else console ++ [yellow (stamp date) +:+ msg].

End WithChalk.
End Logging.

Module Timer.

Record t := {
  enabled : bool;
  lastTime : Z;
  totalTime : Z;
}.

(** [new Timer(enabled)], when the clock reads [now]. *)
Definition create (enabled : bool) (now : Z) : t :=
  {| enabled := enabled; lastTime := now; totalTime := 0 |}.

(** A message that is given and is not empty. *)
Definition truthy (msg : option string) : bool :=
  match msg with
  | Some s => negb (String.eqb s "")
  | None => false
  end.

Section WithChalk.
Variable yellow : string -> string.

(** One call of [time]: the message, if there is one, what the clock reads,
    and the date that [logStatus] would read. *)
Record Call := {
  msg : option string;
  currTime : Z;
  date : Logging.Date;
}.

(** [time(msg)]: the seconds it returns, the timer and the console
    afterwards. *)
Definition time (options : Logging.Options) (call : Call)
    (s : t * list string) : (Z * Z) * (t * list string) :=
  let '(timer, console) := s in
  let diffTime := (currTime call - lastTime timer)%js in
  let diffTimeInSeconds := JsFloat.div diffTime 1000 in
  let console :=
    if enabled timer && truthy (msg call) then
      let text := default "" (msg call) in
      if 100 <? diffTime then
        Logging.logStatus yellow options (date call)
          (text +:+ " - " +:+ JsFloat.toFixed3 diffTimeInSeconds +:+ "s") console
      else
        Logging.logStatus yellow options (date call)
          (text +:+ " - " +:+ pretty diffTime +:+ "ms") console
    else console in
  (diffTimeInSeconds,
   ({| enabled := enabled timer; lastTime := currTime call;
       totalTime := (totalTime timer + diffTime)%js |}, console)).

Definition getTotalTime (timer : t) : Z := totalTime timer.

(** Calls of [time], one after the other. *)
Definition times (options : Logging.Options) (calls : list Call)
    (s : t * list string) : t * list string :=
  foldl (fun s call => snd (time options call s)) s calls.

End WithChalk.
End Timer.

(** ** The Kafka orderer ([kafkaOrderer.ts])

    The producer, the sockets and the storage are services of other
    packages.  The model keeps what the orderer does to them: the messages
    it hands to the producer with their keys, the rooms it makes a socket
    join, and the state of the storage.  A call of a service is taken to
    succeed.  What the clocks and the name generator give is passed in. *)

(** The types of other packages that the orderer passes on as they are. *)
Class OrdererTypes := {
  IUser : Type;
  IClient : Type;
  Payload : Type;
  HighResTime : Type;
}.

(** [MessageType]: the two types the orderer writes, and the others. *)
Inductive MessageType :=
| ClientJoin
| ClientLeave
| OtherType (name : string).

Module ITrace.
Section WithTypes.
Context `{OrdererTypes}.

Record t := {
  action : string;
  service : string;
  timestamp : HighResTime;
}.

End WithTypes.
End ITrace.

Module IDocumentMessage.
Section WithTypes.
Context `{OrdererTypes}.

(** The contents of a message: those of a join ([IClientJoin]), those of a
    leave (the id of the client), or those of a caller. *)
Inductive Contents :=
| Join (clientId : string) (detail : IClient)
| Leave (clientId : string)
| Content (payload : Payload).

Record t := {
  clientSequenceNumber : Z;
  contents : Contents;
  referenceSequenceNumber : Z;
  traces : option (list ITrace.t);
  type : MessageType;
}.

End WithTypes.
End IDocumentMessage.

Module IRawOperationMessage.
Section WithTypes.
Context `{OrdererTypes}.

Record t := {
  clientId : option string;
  documentId : string;
  operation : IDocumentMessage.t;
  tenantId : string;
  timestamp : Z;
  type : string;
  user : IUser;
}.

End WithTypes.
End IRawOperationMessage.

(** What the orderer reads of a document: the id of the document of its
    parent, if it has one. *)
Module IDocument.
Record t := {
  parent : option string;
}.
End IDocument.

Module IDocumentDetails.
Record t := {
  existing : bool;
  value : IDocument.t;
}.
End IDocumentDetails.

(** What the orderer has done to the producer and to the sockets:
    [producer.send(message, key)] and [socket.join(room)]. *)
Module Services.
Record t := {
  sent : list (string * string);
  joined : list (nat * string);
}.
End Services.

(** What the clocks read at a call: [Date.now()] and [now()]. *)
Module Clock.
Section WithTypes.
Context `{OrdererTypes}.

Record t := {
  dateNow : Z;
  now : HighResTime;
}.

End WithTypes.
End Clock.

Module KafkaOrdererConnection.
Section WithTypes.
Context `{OrdererTypes}.

(** [core.RawOperationType] and [JSON.stringify]. *)
Variable RawOperationType : string.
Variable stringify : IRawOperationMessage.t -> string.

Record t := {
  existing : bool;
  tenantId : string;
  documentId : string;
  clientId : string;
  user : IUser;
  client : IClient;
  maxMessageSize : Z;
  parentBranch : option string;
}.

Definition startTrace (clock : Clock.t) : ITrace.t :=
  {| ITrace.action := "start"; ITrace.service := "alfred";
     ITrace.timestamp := Clock.now clock |}.

(** The operation of a message after the trace has been pushed to it, if
    it has traces. *)
Definition traced (clock : Clock.t) (operation : IDocumentMessage.t)
    : IDocumentMessage.t :=
  match IDocumentMessage.traces operation with
  | Some traces =>
      {| IDocumentMessage.clientSequenceNumber :=
           IDocumentMessage.clientSequenceNumber operation;
         IDocumentMessage.contents := IDocumentMessage.contents operation;
         IDocumentMessage.referenceSequenceNumber :=
           IDocumentMessage.referenceSequenceNumber operation;
         IDocumentMessage.traces := Some (traces ++ [startTrace clock]);
         IDocumentMessage.type := IDocumentMessage.type operation |}
  | None => operation
  end.

(** [submitRawOperation]: the operation of the message, which is the object
    the caller has passed, as it is afterwards, and the services. *)
Definition submitRawOperation (clock : Clock.t) (connection : t)
    (message : IRawOperationMessage.t) (services : Services.t)
    : IDocumentMessage.t * Services.t :=
  let operation := traced clock (IRawOperationMessage.operation message) in
  let message :=
    {| IRawOperationMessage.clientId := IRawOperationMessage.clientId message;
       IRawOperationMessage.documentId := IRawOperationMessage.documentId message;
       IRawOperationMessage.operation := operation;
       IRawOperationMessage.tenantId := IRawOperationMessage.tenantId message;
       IRawOperationMessage.timestamp := IRawOperationMessage.timestamp message;
       IRawOperationMessage.type := IRawOperationMessage.type message;
       IRawOperationMessage.user := IRawOperationMessage.user message |} in
  let stringMessage := stringify message in
  (operation,
   {| Services.sent :=
        Services.sent services ++ [(stringMessage, documentId connection)];
      Services.joined := Services.joined services |}).

(** The message of a join or of a leave. *)
Definition systemMessage (clock : Clock.t) (connection : t)
    (contents : IDocumentMessage.Contents) (type : MessageType)
    : IRawOperationMessage.t :=
  {| IRawOperationMessage.clientId := None;
     IRawOperationMessage.documentId := documentId connection;
     IRawOperationMessage.operation :=
       {| IDocumentMessage.clientSequenceNumber := -1;
          IDocumentMessage.contents := contents;
          IDocumentMessage.referenceSequenceNumber := -1;
          IDocumentMessage.traces := Some [];
          IDocumentMessage.type := type |};
     IRawOperationMessage.tenantId := tenantId connection;
     IRawOperationMessage.timestamp := Clock.dateNow clock;
     IRawOperationMessage.type := RawOperationType;
     IRawOperationMessage.user := user connection |}.

(** The constructor: the connection, and the join submitted. *)
Definition new (existing : bool) (document : IDocument.t)
    (tenantId documentId clientId : string) (user : IUser) (client : IClient)
    (maxMessageSize : Z) (clock : Clock.t) (services : Services.t)
    : t * Services.t :=
  let connection :=
    {| existing := existing; tenantId := tenantId; documentId := documentId;
       clientId := clientId; user := user; client := client;
       maxMessageSize := maxMessageSize;
       parentBranch := IDocument.parent document |} in
  let message :=
    systemMessage clock connection
      (IDocumentMessage.Join clientId client) ClientJoin in
  (connection, snd (submitRawOperation clock connection message services)).

(** [Create]; [choice] is what [moniker.choose()] gives. *)
Definition Create (existing : bool) (document : IDocument.t)
    (tenantId documentId : string) (socket : nat) (user : IUser)
    (client : IClient) (maxMessageSize : Z) (choice : string)
    (clock : Clock.t) (services : Services.t) : t * Services.t :=
  let clientId := choice in
  let '(connection, services) :=
    new existing document tenantId documentId clientId user client
      maxMessageSize clock services in
  (connection,
   {| Services.sent := Services.sent services;
      Services.joined :=
        Services.joined services
        ++ [(socket, tenantId +:+ "/" +:+ documentId);
            (socket, "client#" +:+ clientId)] |}).

(** [order]: the message of the caller as it is afterwards, and the
    services. *)
Definition order (message : IDocumentMessage.t) (clock : Clock.t)
    (connection : t) (services : Services.t)
    : IDocumentMessage.t * Services.t :=
  let rawMessage :=
    {| IRawOperationMessage.clientId := Some (clientId connection);
       IRawOperationMessage.documentId := documentId connection;
       IRawOperationMessage.operation := message;
       IRawOperationMessage.tenantId := tenantId connection;
       IRawOperationMessage.timestamp := Clock.dateNow clock;
       IRawOperationMessage.type := RawOperationType;
       IRawOperationMessage.user := user connection |} in
  submitRawOperation clock connection rawMessage services.

Definition disconnect (clock : Clock.t) (connection : t)
    (services : Services.t) : Services.t :=
  let message :=
    systemMessage clock connection
      (IDocumentMessage.Leave (clientId connection)) ClientLeave in
  snd (submitRawOperation clock connection message services).

(** A message of the connection: keyed by its document, and stamped with
    its tenant, its document and its user. *)
Definition stamped (connection : t)
    (entry : string * string) : Prop :=
  entry.2 = documentId connection /\
  exists message : IRawOperationMessage.t,
    entry.1 = stringify message /\
    IRawOperationMessage.documentId message
    = documentId connection /\
    IRawOperationMessage.tenantId message
    = tenantId connection /\
    IRawOperationMessage.user message = user connection /\
    IRawOperationMessage.type message = RawOperationType.

(** What a caller does with a connection. *)
Inductive Call :=
| Order (message : IDocumentMessage.t)
| Disconnect.

Definition call (connection : t) (services : Services.t)
    (c : Call * Clock.t) : Services.t :=
  match c with
  | (Order message, clock) => snd (order message clock connection services)
  | (Disconnect, clock) => disconnect clock connection services
  end.

(** Calls on a connection, one after the other. *)
Definition calls (connection : t) (cs : list (Call * Clock.t))
    (services : Services.t) : Services.t :=
  foldl (call connection) services cs.

End WithTypes.
End KafkaOrdererConnection.

Module KafkaOrderer.
Section WithTypes.
Context `{OrdererTypes}.
Variable RawOperationType : string.
Variable stringify : IRawOperationMessage.t -> string.

Record t := {
  details : IDocumentDetails.t;
  existing : bool;
  tenantId : string;
  documentId : string;
  maxMessageSize : Z;
}.

(** The constructor. *)
Definition new (details : IDocumentDetails.t) (tenantId documentId : string)
    (maxMessageSize : Z) : t :=
  {| details := details; existing := IDocumentDetails.existing details;
     tenantId := tenantId; documentId := documentId;
     maxMessageSize := maxMessageSize |}.

(** [connect]: the orderer afterwards, the connection, and the services. *)
Definition connect (socket : nat) (user : IUser) (client : IClient)
    (choice : string) (clock : Clock.t) (orderer : t) (services : Services.t)
    : t * KafkaOrdererConnection.t * Services.t :=
  let '(connection, services) :=
    KafkaOrdererConnection.Create RawOperationType stringify
      (existing orderer) (IDocumentDetails.value (details orderer))
      (tenantId orderer) (documentId orderer) socket user client
      (maxMessageSize orderer) choice clock services in
  ({| details := details orderer; existing := true;
      tenantId := tenantId orderer; documentId := documentId orderer;
      maxMessageSize := maxMessageSize orderer |},
   connection, services).

(** What a caller connects with, and what the name generator and the
    clocks give at the call. *)
Record Request := {
  socket : nat;
  user : IUser;
  client : IClient;
  choice : string;
  clock : Clock.t;
}.

(** Calls of [connect], one after the other: the orderer, the connections
    made so far, and the services. *)
Definition connects (requests : list Request)
    (s : t * list KafkaOrdererConnection.t * Services.t)
    : t * list KafkaOrdererConnection.t * Services.t :=
  foldl (fun '(orderer, connections, services) request =>
           let '(orderer, connection, services) :=
             connect (socket request) (user request) (client request)
               (choice request) (clock request) orderer services in
           (orderer, connections ++ [connection], services))
        s requests.

Section WithStorage.
Variable Storage : Type.
Variable getOrCreateDocument :
  string -> string -> Storage -> IDocumentDetails.t * Storage.

(** [Create]: the orderer, and the storage afterwards. *)
Definition Create (storage : Storage) (tenantId documentId : string)
    (maxMessageSize : Z) : t * Storage :=
  let '(details, storage) := getOrCreateDocument tenantId documentId storage in
  (new details tenantId documentId maxMessageSize, storage).

End WithStorage.
End WithTypes.
End KafkaOrderer.

Module KafkaOrdererFactory.
Section WithTypes.
Context `{OrdererTypes}.
Variable Storage : Type.
Variable getOrCreateDocument :
  string -> string -> Storage -> IDocumentDetails.t * Storage.

(** The factory: its map, which holds the orderers by reference, the
    orderers it has made, and the storage. *)
Record t := {
  ordererMap : gmap string nat;
  orderers : list KafkaOrderer.t;
  storage : Storage;
  maxMessageSize : Z;
}.

(** [new KafkaOrdererFactory(producer, storage, maxMessageSize)] *)
Definition new (storage : Storage) (maxMessageSize : Z) : t :=
  {| ordererMap := ∅; orderers := []; storage := storage;
     maxMessageSize := maxMessageSize |}.

(** [create]: what the map gives for the full id in the end, and the
    factory afterwards. *)
Definition create (tenantId documentId : string) (factory : t)
    : option nat * t :=
  let fullId := tenantId +:+ "/" +:+ documentId in
  let factory :=
    match ordererMap factory !! fullId with
    | None =>
        let '(orderer, storage) :=
          KafkaOrderer.Create Storage getOrCreateDocument (storage factory)
            tenantId documentId (maxMessageSize factory) in
        {| ordererMap :=
             <[fullId := length (orderers factory)]> (ordererMap factory);
           orderers := orderers factory ++ [orderer];
           storage := storage;
           maxMessageSize := maxMessageSize factory |}
    | Some _ => factory
    end in
  (ordererMap factory !! fullId, factory).

(** The map of a factory leads to orderers it has made, each under the
    full id of its tenant and its document. *)
Definition mapped (factory : t) : Prop :=
  forall fullId ref,
    ordererMap factory !! fullId = Some ref ->
    exists orderer,
      orderers factory !! ref = Some orderer /\
      KafkaOrderer.tenantId orderer +:+ "/" +:+ KafkaOrderer.documentId orderer
      = fullId /\
      KafkaOrderer.maxMessageSize orderer
      = maxMessageSize factory.

(** Requests to the factory, one after the other. *)
Definition creates (requests : list (string * string)) (factory : t) : t :=
  foldl (fun factory '(tenantId, documentId) =>
           snd (create tenantId documentId factory)) factory requests.

End WithTypes.

Arguments ordererMap {Storage} _.
Arguments orderers {Storage} _.
Arguments storage {Storage} _.
Arguments maxMessageSize {Storage} _.

End KafkaOrdererFactory.

(** A storage that keeps the documents it has made, and the types of an
    orderer whose users, clients and payloads are strings. *)
Module ExampleOrderer.

#[local] Instance types : OrdererTypes := {|
  IUser := string;
  IClient := string;
  Payload := string;
  HighResTime := Z;
|}.

Definition getOrCreateDocument (tenantId documentId : string)
    (storage : list (string * string))
    : IDocumentDetails.t * list (string * string) :=
  if decide ((tenantId, documentId) ∈ storage) then
    ({| IDocumentDetails.existing := true;
        IDocumentDetails.value := {| IDocument.parent := None |} |}, storage)
  else
    ({| IDocumentDetails.existing := false;
        IDocumentDetails.value := {| IDocument.parent := None |} |},
     storage ++ [(tenantId, documentId)]).

(** A stand-in for [JSON.stringify]: the type and the number of traces of
    the operation, and the id of the client. *)
Definition stringify (message : IRawOperationMessage.t) : string :=
  let operation := IRawOperationMessage.operation message in
  (match IDocumentMessage.type operation with
   | ClientJoin => "join"
   | ClientLeave => "leave"
   | OtherType name => name
   end)
  +:+ ":" +:+
  pretty (length (default [] (IDocumentMessage.traces operation)))
  +:+ ":" +:+ default "null" (IRawOperationMessage.clientId message).

Definition clock (t : Z) : Clock.t := {| Clock.dateNow := t; Clock.now := t |}.

Definition op : IDocumentMessage.t :=
  {| IDocumentMessage.clientSequenceNumber := 1;
     IDocumentMessage.contents := IDocumentMessage.Content "insert";
     IDocumentMessage.referenceSequenceNumber := 0;
     IDocumentMessage.traces := Some [];
     IDocumentMessage.type := OtherType "op" |}.

Definition services : Services.t :=
  {| Services.sent := []; Services.joined := [] |}.

End ExampleOrderer.

(** ** Facts about the number model *)

Module JsNumberFacts.
Import JsNumber.

Lemma rne_one n : rne n 1 = n.
Proof.
  unfold rne. rewrite Z.mod_1_r, Z.div_1_r. reflexivity.
Qed.

Lemma rne_bounds n d :
  0 <= n -> 0 < d -> n / d <= rne n d /\ 2 * d * rne n d <= 2 * n + d.
Proof.
  intros Hn Hd. unfold rne.
  pose proof (Z.div_mod n d ltac:(lia)) as Hdm.
  pose proof (Z.mod_pos_bound n d Hd) as Hr.
  destruct (Z.ltb_spec (2 * (n mod d)) d).
  - split; [lia | nia].
  - destruct (Z.ltb_spec d (2 * (n mod d))).
    + split; [lia | nia].
    + destruct (Z.even (n / d)); split; try lia; nia.
Qed.

Lemma ilog2q_one n : 0 < n -> ilog2q n 1 = Z.log2 n.
Proof.
  intros Hn. unfold ilog2q. change (Z.log2 1) with 0. rewrite Z.sub_0_r.
  pose proof (Z.log2_nonneg n) as Hk.
  destruct (Z.leb_spec 0 (Z.log2 n)); [| lia].
  pose proof (Z.log2_spec n Hn) as [Hlo _].
  destruct (Z.leb_spec (1 * 2 ^ Z.log2 n) n); [reflexivity | lia].
Qed.

(** An integer of at most 53 bits is a [number]: rounding leaves it. *)
Lemma round53_exact z : Z.abs z < 2 ^ 53 -> round53 z = z.
Proof.
  intros Hz. unfold round53, round_q.
  destruct (Z.eqb_spec (Z.abs z) 0) as [H0 | H0].
  - simpl. lia.
  - assert (Hpos : 0 < Z.abs z) by lia.
    rewrite (ilog2q_one _ Hpos).
    assert (Hlog : Z.log2 (Z.abs z) < 53) by (apply Z.log2_lt_pow2; lia).
    set (e := Z.log2 (Z.abs z) - 52).
    assert (He : e <= 0) by lia.
    cbn [floor_me].
    destruct (Z.leb_spec 0 e).
    + replace e with 0 by lia. rewrite Z.mul_1_l, rne_one. lia.
    + rewrite rne_one, Z.div_mul by (apply Z.pow_nonzero; lia). lia.
Qed.

Lemma add_exact a b : Z.abs (a + b) < 2 ^ 53 -> add a b = a + b.
Proof. apply round53_exact. Qed.

Lemma sub_exact a b : Z.abs (a - b) < 2 ^ 53 -> sub a b = a - b.
Proof. apply round53_exact. Qed.

Lemma mul_exact a b : Z.abs (a * b) < 2 ^ 53 -> mul a b = a * b.
Proof. apply round53_exact. Qed.

(** Flooring the rounded quotient gives the integer quotient, as long as
    half a unit in the last place of the quotient stays below [1/d]. *)
Lemma floor_div_exact p d :
  0 <= p < 2 ^ 53 -> 0 < d -> Z.log2 d = 21 -> d < 2 ^ 22 ->
  floor_div p d = p / d.
Proof.
  intros [Hp0 Hp] Hd Hlogd Hdlt. unfold floor_div, round_q.
  destruct (Z.eqb_spec p 0) as [-> | Hne].
  - reflexivity.
  - assert (Hlogp : Z.log2 p < 53) by (apply Z.log2_lt_pow2; lia).
    assert (Hq : ilog2q p d <= 31).
    { unfold ilog2q. rewrite Hlogd.
      destruct (if 0 <=? Z.log2 p - 21 then _ else _); lia. }
    set (e := ilog2q p d - 52) in *.
    cbn [floor_me].
    destruct (Z.leb_spec 0 e); [lia |].
    set (s := - e).
    assert (Hs : 21 <= s) by (unfold s; lia).
    assert (HP : 2 ^ 21 <= 2 ^ s) by (apply Z.pow_le_mono_r; lia).
    set (P := 2 ^ s) in *.
    destruct (rne_bounds (p * P) d ltac:(nia) Hd) as [Hlo Hhi].
    pose proof (Z.div_mod p d ltac:(lia)) as Hdm.
    pose proof (Z.mod_pos_bound p d Hd) as Hr.
    assert (Hfloor : p / d * P <= p * P / d).
    { apply Z.div_le_lower_bound; [lia | nia]. }
    symmetry. apply Z.div_unique with (r := rne (p * P) d - (p / d) * P);
      [| lia].
    left. split; [lia |].
    assert (rne (p * P) d < (p / d + 1) * P); [| lia].
    destruct (Z.lt_ge_cases (rne (p * P) d) ((p / d + 1) * P)); [assumption |].
    exfalso. change (2 ^ 21) with 2097152 in HP. change (2 ^ 22) with 4194304 in Hdlt.
    assert (2 * d * ((p / d + 1) * P) <= 2 * (p * P) + d) by nia.
    nia.
Qed.

End JsNumberFacts.

(** ** Loops *)

Section WhileFacts.
Context {St : Type}.
Implicit Types (cond : St -> bool) (body : St -> St * Completion).

Lemma while_done fuel cond body s :
  cond s = false -> while fuel cond body s = (s, Normal).
Proof. intros Hc. destruct fuel; simpl; rewrite Hc; reflexivity. Qed.

Lemma while_step fuel cond body s s' :
  cond s = true -> body s = (s', Normal) ->
  while (S fuel) cond body s = while fuel cond body s'.
Proof. intros Hc Hb. simpl. rewrite Hc, Hb. reflexivity. Qed.

Lemma while_throw fuel cond body s s' msg :
  cond s = true -> body s = (s', Throw msg) ->
  while (S fuel) cond body s = (s', Throw msg).
Proof. intros Hc Hb. simpl. rewrite Hc, Hb. reflexivity. Qed.

End WhileFacts.

Section WhileResults.
Context {St : Type}.
Implicit Types (cond : St -> bool) (body : St -> St * Completion).

(** A loop that completes normally has left through its condition. *)
Lemma while_normal_cond cond body : forall fuel s s',
  while fuel cond body s = (s', Normal) -> cond s' = false.
Proof.
  induction fuel as [| fuel IH]; intros s s'; simpl.
  - destruct (cond s) eqn:Hc; [discriminate |]. congruence.
  - destruct (cond s) eqn:Hc; [| congruence].
    destruct (body s) as [s1 c]. destruct c; try discriminate. apply IH.
Qed.

End WhileResults.

(** ** The addressing scheme *)

Module AddressingFacts.
Import JsNumberFacts.

Lemma maxCols_eq : maxCols = 2097153.
Proof. reflexivity. Qed.

Lemma rowColToPosition_exact row col :
  0 <= row -> 0 <= col -> row * maxCols + col < 2 ^ 53 ->
  rowColToPosition row col = row * maxCols + col.
Proof.
  intros Hr Hc Hb. unfold rowColToPosition. rewrite maxCols_eq in *.
  rewrite mul_exact by lia. apply add_exact. lia.
Qed.

Lemma positionToRowCol_exact position :
  0 <= position < 2 ^ 53 ->
  positionToRowCol position = (position / maxCols, position mod maxCols).
Proof.
  intros Hp. unfold positionToRowCol. rewrite maxCols_eq.
  rewrite floor_div_exact by (try reflexivity; lia).
  pose proof (Z.div_mod position 2097153 ltac:(lia)) as Hdm.
  pose proof (Z.mod_pos_bound position 2097153 ltac:(lia)) as Hr.
  assert (0 <= position / 2097153) by (apply Z.div_pos; lia).
  rewrite mul_exact by lia. rewrite sub_exact by lia.
  f_equal. lia.
Qed.

(** C2, as amended: on every row and column whose position
    [row * maxCols + col] is below [2^53], which covers the columns below
    [maxCol] of every row below [2^32 - 2^11], [rowColToPosition row col] is
    [row * maxCols + col] and [positionToRowCol] takes it back to
    [(row, col)]. *)
Theorem rowCol_position_roundtrip row col :
  0 <= row -> 0 <= col < maxCol -> row * maxCols + col < 2 ^ 53 ->
  rowColToPosition row col = row * maxCols + col
  /\ positionToRowCol (rowColToPosition row col) = (row, col).
Proof.
  intros Hr Hc Hb.
  rewrite rowColToPosition_exact by lia. split; [reflexivity |].
  change maxCol with 2097152 in Hc.
  rewrite positionToRowCol_exact; rewrite maxCols_eq in *; [| lia]. f_equal.
  - symmetry. apply Z.div_unique with (r := col); lia.
  - symmetry. apply Z.mod_unique with (q := row); lia.
Qed.

Lemma rowCol_position_roundtrip_witness :
  rowColToPosition 4294965247 2097151 = 4294965247 * maxCols + 2097151
  /\ positionToRowCol (rowColToPosition 4294965247 2097151)
     = (4294965247, 2097151).
Proof.
  apply (rowCol_position_roundtrip 4294965247 2097151);
    rewrite ?maxCols_eq; unfold maxCol; lia.
Defined.

(** At the upper end of the rows the position is rounded: column [1] of
    row [2^32 - 2] comes back as column [2]. *)
Lemma rowCol_position_rounded :
  rowColToPosition 4294967294 1 = 4294967294 * maxCols + 2
  /\ positionToRowCol (rowColToPosition 4294967294 1) = (4294967294, 2).
Proof. vm_compute. split; reflexivity. Qed.

(** C2, as stated, fails: row [2^32 - 2] is below [maxRow] and column [1]
    below [maxCol], but their position needs 54 bits and is rounded to an
    even number, which [positionToRowCol] takes to column [2]. *)
Lemma rowCol_position_roundtrip_fails :
  ~ (forall row col, 0 <= row < maxRow -> 0 <= col < maxCol ->
       rowColToPosition row col = row * maxCols + col
       /\ positionToRowCol (rowColToPosition row col) = (row, col)).
Proof.
  intros Hall.
  destruct (Hall 4294967294 1) as [Hpos _]; [unfold maxRow | unfold maxCol |]; try lia.
  vm_compute in Hpos. discriminate Hpos.
Qed.

End AddressingFacts.

(** ** Reading an item, inserting and removing columns *)

Module SparseMatrixFacts.
Import JsNumberFacts AddressingFacts SparseMatrix.

Section WithClient.
Context `{MergeTreeClient}.

(** C8: when the position of [(row, col)] resolves to a segment and an
    offset, [getItem] returns the item of a run segment at that offset
    ([undefined] where the run has none), returns [undefined] and no error
    on a padding segment, and throws the unrecognized-segment error on any
    other kind of segment. *)
Theorem getItem_by_segment_kind (m : SparseMatrix.t) (row col offset : Z)
    (segment : MatrixSegment SparseMatrixItem SparseMatrixTag) :
  getContainingSegment (client m) (rowColToPosition row col)
    = Some (segment, offset) ->
  match segment with
  | RunSegment items _ =>
      0 <= offset ->
      getItem row col m
        = from_option Value Undefined (items !! Z.to_nat offset)
  | PaddingSegment _ => getItem row col m = Undefined
  | OtherSegment _ => getItem row col m = ReadError "Unrecognized Segment type"
  end.
Proof.
  intros Hseg. unfold getItem. rewrite Hseg.
  destruct segment as [items tags | n | ty]; try reflexivity.
  intros Hoff. unfold itemAt.
  destruct (Z.ltb_spec offset 0); [lia |].
  destruct (items !! Z.to_nat offset); reflexivity.
Qed.

Section ColumnMoves.

(** The contract of the client on lengths: removing a range inside the
    sequence shortens it by the length of the range, inserting a segment at
    a position of the sequence lengthens it by the length of the segment. *)
Hypothesis length_removeRangeLocal : forall c pos1 pos2,
  0 <= pos1 <= pos2 -> pos2 <= getLength c ->
  getLength (removeRangeLocal pos1 pos2 c) = getLength c - (pos2 - pos1).
Hypothesis length_insertSegmentLocal : forall c pos1 seg,
  0 <= pos1 <= getLength c ->
  getLength (insertSegmentLocal pos1 seg c) = getLength c + segmentLength seg.

Lemma numRows_exact (m : SparseMatrix.t) :
  0 <= getLength (client m) < 2 ^ 53 ->
  numRows m = getLength (client m) / maxCols.
Proof.
  intros HL. unfold numRows. rewrite positionToRowCol_exact by lia.
  reflexivity.
Qed.

Lemma moveRow_loop (src dest n L : Z) (sub : list (IMergeTreeGroupMsg _ _)) :
  0 <= src -> 0 <= dest -> 0 <= n ->
  src + n <= maxCol -> dest + n <= maxCol -> 0 <= L < 2 ^ 53 ->
  forall (k fuel : nat) c r0 ops0,
    (k <= fuel)%nat -> 0 <= r0 -> r0 + Z.of_nat k = L / maxCols ->
    getLength c = L ->
    while fuel (fun s => r s <? numRows (matrix s))
      (moveRow src (src + n) dest n)
      {| matrix := {| client := c; submitted := sub |};
         r := r0; rowStart := r0 * maxCols; ops := ops0 |}
    = ({| matrix :=
            {| client :=
                 foldl applyOp c
                   (flat_map (rowOps src dest n) (seqZ r0 (Z.of_nat k)));
               submitted := sub |};
          r := L / maxCols;
          rowStart := L / maxCols * maxCols;
          ops := ops0 ++ flat_map (rowOps src dest n) (seqZ r0 (Z.of_nat k)) |},
       Normal).
Proof.
  intros Hsrc Hdest Hn Hsn Hdn HL.
  assert (Hrows : L / maxCols * maxCols <= L).
  { rewrite Z.mul_comm. apply Z.mul_div_le. rewrite maxCols_eq. lia. }
  induction k as [| k IH]; intros fuel c r0 ops0 Hfuel Hr0 HR Hlen.
  - rewrite while_done.
    + simpl. rewrite app_nil_r. replace r0 with (L / maxCols) by lia.
      reflexivity.
    + cbn [r matrix]. rewrite numRows_exact by (cbn [client]; lia).
      cbn [client]. rewrite Hlen. apply Z.ltb_ge. lia.
  - destruct fuel as [| fuel]; [lia |].
    assert (Hrow : (r0 + 1) * maxCols <= L) by nia.
    change maxCol with 2097152 in *. rewrite maxCols_eq in *.
    erewrite while_step; cycle 1.
    + cbn [r matrix]. rewrite numRows_exact by (cbn [client]; lia).
      cbn [client]. rewrite Hlen, maxCols_eq. apply Z.ltb_lt. lia.
    + unfold moveRow. cbn [r matrix rowStart ops client submitted].
      rewrite maxCols_eq.
      rewrite !add_exact by lia. reflexivity.
    + replace (r0 * 2097153 + 2097153) with ((r0 + 1) * 2097153) by lia.
      rewrite IH; [| lia | lia | lia |].
      * assert (Hcons : flat_map (rowOps src dest n) (seqZ r0 (Z.of_nat (S k)))
                  = RemoveOp (r0 * 2097153 + src) (r0 * 2097153 + (src + n))
                    :: InsertOp (r0 * 2097153 + dest) (PaddingSegment n)
                    :: flat_map (rowOps src dest n) (seqZ (r0 + 1) (Z.of_nat k))).
        { rewrite (seqZ_cons r0 (Z.of_nat (S k))) by lia.
          replace (Z.pred (Z.of_nat (S k))) with (Z.of_nat k) by lia.
          replace (Z.succ r0) with (r0 + 1) by lia.
          cbn [flat_map]. unfold rowOps at 1. rewrite maxCols_eq.
          cbn [app]. rewrite <- Z.add_assoc. reflexivity. }
        rewrite Hcons. cbn [foldl applyOp]. rewrite <- !app_assoc.
        reflexivity.
      * rewrite length_insertSegmentLocal;
          rewrite length_removeRangeLocal; cbn [segmentLength]; lia.
Qed.

Lemma moveAsPadding_grouped (m : SparseMatrix.t) (src dest n : Z) (fuel : nat) :
  0 <= src -> 0 <= dest -> 0 <= n ->
  src + n <= maxCol -> dest + n <= maxCol ->
  0 <= getLength (client m) < 2 ^ 53 ->
  (Z.to_nat (numRows m) <= fuel)%nat ->
  let edits := flat_map (rowOps src dest n) (seqZ 0 (numRows m)) in
  moveAsPadding fuel src dest n m
  = ({| client := foldl applyOp (client m) edits;
        submitted := submitted m ++ [GroupOp edits] |}, Normal).
Proof.
  intros Hsrc Hdest Hn Hsn Hdn HL Hfuel edits. subst edits.
  rewrite numRows_exact in * by assumption.
  assert (0 <= getLength (client m) / maxCols).
  { apply Z.div_pos; [lia | rewrite maxCols_eq; lia]. }
  unfold moveAsPadding.
  rewrite add_exact by (change maxCol with 2097152 in *; lia).
  destruct m as [c sub]. cbn [client submitted] in *.
  pose proof (moveRow_loop src dest n (getLength c) sub Hsrc Hdest Hn Hsn Hdn HL
                (Z.to_nat (getLength c / maxCols)) fuel c 0 []) as Hloop.
  change (0 * maxCols) with 0 in Hloop.
  rewrite Hloop by (reflexivity || lia).
  rewrite Z2Nat.id by lia. reflexivity.
Qed.

(** C5: on a matrix of [numRows] rows, for columns [col] and a count [n]
    with [0 <= col], [0 < n] and [col + n <= maxCol], [insertCols col n]
    removes, row by
    row, the range [[rowStart + maxCol - n, rowStart + maxCol)] and then
    inserts a padding segment of length [n] at [rowStart + col], and
    [removeCols col n] removes [[rowStart + col, rowStart + col + n)] and
    then inserts [n] padding at [rowStart + maxCol - n], with
    [rowStart = row * maxCols]; either one submits the edits of all the rows
    as one group and nothing else. *)
Theorem insertCols_removeCols_grouped (m : SparseMatrix.t) (col n : Z)
    (fuel : nat) :
  0 <= col -> 0 < n -> col + n <= maxCol ->
  0 <= getLength (client m) < 2 ^ 53 ->
  (Z.to_nat (numRows m) <= fuel)%nat ->
  let inserting :=
    flat_map (fun row => let rowStart := row * maxCols in
      [RemoveOp (rowStart + maxCol - n) (rowStart + maxCol);
       InsertOp (rowStart + col) (PaddingSegment n)])
      (seqZ 0 (numRows m)) in
  let removing :=
    flat_map (fun row => let rowStart := row * maxCols in
      [RemoveOp (rowStart + col) (rowStart + col + n);
       InsertOp (rowStart + maxCol - n) (PaddingSegment n)])
      (seqZ 0 (numRows m)) in
  insertCols fuel col n m
    = ({| client := foldl applyOp (client m) inserting;
          submitted := submitted m ++ [GroupOp inserting] |}, Normal)
  /\ removeCols fuel col n m
    = ({| client := foldl applyOp (client m) removing;
          submitted := submitted m ++ [GroupOp removing] |}, Normal).
Proof.
  intros Hcol Hn Hcn HL Hfuel inserting removing.
  assert (Hsub : (maxCol - n)%js = maxCol - n).
  { apply sub_exact. change maxCol with 2097152 in *. lia. }
  split.
  - unfold insertCols. rewrite Hsub.
    rewrite moveAsPadding_grouped by lia.
    replace (flat_map (rowOps (maxCol - n) col n) (seqZ 0 (numRows m)))
      with inserting; [reflexivity |].
    apply flat_map_ext. intros row. unfold rowOps. cbv zeta.
    do 2 f_equal; lia.
  - unfold removeCols. rewrite Hsub.
    rewrite moveAsPadding_grouped by lia.
    replace (flat_map (rowOps col (maxCol - n) n) (seqZ 0 (numRows m)))
      with removing; [reflexivity |].
    apply flat_map_ext. intros row. unfold rowOps. cbv zeta.
    do 3 f_equal; lia.
Qed.

End ColumnMoves.
End WithClient.

#[local] Existing Instance UnwrittenMatrix.client.

Lemma getItem_by_segment_kind_witness :
  getItem (H := UnwrittenMatrix.client) 1 3 (UnwrittenMatrix.ofRows 2)
  = Undefined.
Proof.
  apply (getItem_by_segment_kind (H := UnwrittenMatrix.client)
           (UnwrittenMatrix.ofRows 2) 1 3 2097156
           (PaddingSegment 4194306)).
  reflexivity.
Defined.

Lemma insertCols_removeCols_grouped_witness :
  insertCols (H := UnwrittenMatrix.client) 2 2 3 (UnwrittenMatrix.ofRows 2)
  = ({| client := 4194306;
        submitted :=
          [GroupOp [RemoveOp 2097149 2097152; InsertOp 2 (PaddingSegment 3);
                    RemoveOp 4194302 4194305;
                    InsertOp 2097155 (PaddingSegment 3)]] |}, Normal)
  /\ removeCols (H := UnwrittenMatrix.client) 2 2 3 (UnwrittenMatrix.ofRows 2)
  = ({| client := 4194306;
        submitted :=
          [GroupOp [RemoveOp 2 5; InsertOp 2097149 (PaddingSegment 3);
                    RemoveOp 2097155 2097158;
                    InsertOp 4194302 (PaddingSegment 3)]] |}, Normal).
Proof.
  apply (insertCols_removeCols_grouped (H := UnwrittenMatrix.client)
           ltac:(intros; simpl; lia) ltac:(intros; simpl; lia)
           (UnwrittenMatrix.ofRows 2) 2 3 2).
  - lia.
  - lia.
  - unfold maxCol. lia.
  - vm_compute. split; [discriminate | reflexivity].
  - vm_compute. lia.
Defined.

End SparseMatrixFacts.

(** ** Tracking groups *)

Module TrackingGroupFacts.
Import TrackingGroup.

Implicit Types (h : list (list SegmentRef)) (segs : list SegmentRef).
Implicit Types (tg : GroupRef) (sg : SegmentRef).

Lemma segments_lookup h tg segs : h !! tg = Some segs -> segments h tg = segs.
Proof. unfold segments. intros ->. reflexivity. Qed.

Lemma segments_ge h tg : (length h <= tg)%nat -> segments h tg = [].
Proof. intros Hge. unfold segments. rewrite lookup_ge_None_2; done. Qed.

Lemma segments_cons_lt h tg sg segs :
  segments h tg = sg :: segs -> (tg < length h)%nat.
Proof.
  intros Hs. destruct (Nat.lt_ge_cases tg (length h)) as [| Hge]; [done |].
  rewrite (segments_ge _ _ Hge) in Hs. discriminate.
Qed.

Lemma segments_alter f h tg :
  f [] = [] -> segments (alter f tg h) tg = f (segments h tg).
Proof.
  intros Hf. unfold segments. rewrite list_lookup_alter_eq.
  destruct (_ !! _); simpl; congruence.
Qed.

Lemma segments_alter_lt f h tg :
  (tg < length h)%nat -> segments (alter f tg h) tg = f (segments h tg).
Proof.
  intros Hlt. unfold segments. rewrite list_lookup_alter_eq.
  destruct (lookup_lt_is_Some_2 h tg Hlt) as [segs Hsegs].
  destruct (_ !! _); [reflexivity | discriminate].
Qed.

Lemma segments_alter_ne f h tg tg' :
  tg <> tg' -> segments (alter f tg h) tg' = segments h tg'.
Proof. intros Hne. unfold segments. rewrite list_lookup_alter_ne; done. Qed.

Lemma segments_fmap f h tg :
  f [] = [] -> segments (f <$> h) tg = f (segments h tg).
Proof.
  intros Hf. unfold segments. rewrite list_lookup_fmap.
  destruct (_ !! _); simpl; congruence.
Qed.

Lemma segments_unlink h tg sg :
  segments (unlink tg sg h) tg = unlink_in sg (segments h tg).
Proof. apply segments_alter. reflexivity. Qed.

Lemma segments_unlink_ne h tg tg' sg :
  tg <> tg' -> segments (unlink tg sg h) tg' = segments h tg'.
Proof. apply segments_alter_ne. Qed.

Lemma segments_relink h tg sg new :
  segments (relink sg new h) tg = relink_in sg new (segments h tg).
Proof.
  apply segments_fmap. unfold relink_in.
  destruct (decide (sg ∈ [])) as [Hin |]; [| reflexivity].
  by apply not_elem_of_nil in Hin.
Qed.

Lemma unlink_in_head sg segs : unlink_in sg (sg :: segs) = segs.
Proof. simpl. destruct (decide (sg = sg)); congruence. Qed.

Lemma unlink_in_length sg segs :
  (length (unlink_in sg segs) <= length segs)%nat.
Proof.
  induction segs as [| s segs IH]; simpl; [lia |].
  destruct (decide (s = sg)); simpl; lia.
Qed.

Lemma unlink_in_length_elem sg segs :
  sg ∈ segs -> S (length (unlink_in sg segs)) = length segs.
Proof.
  induction segs as [| s segs IH]; simpl; intros Hin.
  - by apply not_elem_of_nil in Hin.
  - destruct (decide (s = sg)) as [| Hne]; [reflexivity |].
    simpl. rewrite IH; [reflexivity |].
    apply elem_of_cons in Hin as [-> |]; [congruence | assumption].
Qed.

Lemma unlink_in_subseteq sg segs x : x ∈ unlink_in sg segs -> x ∈ segs.
Proof.
  induction segs as [| s segs IH]; simpl; [done |].
  destruct (decide (s = sg)).
  - intros Hx. by apply elem_of_cons; right.
  - intros [-> | Hx]%elem_of_cons; apply elem_of_cons; auto.
Qed.

Lemma unlink_in_other sg segs x : x <> sg -> x ∈ segs -> x ∈ unlink_in sg segs.
Proof.
  intros Hne. induction segs as [| s segs IH]; simpl; [done |].
  intros [-> | Hx]%elem_of_cons.
  - destruct (decide (s = sg)); [congruence |]. by apply elem_of_cons; left.
  - destruct (decide (s = sg)); [assumption |].
    apply elem_of_cons; right. auto.
Qed.

Lemma unlink_in_NoDup sg segs : NoDup segs -> NoDup (unlink_in sg segs).
Proof.
  induction 1 as [| s segs Hs Hnd IH]; simpl; [constructor |].
  destruct (decide (s = sg)); [assumption |].
  constructor; [| assumption].
  intros Hin. apply Hs. by eapply unlink_in_subseteq.
Qed.

Lemma unlink_in_gone sg segs : NoDup segs -> sg ∉ unlink_in sg segs.
Proof.
  induction 1 as [| s segs Hs Hnd IH]; simpl.
  - apply not_elem_of_nil.
  - destruct (decide (s = sg)) as [-> | Hne]; [assumption |].
    intros [-> | Hin]%elem_of_cons; [congruence | contradiction].
Qed.

Lemma link_in_elem sg segs x : x ∈ link_in sg segs <-> x ∈ segs \/ x = sg.
Proof.
  unfold link_in. destruct (decide (sg ∈ segs)) as [Hin | Hout].
  - split; [auto |]. intros [| ->]; assumption.
  - rewrite elem_of_app, list_elem_of_singleton. reflexivity.
Qed.

Lemma link_in_length sg segs :
  (length (link_in sg segs) <= S (length segs))%nat.
Proof.
  unfold link_in. destruct (decide (sg ∈ segs)); [lia |].
  rewrite length_app. simpl. lia.
Qed.

Lemma link_in_NoDup sg segs : NoDup segs -> NoDup (link_in sg segs).
Proof.
  intros Hnd. unfold link_in. destruct (decide (sg ∈ segs)); [assumption |].
  apply NoDup_app. split; [assumption |]. split.
  - intros x Hx ->%list_elem_of_singleton. contradiction.
  - apply NoDup_singleton.
Qed.

Lemma link_all_elem sgs segs x :
  x ∈ link_all segs sgs <-> x ∈ segs \/ x ∈ sgs.
Proof.
  unfold link_all. revert segs.
  induction sgs as [| sg sgs IH]; intros segs; simpl.
  - split; [auto |]. intros [| Hin]; [assumption |].
    by apply not_elem_of_nil in Hin.
  - rewrite IH, link_in_elem, elem_of_cons. tauto.
Qed.

Lemma link_all_NoDup sgs segs : NoDup segs -> NoDup (link_all segs sgs).
Proof.
  unfold link_all. revert segs.
  induction sgs as [| sg sgs IH]; intros segs Hnd; simpl; [assumption |].
  apply IH, link_in_NoDup, Hnd.
Qed.

Lemma relink_in_length sg new segs :
  (length (relink_in sg new segs) <= length segs)%nat.
Proof.
  unfold relink_in. destruct (decide (sg ∈ segs)) as [Hin |]; [| lia].
  assert (Hin' : sg ∈ link_in new segs) by (apply link_in_elem; auto).
  pose proof (unlink_in_length_elem _ _ Hin').
  pose proof (link_in_length new segs). lia.
Qed.

Lemma size_unlink_le h tg sg tg' : (size (unlink tg sg h) tg' <= size h tg')%nat.
Proof.
  unfold size. destruct (decide (tg = tg')) as [<- | Hne].
  - rewrite segments_unlink. apply unlink_in_length.
  - rewrite segments_unlink_ne by done. lia.
Qed.

Lemma size_relink_le h sg new tg : (size (relink sg new h) tg <= size h tg)%nat.
Proof. unfold size. rewrite segments_relink. apply relink_in_length. Qed.

(** Unlinking the first segment of a group takes exactly that one segment
    out of it. *)
Lemma segments_unlink_head h tg sg segs :
  segments h tg = sg :: segs -> segments (unlink tg sg h) tg = segs.
Proof. intros Hs. rewrite segments_unlink, Hs. apply unlink_in_head. Qed.

Lemma insert_alter_eq {A} (f : A -> A) (l : list A) i x :
  <[i:=x]> (alter f i l) = <[i:=x]> l.
Proof.
  rewrite !list_insert_alter, list_alter_alter_eq. reflexivity.
Qed.

Lemma relink_in_elem sg new segs x :
  x ∈ relink_in sg new segs -> x ∈ segs \/ x = new.
Proof.
  unfold relink_in. destruct (decide (sg ∈ segs)); [| auto].
  intros Hx%unlink_in_subseteq. by apply link_in_elem.
Qed.

Lemma relink_in_NoDup sg new segs : NoDup segs -> NoDup (relink_in sg new segs).
Proof.
  intros Hnd. unfold relink_in. destruct (decide (sg ∈ segs)); [| assumption].
  by apply unlink_in_NoDup, link_in_NoDup.
Qed.

(** After the segment at the head of a group has been unlinked from it and
    the other groups of the segment have been moved to a new segment, the
    group holds the segments that followed the head. *)
Lemma segments_relink_unlink_head h tg sg new rest :
  segments h tg = sg :: rest -> sg ∉ rest ->
  segments (relink sg new (unlink tg sg h)) tg = rest.
Proof.
  intros Hs Hout. rewrite segments_relink, (segments_unlink_head _ _ _ _ Hs).
  unfold relink_in. destruct (decide (sg ∈ rest)); [contradiction | done].
Qed.

Lemma segments_relink_unlink_ne h tg tg' sg new :
  tg <> tg' ->
  segments (relink sg new (unlink tg sg h)) tg'
  = relink_in sg new (segments h tg').
Proof.
  intros Hne. rewrite segments_relink, segments_unlink_ne by done. reflexivity.
Qed.

(** *** No operation links a segment twice *)

Lemma wf_new h : wf h -> wf (fst (new h)).
Proof.
  intros Hwf. unfold wf, new. cbn [fst]. apply Forall_app. split; [done |].
  apply Forall_singleton, NoDup_nil_2.
Qed.

Lemma wf_link h tg sg : wf h -> wf (link tg sg h).
Proof.
  intros Hwf. apply Forall_alter; [done |]. intros segs _. apply link_in_NoDup.
Qed.

Lemma wf_unlink h tg sg : wf h -> wf (unlink tg sg h).
Proof.
  intros Hwf. apply Forall_alter; [done |]. intros segs _. apply unlink_in_NoDup.
Qed.

Lemma wf_relink h sg new : wf h -> wf (relink sg new h).
Proof.
  intros Hwf. unfold wf, relink. apply Forall_fmap.
  eapply Forall_impl; [exact Hwf |]. intros segs. apply relink_in_NoDup.
Qed.

End TrackingGroupFacts.

(** ** Recording: [add] *)

Module AddFacts.
Import TrackingGroup TrackingGroupFacts Revertable.

Section WithSequence.
Context `{SharedSegmentSequence}.

Implicit Types (h : list (list nat)) (r : Revertable.t).
Implicit Types (tr : list ITrackedSharedSegmentSequenceRevertable).
Implicit Types (cur : ITrackedSharedSegmentSequenceRevertable).
Implicit Types (x y : ISequenceDeltaRange) (xs : list ISequenceDeltaRange).
Implicit Types (ev : SequenceDeltaEvent) (evs : list SequenceDeltaEvent).

Lemma setTracking_same r : setTracking (tracking r) r = r.
Proof. destruct r. reflexivity. Qed.

Lemma link_new h sg : link (length h) sg (h ++ [[]]) = h ++ [[sg]].
Proof.
  unfold link. rewrite <- (Nat.add_0_r (length h)), alter_app_r.
  reflexivity.
Qed.

Lemma startGroup_eq op h tr current x :
  startGroup op (h, tr, current) x
  = (h ++ [[segment x]],
     tr ++ [{| trackingGroup := length h;
               propertyDelta := propertyDeltas x; operation := op |}],
     Some {| trackingGroup := length h;
             propertyDelta := propertyDeltas x; operation := op |}).
Proof. unfold startGroup, new. rewrite link_new. reflexivity. Qed.

Lemma addRange_coalesce op h tr cur x :
  operation cur = op ->
  matchProperties (propertyDelta cur) (propertyDeltas x) = true ->
  addRange op (h, tr, Some cur) x
  = (link (trackingGroup cur) (segment x) h, tr, Some cur).
Proof.
  intros Hop Hm. unfold addRange.
  rewrite bool_decide_eq_true_2 by assumption. rewrite Hm. reflexivity.
Qed.

Lemma addRange_start op h tr current x :
  match current with
  | Some t =>
      operation t <> op
      \/ matchProperties (propertyDelta t) (propertyDeltas x) = false
  | None => True
  end ->
  addRange op (h, tr, current) x = startGroup op (h, tr, current) x.
Proof.
  intros Hno. unfold addRange. destruct current as [t |]; [| reflexivity].
  destruct Hno as [Hop | Hm].
  - rewrite bool_decide_eq_false_2 by assumption. reflexivity.
  - rewrite Hm, andb_false_r. reflexivity.
Qed.

(** Ranges that match the current entry are all linked into its group: the
    entries stay as they are. *)
Lemma foldl_addRange_coalesce op cur tr xs : forall h,
  operation cur = op ->
  Forall (fun y => matchProperties (propertyDelta cur) (propertyDeltas y) = true)
    xs ->
  foldl (addRange op) (h, tr, Some cur) xs
  = (alter (fun l => link_all l (segment <$> xs)) (trackingGroup cur) h,
     tr, Some cur).
Proof.
  induction xs as [| x xs IH]; intros h Hop Hall.
  - simpl. rewrite list_alter_id; reflexivity.
  - apply Forall_cons in Hall as [Hx Hxs].
    cbn [foldl]. rewrite addRange_coalesce by assumption.
    rewrite IH by assumption. unfold link.
    rewrite list_alter_alter_eq. reflexivity.
Qed.

Lemma add_coalesce cur ev h r :
  last (tracking r) = Some cur ->
  operation cur = deltaOperation ev ->
  Forall (fun y => matchProperties (propertyDelta cur) (propertyDeltas y) = true)
    (ranges ev) ->
  add ev (h, r)
  = (alter (fun l => link_all l (segment <$> ranges ev)) (trackingGroup cur) h,
     r).
Proof.
  intros Hlast Hop Hall. unfold add.
  destruct (ranges ev) as [| x xs] eqn:Hr.
  - simpl. rewrite list_alter_id; reflexivity.
  - cbn [length Nat.ltb Nat.leb]. rewrite Hlast.
    rewrite foldl_addRange_coalesce by assumption.
    rewrite setTracking_same. reflexivity.
Qed.

(** The same over several calls of [add], one after the other. *)
Lemma adds_coalesce cur op evs : forall h r,
  last (tracking r) = Some cur ->
  operation cur = op ->
  Forall (fun ev => deltaOperation ev = op) evs ->
  Forall (fun y => matchProperties (propertyDelta cur) (propertyDeltas y) = true)
    (concat (ranges <$> evs)) ->
  foldl (fun s ev => add ev s) (h, r) evs
  = (alter (fun l => link_all l (segment <$> concat (ranges <$> evs)))
       (trackingGroup cur) h, r).
Proof.
  induction evs as [| ev evs IH]; intros h r Hlast Hop Hops Hall.
  - simpl. rewrite list_alter_id; reflexivity.
  - apply Forall_cons in Hops as [Hev Hevs].
    rewrite fmap_cons in Hall. cbn [concat] in Hall.
    apply Forall_app in Hall as [Hx Hxs].
    cbn [foldl]. rewrite (add_coalesce cur) by congruence.
    rewrite IH by assumption.
    rewrite list_alter_alter_eq. f_equal.
    apply list_alter_ext; [| reflexivity].
    intros l _. cbn. rewrite fmap_app. unfold link_all.
    rewrite foldl_app. reflexivity.
Qed.

(** Recording keeps the groups free of duplicates. *)
Lemma addRange_wf op h tr current x :
  wf h -> wf (fst (fst (addRange op (h, tr, current) x))).
Proof.
  intros Hwf. unfold addRange.
  assert (Hstart : wf (fst (fst (startGroup op (h, tr, current) x)))).
  { rewrite startGroup_eq. cbn [fst]. apply Forall_app. split; [done |].
    apply Forall_singleton, NoDup_singleton. }
  destruct current as [cur |]; [| exact Hstart].
  destruct (bool_decide (operation cur = op)
            && matchProperties (propertyDelta cur) (propertyDeltas x));
    [| exact Hstart].
  cbn [fst]. by apply wf_link.
Qed.

(** C3: when the first range [x] of an event does not match the tail entry
    of the revertable (or there is none), recording that event and then the
    events [evs], all of the same operation kind and all of whose ranges
    carry a property delta that matches the one of [x], appends exactly one
    entry, which is the new tail; its tracking group is a new one and links
    the segments of all the ranges, and no other group changes. *)
Theorem add_coalesces_ranges h r ev evs x xs :
  ranges ev = x :: xs ->
  match last (tracking r) with
  | Some t =>
      operation t <> deltaOperation ev
      \/ matchProperties (propertyDelta t) (propertyDeltas x) = false
  | None => True
  end ->
  Forall (fun ev' => deltaOperation ev' = deltaOperation ev) evs ->
  Forall (fun y => matchProperties (propertyDeltas x) (propertyDeltas y) = true)
    (xs ++ concat (ranges <$> evs)) ->
  let recorded := x :: xs ++ concat (ranges <$> evs) in
  let entry := {| trackingGroup := length h;
                  propertyDelta := propertyDeltas x;
                  operation := deltaOperation ev |} in
  let linked := link_all [] (segment <$> recorded) in
  foldl (fun s ev' => add ev' s) (h, r) (ev :: evs)
  = (h ++ [linked], setTracking (tracking r ++ [entry]) r)
  /\ last (tracking r ++ [entry]) = Some entry
  /\ length (tracking r ++ [entry]) = S (length (tracking r))
  /\ (forall y, y ∈ recorded -> segment y ∈ linked)
  /\ NoDup linked.
Proof.
  intros Hr Hno Hops Hall recorded entry linked.
  apply Forall_app in Hall as [Hxs Hrest].
  split; [| split; [| split; [| split]]].
  - cbn [foldl]. unfold add at 2. rewrite Hr.
    cbn [length Nat.ltb Nat.leb foldl].
    rewrite addRange_start by assumption. rewrite startGroup_eq.
    fold entry. rewrite (foldl_addRange_coalesce _ entry) by done.
    cbn [trackingGroup].
    rewrite (adds_coalesce entry (deltaOperation ev)); try done.
    + rewrite list_alter_alter_eq. f_equal.
      change (trackingGroup entry) with (length h).
      rewrite <- (Nat.add_0_r (length h)), alter_app_r. cbn.
      do 2 f_equal. subst linked recorded. unfold link_all.
      rewrite fmap_app, foldl_app. reflexivity.
    + cbn. apply last_snoc.
  - apply last_snoc.
  - rewrite length_app. simpl. lia.
  - intros y Hy. apply link_all_elem. right.
    apply list_elem_of_fmap. eauto.
  - apply link_all_NoDup, NoDup_nil_2.
Qed.

End WithSequence.

#[local] Existing Instance ExampleSequence.engine.

Lemma add_coalesces_ranges_witness :
  foldl (fun s ev' => add ev' s)
    ([], {| target := 0%nat; tracking := [] |})
    [ {| isLocal := true; deltaOperation := INSERT;
         ranges := [ {| segment := 0%nat; propertyDeltas := [] |};
                     {| segment := 2%nat; propertyDeltas := [] |} ] |};
      {| isLocal := true; deltaOperation := INSERT;
         ranges := [ {| segment := 1%nat; propertyDeltas := [] |} ] |} ]
  = ([[0; 2; 1]%nat],
     {| target := 0%nat;
        tracking := [ {| trackingGroup := 0%nat; propertyDelta := [];
                         operation := INSERT |} ] |}).
Proof.
  refine (proj1 (add_coalesces_ranges [] {| target := 0%nat; tracking := [] |}
                   {| isLocal := true; deltaOperation := INSERT;
                      ranges := [ {| segment := 0%nat; propertyDeltas := [] |};
                                  {| segment := 2%nat; propertyDeltas := [] |} ] |}
                   [ {| isLocal := true; deltaOperation := INSERT;
                        ranges := [ {| segment := 1%nat; propertyDeltas := [] |} ] |} ]
                   {| segment := 0%nat; propertyDeltas := [] |}
                   [ {| segment := 2%nat; propertyDeltas := [] |} ]
                   eq_refl I _ _)).
  - repeat constructor.
  - repeat constructor.
Defined.

End AddFacts.

(** ** Reverting and discarding *)

Module RevertFacts.
Import TrackingGroup TrackingGroupFacts Revertable.

Section WithSequence.
Context `{SharedSegmentSequence}.

Implicit Types (w : World) (r : Revertable.t).
Implicit Types (tracked : ITrackedSharedSegmentSequenceRevertable).
Implicit Types (trs : list ITrackedSharedSegmentSequenceRevertable).

Lemma setGroups_same w : setGroups (groups w) w = w.
Proof. destruct w. reflexivity. Qed.

Lemma setTracking_same' r : setTracking (tracking r) r = r.
Proof. destruct r. reflexivity. Qed.

Lemma pop_snoc trs tracked : pop (trs ++ [tracked]) = Some (trs, tracked).
Proof. unfold pop. rewrite last_snoc, removelast_last. reflexivity. Qed.

Lemma hasTracking_snoc w r trs tracked :
  tracking r = trs ++ [tracked] -> hasTracking (w, r) = true.
Proof.
  intros Htr. unfold hasTracking. cbn [snd]. rewrite Htr, length_app.
  simpl. apply Nat.ltb_lt. lia.
Qed.

Lemma hasTracking_false w r : hasTracking (w, r) = false -> tracking r = [].
Proof.
  unfold hasTracking. cbn [snd]. intros Hlen%Nat.ltb_ge.
  destruct (tracking r); [reflexivity | simpl in Hlen; lia].
Qed.

Lemma groupNotEmpty_cons tracked w sg rest :
  segments (groups w) (trackingGroup tracked) = sg :: rest ->
  groupNotEmpty tracked w = true.
Proof.
  intros Hs. unfold groupNotEmpty, size. rewrite Hs. reflexivity.
Qed.

Lemma groupNotEmpty_nil tracked w :
  segments (groups w) (trackingGroup tracked) = [] ->
  groupNotEmpty tracked w = false.
Proof.
  intros Hs. unfold groupNotEmpty, size. rewrite Hs. reflexivity.
Qed.

Lemma wf_segments (h : list (list nat)) tg : wf h -> NoDup (segments h tg).
Proof.
  intros Hwf. unfold segments. destruct (h !! tg) as [segs |] eqn:Hl; simpl.
  - eapply Forall_lookup_1; eassumption.
  - apply NoDup_nil_2.
Qed.

Lemma allocated_segments w tg sg :
  allocated w -> sg ∈ segments (groups w) tg -> (sg < nextSegment w)%nat.
Proof.
  intros Hall. unfold segments.
  destruct (groups w !! tg) as [segs |] eqn:Hl; simpl.
  - intros Hin. eapply Forall_lookup_1 in Hall; [| eassumption].
    eapply Forall_forall in Hall; eassumption.
  - intros Hin. by apply not_elem_of_nil in Hin.
Qed.

(** *** Reverting a remove *)

Lemma revertSegment_remove tracked w sg rest content :
  operation tracked = REMOVE ->
  segments (groups w) (trackingGroup tracked) = sg :: rest ->
  segmentFromSpec (toJSONObject (sequence w) sg) = Some content ->
  revertSegment tracked w
  = ({| groups :=
          relink sg (nextSegment w)
            (unlink (trackingGroup tracked) sg (groups w));
        nextSegment := S (nextSegment w);
        sequence :=
          insertAtReferencePosition (createPositionReference sg 0 Transient)
            (nextSegment w) content (sequence w);
        calls :=
          calls w ++ [InsertAtReferencePosition
                        (createPositionReference sg 0 Transient)
                        (nextSegment w) content] |}, Normal).
Proof.
  intros Hop Hs Hspec. unfold revertSegment. rewrite Hs, Hop.
  cbn [sequence setGroups]. rewrite Hspec. reflexivity.
Qed.

(** C4: reverting one segment [sg] of a remove entry rebuilds a segment from
    the serialized form of [sg], inserts it at a transient position
    reference anchored at [sg], and leaves every tracking group that was
    still linked to [sg] linked to the inserted segment and no longer to
    [sg]; the groups not linked to [sg] stay as they are. *)
Theorem revert_remove_reinserts_and_relinks tracked w sg rest content :
  operation tracked = REMOVE ->
  segments (groups w) (trackingGroup tracked) = sg :: rest ->
  segmentFromSpec (toJSONObject (sequence w) sg) = Some content ->
  wf (groups w) -> allocated w ->
  let insertSegment := nextSegment w in
  let pos := createPositionReference sg 0 Transient in
  exists w',
    revertSegment tracked w = (w', Normal)
    /\ calls w' = calls w ++ [InsertAtReferencePosition pos insertSegment content]
    /\ sequence w'
       = insertAtReferencePosition pos insertSegment content (sequence w)
    /\ segments (groups w') (trackingGroup tracked) = rest
    /\ (forall tg, tg <> trackingGroup tracked ->
          sg ∈ segments (groups w) tg ->
          (insertSegment ∈ segments (groups w') tg)
          /\ (sg ∉ segments (groups w') tg)
          /\ (forall x, x <> sg -> x ∈ segments (groups w) tg ->
                x ∈ segments (groups w') tg))
    /\ (forall tg, sg ∉ segments (groups w') tg)
    /\ (forall tg, sg ∉ segments (groups w) tg ->
          segments (groups w') tg = segments (groups w) tg).
Proof.
  intros Hop Hs Hspec Hwf Hall insertSegment pos. subst insertSegment pos.
  eexists. split; [apply (revertSegment_remove _ _ _ _ _ Hop Hs Hspec) |].
  cbn [calls sequence groups].
  assert (Hnd : NoDup (sg :: rest)) by (rewrite <- Hs; by apply wf_segments).
  apply NoDup_cons in Hnd as [Hsg Hrest].
  pose proof (segments_relink_unlink_head _ _ _ (nextSegment w) _ Hs Hsg)
    as Hdrained.
  assert (Hlinked : forall tg, tg <> trackingGroup tracked ->
    segments (relink sg (nextSegment w)
                (unlink (trackingGroup tracked) sg (groups w))) tg
    = relink_in sg (nextSegment w) (segments (groups w) tg)).
  { intros tg Hne. by apply segments_relink_unlink_ne. }
  split; [reflexivity |]. split; [reflexivity |]. split; [exact Hdrained |].
  split; [| split].
  - intros tg Hne Hin. rewrite (Hlinked tg Hne). unfold relink_in.
    destruct (decide (sg ∈ segments (groups w) tg)); [| contradiction].
    assert (Hfresh : nextSegment w <> sg).
    { pose proof (allocated_segments _ _ _ Hall Hin). lia. }
    split; [| split].
    + apply unlink_in_other; [assumption |]. apply link_in_elem. auto.
    + apply unlink_in_gone, link_in_NoDup. by apply wf_segments.
    + intros x Hx Hxin. apply unlink_in_other; [assumption |].
      apply link_in_elem. auto.
  - intros tg. destruct (decide (tg = trackingGroup tracked)) as [-> | Hne].
    + rewrite Hdrained. assumption.
    + rewrite (Hlinked tg Hne). unfold relink_in.
      destruct (decide (sg ∈ segments (groups w) tg)); [| assumption].
      apply unlink_in_gone, link_in_NoDup. by apply wf_segments.
  - intros tg Hout.
    destruct (decide (tg = trackingGroup tracked)) as [-> | Hne].
    + rewrite Hs in Hout. exfalso. apply Hout. by apply elem_of_cons; left.
    + rewrite (Hlinked tg Hne). unfold relink_in.
      destruct (decide (sg ∈ segments (groups w) tg)); [contradiction | done].
Qed.

(** *** What one iteration does to the sizes of the groups *)

Lemma revertSegment_sizes tracked w w' c :
  revertSegment tracked w = (w', c) ->
  c <> OutOfFuel
  /\ (forall tg, (size (groups w') tg <= size (groups w) tg)%nat)
  /\ (c = Normal ->
      (size (groups w') (trackingGroup tracked)
       < size (groups w) (trackingGroup tracked))%nat).
Proof.
  unfold revertSegment.
  destruct (segments (groups w) (trackingGroup tracked)) as [| sg rest] eqn:Hs.
  { intros [= <- <-]. repeat split; [discriminate | lia | discriminate]. }
  assert (Hlt : (size (unlink (trackingGroup tracked) sg (groups w))
                   (trackingGroup tracked)
                 < size (groups w) (trackingGroup tracked))%nat).
  { unfold size. rewrite (segments_unlink_head _ _ _ _ Hs), Hs. simpl. lia. }
  pose proof (size_unlink_le (groups w) (trackingGroup tracked) sg) as Hle.
  cbn [sequence setGroups].
  destruct (operation tracked).
  - destruct (removedSeq (sequence w) sg); intros [= <- <-]; cbn [groups];
      repeat split; try discriminate; auto.
  - destruct (segmentFromSpec (toJSONObject (sequence w) sg)) as [content |];
      intros [= <- <-]; cbn [groups]; repeat split; try discriminate; auto.
    + intros tg. etransitivity; [apply size_relink_le | apply Hle].
    + intros _. eapply Nat.le_lt_trans; [apply size_relink_le | apply Hlt].
  - destruct (removedSeq (sequence w) sg); intros [= <- <-]; cbn [groups];
      repeat split; try discriminate; auto.
  - intros [= <- <-]; cbn [groups]; repeat split; try discriminate; auto.
Qed.

Lemma disgardSegment_cons tracked w sg rest :
  segments (groups w) (trackingGroup tracked) = sg :: rest ->
  disgardSegment tracked w
  = (setGroups (unlink (trackingGroup tracked) sg (groups w)) w, Normal).
Proof. intros Hs. unfold disgardSegment. rewrite Hs. reflexivity. Qed.

(** *** The inner loops *)

Lemma revert_group_terminates tracked : forall fuel w,
  (size (groups w) (trackingGroup tracked) <= fuel)%nat ->
  exists w' c,
    while fuel (groupNotEmpty tracked) (revertSegment tracked) w = (w', c)
    /\ c <> OutOfFuel
    /\ forall tg, (size (groups w') tg <= size (groups w) tg)%nat.
Proof.
  induction fuel as [| fuel IH]; intros w Hsize.
  - exists w, Normal. rewrite while_done; [repeat split; [discriminate | lia] |].
    unfold groupNotEmpty. apply Nat.ltb_ge. lia.
  - destruct (groupNotEmpty tracked w) eqn:Hc.
    + destruct (revertSegment tracked w) as [w1 c1] eqn:Hbody.
      destruct (revertSegment_sizes _ _ _ _ Hbody) as (Hc1 & Hle & Hlt).
      destruct c1 as [| msg |]; [| | congruence].
      * specialize (Hlt eq_refl).
        destruct (IH w1 ltac:(lia)) as (w' & c & Hloop & Hcne & Hle').
        exists w', c. rewrite (while_step _ _ _ _ _ Hc Hbody).
        repeat split; [assumption | assumption |].
        intros tg. etransitivity; [apply Hle' | apply Hle].
      * exists w1, (Throw msg). rewrite (while_throw _ _ _ _ _ _ Hc Hbody).
        repeat split; [discriminate | assumption].
    + exists w, Normal. rewrite while_done by assumption.
      repeat split; [discriminate | lia].
Qed.

Lemma insert_nil_segments_nil (h : list (list nat)) tg :
  segments h tg = [] -> <[tg := []]> h = h.
Proof.
  unfold segments. intros Hs. destruct (h !! tg) as [segs |] eqn:Hl.
  - simpl in Hs. subst segs. by apply list_insert_id.
  - apply list_insert_ge. by apply lookup_ge_None.
Qed.

(** Discarding a group unlinks its segments one by one until none is left. *)
Lemma disgard_group tracked : forall fuel w,
  (size (groups w) (trackingGroup tracked) <= fuel)%nat ->
  while fuel (groupNotEmpty tracked) (disgardSegment tracked) w
  = (setGroups (<[trackingGroup tracked := []]> (groups w)) w, Normal).
Proof.
  induction fuel as [| fuel IH]; intros w Hsize;
    destruct (segments (groups w) (trackingGroup tracked)) as [| sg rest] eqn:Hs.
  - rewrite while_done by (by apply groupNotEmpty_nil).
    rewrite insert_nil_segments_nil, setGroups_same; done.
  - unfold size in Hsize. rewrite Hs in Hsize. simpl in Hsize. lia.
  - rewrite while_done by (by apply groupNotEmpty_nil).
    rewrite insert_nil_segments_nil, setGroups_same; done.
  - rewrite (while_step _ _ _ _ _ (groupNotEmpty_cons _ _ _ _ Hs)
               (disgardSegment_cons _ _ _ _ Hs)).
    rewrite IH.
    + cbn [setGroups groups nextSegment sequence calls]. unfold unlink.
      rewrite insert_alter_eq. reflexivity.
    + cbn [setGroups groups]. unfold size in *.
      rewrite (segments_unlink_head _ _ _ _ Hs). rewrite Hs in Hsize.
      simpl in Hsize. lia.
Qed.

Lemma size_insert_nil_le (h : list (list nat)) tg tg' :
  (size (<[tg := []]> h) tg' <= size h tg')%nat.
Proof.
  unfold size, segments. destruct (decide (tg = tg')) as [<- | Hne].
  - destruct (Nat.lt_ge_cases tg (length h)).
    + rewrite list_lookup_insert_eq by assumption. simpl. lia.
    + rewrite list_insert_ge by assumption. lia.
  - rewrite list_lookup_insert_ne by assumption. lia.
Qed.

(** *** The outer loops *)

Lemma revert_entries_terminate fuel : forall trs fuel' w r,
  tracking r = trs ->
  (length trs <= fuel')%nat ->
  Forall (fun e => (size (groups w) (trackingGroup e) <= fuel)%nat) trs ->
  snd (while fuel' hasTracking (revertEntry fuel) (w, r)) <> OutOfFuel.
Proof.
  induction trs as [| tracked trs IH] using rev_ind; intros fuel' w r Htr Hlen Hsz.
  - rewrite while_done; [discriminate |].
    unfold hasTracking. cbn [snd]. rewrite Htr. reflexivity.
  - rewrite length_app in Hlen. simpl in Hlen.
    destruct fuel' as [| fuel']; [lia |].
    apply Forall_app in Hsz as [Hsz Ht].
    apply Forall_inv in Ht.
    destruct (revert_group_terminates tracked fuel w Ht)
      as (w' & c & Hloop & Hc & Hle).
    assert (Hbody : revertEntry fuel (w, r) = ((w', setTracking trs r), c)).
    { unfold revertEntry. rewrite Htr, pop_snoc, Hloop. reflexivity. }
    destruct c as [| msg |]; [| | congruence].
    + rewrite (while_step _ _ _ _ _ (hasTracking_snoc _ _ _ _ Htr) Hbody).
      apply IH; [reflexivity | lia |].
      eapply Forall_impl; [exact Hsz |].
      intros e He. cbn beta in *. etransitivity; [apply Hle | apply He].
    + rewrite (while_throw _ _ _ _ _ _ (hasTracking_snoc _ _ _ _ Htr) Hbody).
      discriminate.
Qed.

Lemma disgard_entries fuel : forall trs fuel' w r,
  tracking r = trs ->
  (length trs <= fuel')%nat ->
  Forall (fun e => (size (groups w) (trackingGroup e) <= fuel)%nat) trs ->
  while fuel' hasTracking (disgardEntry fuel) (w, r)
  = ((setGroups
        (foldr (fun e h => <[trackingGroup e := []]> h) (groups w) trs) w,
      setTracking [] r), Normal).
Proof.
  induction trs as [| tracked trs IH] using rev_ind; intros fuel' w r Htr Hlen Hsz.
  - rewrite while_done.
    + cbn [foldr]. rewrite setGroups_same, <- Htr, setTracking_same'.
      reflexivity.
    + unfold hasTracking. cbn [snd]. rewrite Htr. reflexivity.
  - rewrite length_app in Hlen. simpl in Hlen.
    destruct fuel' as [| fuel']; [lia |].
    apply Forall_app in Hsz as [Hsz Ht].
    apply Forall_inv in Ht.
    assert (Hbody : disgardEntry fuel (w, r)
      = ((setGroups (<[trackingGroup tracked := []]> (groups w)) w,
          setTracking trs r), Normal)).
    { unfold disgardEntry. rewrite Htr, pop_snoc, disgard_group by assumption.
      reflexivity. }
    rewrite (while_step _ _ _ _ _ (hasTracking_snoc _ _ _ _ Htr) Hbody).
    rewrite (IH fuel' _ (setTracking trs r) eq_refl); [| lia |].
    + rewrite foldr_app. reflexivity.
    + eapply Forall_impl; [exact Hsz |].
      intros e He. cbn beta in *. cbn [setGroups groups].
      etransitivity; [apply size_insert_nil_le | apply He].
Qed.

(** *** How reverting ends *)

(** An iteration that does not complete normally has met an entry that is
    no insert, and if it is a remove, a serialized form that the sequence
    does not rebuild a segment from. *)
Lemma revertSegment_fails tracked w sg rest w' c :
  segments (groups w) (trackingGroup tracked) = sg :: rest ->
  revertSegment tracked w = (w', c) -> c <> Normal ->
  operation tracked <> INSERT
  /\ (operation tracked = REMOVE -> exists spec, segmentFromSpec spec = None).
Proof.
  intros Hs. unfold revertSegment. rewrite Hs. cbn [sequence setGroups].
  destruct (operation tracked).
  - destruct (removedSeq (sequence w) sg); intros [= <- <-]; congruence.
  - destruct (segmentFromSpec (toJSONObject (sequence w) sg)) eqn:Hspec.
    + intros [= <- <-]; congruence.
    + intros _ _. split; [discriminate | eauto].
  - intros _ _. split; discriminate.
  - intros _ _. split; discriminate.
Qed.

(** The inner loop of [revert], given fuel for the group, either empties
    the group or throws at an entry that cannot be reverted. *)
Lemma revert_group_result tracked : forall fuel w,
  (size (groups w) (trackingGroup tracked) <= fuel)%nat ->
  exists w' c,
    while fuel (groupNotEmpty tracked) (revertSegment tracked) w = (w', c)
    /\ c <> OutOfFuel
    /\ (forall tg, (size (groups w') tg <= size (groups w) tg)%nat)
    /\ (c = Normal -> size (groups w') (trackingGroup tracked) = 0%nat)
    /\ (c <> Normal ->
        operation tracked <> INSERT
        /\ (operation tracked = REMOVE ->
            exists spec, segmentFromSpec spec = None)).
Proof.
  induction fuel as [| fuel IH]; intros w Hsize.
  - exists w, Normal. rewrite while_done.
    + repeat split; try discriminate; try lia; congruence.
    + unfold groupNotEmpty. apply Nat.ltb_ge. lia.
  - destruct (segments (groups w) (trackingGroup tracked)) as [| sg rest] eqn:Hs.
    + exists w, Normal. rewrite while_done by (by apply groupNotEmpty_nil).
      unfold size. rewrite Hs.
      repeat split; try discriminate; try (simpl; lia); congruence.
    + destruct (revertSegment tracked w) as [w1 c1] eqn:Hbody.
      destruct (revertSegment_sizes _ _ _ _ Hbody) as (Hc1 & Hle & Hlt).
      destruct c1 as [| msg |]; [| | congruence].
      * specialize (Hlt eq_refl).
        destruct (IH w1 ltac:(lia)) as (w' & c & Hloop & Hcne & Hle' & Hn & Ht).
        exists w', c.
        rewrite (while_step _ _ _ _ _ (groupNotEmpty_cons _ _ _ _ Hs) Hbody).
        split; [exact Hloop |]. split; [exact Hcne |].
        split; [intros tg; etransitivity; [apply Hle' | apply Hle] |].
        split; [exact Hn | exact Ht].
      * exists w1, (Throw msg).
        rewrite (while_throw _ _ _ _ _ _ (groupNotEmpty_cons _ _ _ _ Hs) Hbody).
        split; [reflexivity |]. split; [discriminate |].
        split; [assumption |]. split; [discriminate |].
        intros Hne. by eapply revertSegment_fails.
Qed.

(** [revert], given fuel for its loops, either takes every entry off the
    list and empties the group of each, or throws at an entry that cannot
    be reverted, with the entries before that one left on the list. *)
Lemma revert_entries_result fuel : forall trs fuel' w r,
  tracking r = trs ->
  (length trs <= fuel')%nat ->
  Forall (fun e => (size (groups w) (trackingGroup e) <= fuel)%nat) trs ->
  exists w' r' c,
    while fuel' hasTracking (revertEntry fuel) (w, r) = ((w', r'), c)
    /\ c <> OutOfFuel
    /\ (forall tg, (size (groups w') tg <= size (groups w) tg)%nat)
    /\ (c = Normal ->
        tracking r' = []
        /\ Forall (fun e => size (groups w') (trackingGroup e) = 0%nat) trs)
    /\ (c <> Normal ->
        exists before tracked after,
          trs = before ++ tracked :: after
          /\ tracking r' = before
          /\ operation tracked <> INSERT
          /\ (operation tracked = REMOVE ->
              exists spec, segmentFromSpec spec = None)).
Proof.
  induction trs as [| tracked trs IH] using rev_ind; intros fuel' w r Htr Hlen Hsz.
  - exists w, r, Normal. rewrite while_done.
    + split; [reflexivity |]. split; [discriminate |]. split; [lia |].
      split; [intros _; split; [exact Htr | constructor] | congruence].
    + unfold hasTracking. cbn [snd]. rewrite Htr. reflexivity.
  - rewrite length_app in Hlen. simpl in Hlen.
    destruct fuel' as [| fuel']; [lia |].
    apply Forall_app in Hsz as [Hsz Ht]. apply Forall_inv in Ht.
    destruct (revert_group_result tracked fuel w Ht)
      as (w1 & c1 & Hloop & Hc1 & Hle & Hzero & Hfail).
    assert (Hbody : revertEntry fuel (w, r) = ((w1, setTracking trs r), c1)).
    { unfold revertEntry. rewrite Htr, pop_snoc, Hloop. reflexivity. }
    destruct c1 as [| msg |]; [| | congruence].
    + rewrite (while_step _ _ _ _ _ (hasTracking_snoc _ _ _ _ Htr) Hbody).
      destruct (IH fuel' w1 (setTracking trs r) eq_refl ltac:(lia))
        as (w' & r' & c & Hrun & Hc & Hle' & Hn & Hthrow).
      { eapply Forall_impl; [exact Hsz |].
        intros e He. cbn beta in *. etransitivity; [apply Hle | apply He]. }
      exists w', r', c. split; [exact Hrun |]. split; [exact Hc |].
      split; [intros tg; etransitivity; [apply Hle' | apply Hle] |]. split.
      * intros Hnormal. destruct (Hn Hnormal) as [Hnil Hzeros].
        split; [exact Hnil |]. apply Forall_app. split; [exact Hzeros |].
        apply Forall_singleton. specialize (Hzero eq_refl).
        specialize (Hle' (trackingGroup tracked)). lia.
      * intros Hne.
        destruct (Hthrow Hne) as (before & failed & after & -> & Hr' & Hops).
        exists before, failed, (after ++ [tracked]).
        rewrite <- app_assoc. auto.
    + rewrite (while_throw _ _ _ _ _ _ (hasTracking_snoc _ _ _ _ Htr) Hbody).
      exists w1, (setTracking trs r), (Throw msg).
      split; [reflexivity |]. split; [discriminate |].
      split; [assumption |]. split; [discriminate |].
      intros _. exists trs, tracked, []. split; [reflexivity |].
      split; [reflexivity |]. by apply Hfail.
Qed.

(** *** What the loops preserve

    No group links a segment twice, and every linked segment exists: both
    hold of a world that [add], [revert] and [disgard] have worked on if
    they held before. *)

Lemma revertSegment_preserves tracked w w' c :
  wf (groups w) -> allocated w ->
  revertSegment tracked w = (w', c) ->
  wf (groups w') /\ allocated w'.
Proof.
  intros Hwf Hall. unfold revertSegment.
  destruct (segments (groups w) (trackingGroup tracked)) as [| sg rest] eqn:Hs.
  { intros [= <- <-]. done. }
  assert (Hwf1 : wf (unlink (trackingGroup tracked) sg (groups w)))
    by (by apply wf_unlink).
  assert (Hall1 : forall n, (nextSegment w <= n)%nat ->
    Forall (Forall (fun s => (s < n)%nat))
      (unlink (trackingGroup tracked) sg (groups w))).
  { intros n Hn. apply Forall_alter.
    - eapply Forall_impl; [exact Hall |]. intros segs Hsegs.
      eapply Forall_impl; [exact Hsegs |]. intros s Hlt. cbn beta in *. lia.
    - intros segs Hl _. apply Forall_forall. intros x Hx%unlink_in_subseteq.
      eapply Forall_lookup_1 in Hall; [| exact Hl].
      eapply Forall_forall in Hall; [| exact Hx]. cbn beta in *. lia. }
  cbn [sequence setGroups].
  destruct (operation tracked).
  - destruct (removedSeq (sequence w) sg); intros [= <- <-];
      (split; [exact Hwf1 | by apply Hall1]).
  - destruct (segmentFromSpec (toJSONObject (sequence w) sg)) as [content |];
      intros [= <- <-]; [| split; [exact Hwf1 | by apply Hall1]].
    split; [by apply wf_relink |].
    unfold allocated. cbn [groups nextSegment]. apply Forall_fmap.
    eapply Forall_impl; [apply (Hall1 (nextSegment w)); lia |].
    intros segs Hsegs. cbn. apply Forall_forall.
    intros x [Hx | ->]%relink_in_elem; [| lia].
    eapply Forall_forall in Hsegs; [| exact Hx]. cbn beta in *. lia.
  - destruct (removedSeq (sequence w) sg); intros [= <- <-];
      (split; [exact Hwf1 | by apply Hall1]).
  - intros [= <- <-]. split; [exact Hwf1 | by apply Hall1].
Qed.

(** Reverting a whole remove entry, when every serialized form is
    recognized: one insert per linked segment, in the order of the group,
    each at a transient reference anchored at that segment, and the group
    is empty at the end. *)
Lemma revert_remove_entry tracked :
  operation tracked = REMOVE ->
  (forall spec, is_Some (segmentFromSpec spec)) ->
  forall segs fuel w,
    segments (groups w) (trackingGroup tracked) = segs ->
    wf (groups w) -> allocated w -> (length segs <= fuel)%nat ->
    exists w' added,
      while fuel (groupNotEmpty tracked) (revertSegment tracked) w = (w', Normal)
      /\ segments (groups w') (trackingGroup tracked) = []
      /\ calls w' = calls w ++ added
      /\ Forall2 (fun call sg => exists insertSegment content,
           call = InsertAtReferencePosition
                    (createPositionReference sg 0 Transient)
                    insertSegment content) added segs.
Proof.
  intros Hop Hspec. induction segs as [| sg rest IH]; intros fuel w Hs Hwf Hall Hlen.
  - exists w, []. rewrite while_done by (by apply groupNotEmpty_nil).
    rewrite app_nil_r. repeat split; [assumption | constructor].
  - destruct fuel as [| fuel]; [simpl in Hlen; lia |].
    destruct (Hspec (toJSONObject (sequence w) sg)) as [content Hcontent].
    pose proof (revertSegment_remove _ _ _ _ _ Hop Hs Hcontent) as Hbody.
    destruct (revertSegment_preserves _ _ _ _ Hwf Hall Hbody) as [Hwf1 Hall1].
    assert (Hnd : NoDup (sg :: rest)) by (rewrite <- Hs; by apply wf_segments).
    apply NoDup_cons in Hnd as [Hsg _].
    rewrite (while_step _ _ _ _ _ (groupNotEmpty_cons _ _ _ _ Hs) Hbody).
    edestruct (IH fuel) as (w' & added & Hloop & Hempty & Hcalls & Hadded);
      [| exact Hwf1 | exact Hall1 | simpl in Hlen; lia |].
    + cbn [groups]. by apply segments_relink_unlink_head.
    + exists w', (InsertAtReferencePosition
                   (createPositionReference sg 0 Transient) (nextSegment w)
                   content :: added).
      rewrite Hloop, Hcalls. cbn [calls]. rewrite <- app_assoc.
      repeat split; [assumption |]. constructor; eauto.
Qed.

Lemma segments_insert_nil (h : list (list nat)) tg :
  segments (<[tg := []]> h) tg = [].
Proof.
  unfold segments. destruct (Nat.lt_ge_cases tg (length h)).
  - rewrite list_lookup_insert_eq by assumption. reflexivity.
  - rewrite lookup_ge_None_2; [reflexivity |]. by rewrite length_insert.
Qed.

Lemma segments_insert_ne (h : list (list nat)) tg tg' segs :
  tg <> tg' -> segments (<[tg := segs]> h) tg' = segments h tg'.
Proof. intros Hne. unfold segments. by rewrite list_lookup_insert_ne. Qed.

Lemma segments_cleared trs (h : list (list nat)) tg :
  segments (foldr (fun e h => <[trackingGroup e := []]> h) h trs) tg
  = if decide (tg ∈ trackingGroup <$> trs) then [] else segments h tg.
Proof.
  induction trs as [| e trs IH]; cbn [foldr].
  - rewrite fmap_nil. rewrite decide_False; [done | apply not_elem_of_nil].
  - rewrite fmap_cons. destruct (decide (trackingGroup e = tg)) as [<- | Hne].
    + rewrite segments_insert_nil, decide_True; [done |].
      by apply elem_of_cons; left.
    + rewrite segments_insert_ne, IH by assumption.
      destruct (decide (tg ∈ trackingGroup <$> trs)) as [Hin | Hout].
      * rewrite decide_True; [done |]. by apply elem_of_cons; right.
      * rewrite decide_False; [done |].
        intros [-> | Hin]%elem_of_cons; [congruence | contradiction].
Qed.

(** *** Reverting an annotate *)

Lemma revertSegment_annotate tracked w sg rest :
  operation tracked = ANNOTATE ->
  segments (groups w) (trackingGroup tracked) = sg :: rest ->
  snd (revertSegment tracked w) = Throw "operationt type not revertable".
Proof.
  intros Hop Hs. unfold revertSegment. rewrite Hs, Hop. reflexivity.
Qed.

(** Reverting throws as soon as the entry it takes from the tail is an
    annotate entry with a linked segment. *)
Lemma revert_annotate_throws fuel w r trs tracked sg rest :
  tracking r = trs ++ [tracked] ->
  operation tracked = ANNOTATE ->
  segments (groups w) (trackingGroup tracked) = sg :: rest ->
  snd (revert (S fuel) (w, r)) = Throw "operationt type not revertable".
Proof.
  intros Htr Hop Hs. unfold revert.
  destruct (revertSegment tracked w) as [w1 c1] eqn:Hbody.
  pose proof (revertSegment_annotate _ _ _ _ Hop Hs) as Hthrow.
  rewrite Hbody in Hthrow. cbn [snd] in Hthrow. subst c1.
  erewrite while_throw; [reflexivity | by eapply hasTracking_snoc |].
  unfold revertEntry. rewrite Htr, pop_snoc.
  erewrite while_throw;
    [reflexivity | by eapply groupNotEmpty_cons | exact Hbody].
Qed.

(** *** Discarding *)

(** C6: [disgard], given fuel for its loops, completes normally; it makes
    no edit to the sequence (the sequence and the list of the edits made are
    as before), leaves the revertable without entries and every tracking
    group of its entries empty, and changes no other group: all it does is
    unlink. *)
Theorem disgard_only_unlinks fuel w r :
  (length (tracking r) <= fuel)%nat ->
  Forall (fun e => (size (groups w) (trackingGroup e) <= fuel)%nat)
    (tracking r) ->
  exists w' r',
    disgard fuel (w, r) = ((w', r'), Normal)
    /\ tracking r' = []
    /\ calls w' = calls w
    /\ sequence w' = sequence w
    /\ (forall e, e ∈ tracking r -> size (groups w') (trackingGroup e) = 0%nat)
    /\ (forall tg, (forall e, e ∈ tracking r -> trackingGroup e <> tg) ->
          segments (groups w') tg = segments (groups w) tg)
    /\ (forall tg sg, sg ∈ segments (groups w') tg ->
          sg ∈ segments (groups w) tg).
Proof.
  intros Hlen Hsz. eexists _, _. split.
  { unfold disgard. apply (disgard_entries fuel (tracking r)); done. }
  cbn [tracking setTracking calls sequence groups setGroups].
  repeat split.
  - intros e He. unfold size. rewrite segments_cleared, decide_True; [done |].
    apply list_elem_of_fmap. eauto.
  - intros tg Hno. rewrite segments_cleared, decide_False; [done |].
    intros (e & -> & He)%list_elem_of_fmap. by eapply Hno.
  - intros tg sg. rewrite segments_cleared.
    destruct (decide (tg ∈ trackingGroup <$> tracking r)); [| done].
    intros Hin. by apply not_elem_of_nil in Hin.
Qed.

(** *** One shot *)

(** C7: [revert], given fuel for its loops, ends in one of two ways.
    Either it completes: then the revertable has no entry left, the
    tracking group of every entry it had is empty, and reverting or
    discarding it again returns at once and leaves the world, with its
    sequence, the edits made and the tracking groups, as it is.  Or it
    throws, and has not completed: then it has met an entry that it cannot
    revert, which is no insert, and the entries before that one are still
    on the list.  It completes whenever every entry is an insert, or a
    remove on a sequence that rebuilds a segment from every serialized
    form. *)
Theorem revert_one_shot fuel w r :
  (length (tracking r) <= fuel)%nat ->
  Forall (fun e => (size (groups w) (trackingGroup e) <= fuel)%nat)
    (tracking r) ->
  exists w' r' c,
    revert fuel (w, r) = ((w', r'), c)
    /\ c <> OutOfFuel
    /\ (c = Normal ->
        tracking r' = []
        /\ Forall (fun e => size (groups w') (trackingGroup e) = 0%nat)
             (tracking r)
        /\ forall fuel',
             revert fuel' (w', r') = ((w', r'), Normal)
             /\ disgard fuel' (w', r') = ((w', r'), Normal))
    /\ (c <> Normal ->
        exists before tracked after,
          tracking r = before ++ tracked :: after
          /\ tracking r' = before
          /\ operation tracked <> INSERT
          /\ (operation tracked = REMOVE ->
              exists spec, segmentFromSpec spec = None))
    /\ (Forall (fun e => operation e = INSERT
                  \/ (operation e = REMOVE
                      /\ forall spec, is_Some (segmentFromSpec spec)))
          (tracking r) ->
        c = Normal).
Proof.
  intros Hlen Hsz.
  destruct (revert_entries_result fuel (tracking r) fuel w r eq_refl Hlen Hsz)
    as (w' & r' & c & Hrun & Hc & _ & Hnormal & Hthrow).
  exists w', r', c. split; [exact Hrun |]. split; [exact Hc |].
  split; [| split; [exact Hthrow |]].
  - intros Hn. destruct (Hnormal Hn) as [Hnil Hzeros].
    split; [exact Hnil |]. split; [exact Hzeros |].
    intros fuel'.
    assert (Hcond : hasTracking (w', r') = false)
      by (unfold hasTracking; cbn [snd]; by rewrite Hnil).
    split; apply while_done; exact Hcond.
  - intros Hops. destruct c as [| msg |]; [reflexivity | | congruence].
    destruct (Hthrow ltac:(discriminate))
      as (before & tracked & after & Htr & _ & Hins & Hrem).
    rewrite Htr in Hops. apply Forall_app in Hops as [_ Hops].
    apply Forall_inv in Hops. destruct Hops as [Hop | [Hop Hspec]].
    + contradiction.
    + destruct (Hrem Hop) as [spec Hnone].
      destruct (Hspec spec) as [content Hsome]. congruence.
Qed.

(** *** Termination *)

(** C10: [revert] and [disgard] terminate on every revertable: with enough
    fuel neither runs out of it.  An iteration of an inner loop unlinks the
    first segment of the group, which makes the group smaller ([disgard]
    leaves exactly the other segments), and an iteration of an outer loop
    takes one entry off the list. *)
Theorem revert_disgard_terminate w r :
  (exists n, forall fuel, (n <= fuel)%nat ->
     snd (revert fuel (w, r)) <> OutOfFuel
     /\ snd (disgard fuel (w, r)) <> OutOfFuel)
  /\ (forall tracked w0 sg rest,
        segments (groups w0) (trackingGroup tracked) = sg :: rest ->
        segments (groups (fst (disgardSegment tracked w0)))
          (trackingGroup tracked) = rest
        /\ forall w1, revertSegment tracked w0 = (w1, Normal) ->
             (size (groups w1) (trackingGroup tracked)
              < size (groups w0) (trackingGroup tracked))%nat)
  /\ (forall fuel w0 r0, tracking r0 <> [] ->
        S (length (tracking (snd (fst (revertEntry fuel (w0, r0))))))
        = length (tracking r0)
        /\ S (length (tracking (snd (fst (disgardEntry fuel (w0, r0))))))
           = length (tracking r0)).
Proof.
  split; [| split].
  - exists (length (tracking r)
            + sum_list_with (fun e => size (groups w) (trackingGroup e))
                (tracking r))%nat.
    intros fuel Hfuel.
    assert (Hsz : Forall
      (fun e => (size (groups w) (trackingGroup e) <= fuel)%nat) (tracking r)).
    { apply Forall_forall. intros e He.
      pose proof (sum_list_with_in e
        (fun e => size (groups w) (trackingGroup e)) _ He). lia. }
    split.
    + unfold revert. apply (revert_entries_terminate fuel (tracking r));
        [reflexivity | lia | assumption].
    + unfold disgard.
      rewrite (disgard_entries fuel (tracking r)) by (done || lia).
      discriminate.
  - intros tracked w0 sg rest Hs. split.
    + rewrite (disgardSegment_cons _ _ _ _ Hs). cbn [fst setGroups groups].
      by apply segments_unlink_head.
    + intros w1 Hbody.
      by destruct (revertSegment_sizes _ _ _ _ Hbody) as (_ & _ & Hlt); apply Hlt.
  - intros fuel w0 r0 Hne.
    destruct (tracking r0) as [| e trs] eqn:Htr using rev_ind; [done |].
    clear IHtrs. unfold revertEntry, disgardEntry. rewrite Htr, pop_snoc.
    destruct (while fuel (groupNotEmpty e) (revertSegment e) w0).
    destruct (while fuel (groupNotEmpty e) (disgardSegment e) w0).
    cbn [fst snd tracking setTracking]. rewrite length_app. simpl. lia.
Qed.

End WithSequence.

#[local] Existing Instance ExampleSequence.engine.
Import ExampleSequence.

(** C1: the code does not do what the claim says.  On a revertable whose
    only entry is an annotate entry with one linked segment, which has not
    been removed, [revert] re-applies the recorded property delta over the
    extent of the segment and then throws the error of the unsupported
    operation kinds. *)
Theorem revert_annotate_throws_on_example :
  let run := revert 5 (world [[0%nat]],
                       revertable [entry ANNOTATE 0%nat [("bold"%string, 0)]]) in
  snd run = Throw "operationt type not revertable"
  /\ calls (fst (fst run)) = [AnnotateRange 0 2 [("bold"%string, 0)]]
  /\ groups (fst (fst run)) = [[]].
Proof. vm_compute. repeat split. Qed.

Lemma revert_remove_reinserts_and_relinks_witness :
  let w := world [[1]; [1; 2]]%nat in
  let tracked := entry REMOVE 0%nat [] in
  let sg := 1%nat in
  let insertSegment := 3%nat in
  let pos := createPositionReference sg 0 Transient in
  exists w',
    revertSegment tracked w = (w', Normal)
    /\ calls w' = calls w ++ [InsertAtReferencePosition pos insertSegment (3, [])]
    /\ sequence w'
       = insertAtReferencePosition pos insertSegment (3, []) (sequence w)
    /\ segments (groups w') (trackingGroup tracked) = []
    /\ (forall tg, tg <> trackingGroup tracked ->
          sg ∈ segments (groups w) tg ->
          (insertSegment ∈ segments (groups w') tg)
          /\ (sg ∉ segments (groups w') tg)
          /\ (forall x, x <> sg -> x ∈ segments (groups w) tg ->
                x ∈ segments (groups w') tg))
    /\ (forall tg, sg ∉ segments (groups w') tg)
    /\ (forall tg, sg ∉ segments (groups w) tg ->
          segments (groups w') tg = segments (groups w) tg).
Proof.
  apply (revert_remove_reinserts_and_relinks (entry REMOVE 0%nat [])
           (world [[1]; [1; 2]]%nat) 1%nat [] (3, [])).
  - reflexivity.
  - reflexivity.
  - reflexivity.
  - unfold wf, world. cbn [groups].
    apply (bool_decide_unpack _). vm_compute. exact I.
  - unfold allocated, world. cbn [groups nextSegment].
    apply (bool_decide_unpack _). vm_compute. exact I.
Defined.

Lemma disgard_only_unlinks_witness :
  let w := world [[1]; [1; 2]]%nat in
  let r := revertable [entry INSERT 1%nat []; entry REMOVE 0%nat []] in
  exists w' r',
    disgard 5 (w, r) = ((w', r'), Normal)
    /\ tracking r' = []
    /\ calls w' = calls w
    /\ sequence w' = sequence w
    /\ (forall e, e ∈ tracking r -> size (groups w') (trackingGroup e) = 0%nat)
    /\ (forall tg, (forall e, e ∈ tracking r -> trackingGroup e <> tg) ->
          segments (groups w') tg = segments (groups w) tg)
    /\ (forall tg sg, sg ∈ segments (groups w') tg ->
          sg ∈ segments (groups w) tg).
Proof.
  apply (disgard_only_unlinks 5 (world [[1]; [1; 2]]%nat)
           (revertable [entry INSERT 1%nat []; entry REMOVE 0%nat []])).
  - simpl. lia.
  - apply (bool_decide_unpack _). vm_compute. exact I.
Defined.

(** Reverting the removal of the second segment and the insertion of the
    two others: the removed segment is put back and the inserted ones are
    removed, and the revertable is spent. *)
Lemma revert_one_shot_witness :
  let w := world [[1]; [0; 2]]%nat in
  let r := revertable [entry INSERT 1%nat []; entry REMOVE 0%nat []] in
  (revert 5 (w, r)).2 = Normal
  /\ calls (revert 5 (w, r)).1.1
     = [InsertAtReferencePosition (createPositionReference 1%nat 0 Transient)
          3%nat (3, []);
        RemoveRange 0 2; RemoveRange 3 7]
  /\ exists w' r' c,
       revert 5 (w, r) = ((w', r'), c)
       /\ c <> OutOfFuel
       /\ (c = Normal ->
           tracking r' = []
           /\ Forall (fun e => size (groups w') (trackingGroup e) = 0%nat)
                (tracking r)
           /\ forall fuel',
                revert fuel' (w', r') = ((w', r'), Normal)
                /\ disgard fuel' (w', r') = ((w', r'), Normal))
       /\ (c <> Normal ->
           exists before tracked after,
             tracking r = before ++ tracked :: after
             /\ tracking r' = before
             /\ operation tracked <> INSERT
             /\ (operation tracked = REMOVE ->
                 exists spec, segmentFromSpec spec = None))
       /\ (Forall (fun e => operation e = INSERT
                     \/ (operation e = REMOVE
                         /\ forall spec, is_Some (segmentFromSpec spec)))
             (tracking r) ->
           c = Normal).
Proof.
  intros w r. split; [reflexivity |]. split; [reflexivity |].
  apply (revert_one_shot 5 (world [[1]; [0; 2]]%nat)
           (revertable [entry INSERT 1%nat []; entry REMOVE 0%nat []])).
  - simpl. lia.
  - apply (bool_decide_unpack _). vm_compute. exact I.
Defined.

(** A revertable that is not reverted to the end: on an insert entry
    followed by an annotate entry, [revert] throws at the annotate entry and
    leaves the insert entry on the list, and reverting once more reverts
    that one. *)
Lemma revert_again_after_throw :
  let w := world [[0]; [2]]%nat in
  let r := revertable [entry INSERT 0%nat [];
                       entry ANNOTATE 1%nat [("bold"%string, 0)]] in
  let first := revert 5 (w, r) in
  first.2 = Throw "operationt type not revertable"
  /\ tracking first.1.2 = [entry INSERT 0%nat []]
  /\ (revert 5 first.1).2 = Normal
  /\ calls (revert 5 first.1).1.1
     = calls first.1.1 ++ [RemoveRange 0 2].
Proof. vm_compute. repeat split. Qed.

End RevertFacts.

(** ** The handler *)

Module HandlerFacts.
Import Handler.

Section WithSequence.
Context `{SharedSegmentSequence}.

(** C9: on a delta event that is not local the delta callback of the handler
    changes nothing: the map from a sequence to its revertable, what has
    been pushed to the stack manager, the revertables with their entries and
    the tracking groups are all as before. *)
Theorem sequenceDeltaHandler_ignores_remote
    (event : SequenceDeltaEvent) (target : nat) (h : Handler.t) :
  isLocal event = false ->
  sequenceDeltaHandler event target h = h.
Proof. intros Hremote. unfold sequenceDeltaHandler. rewrite Hremote. reflexivity. Qed.

End WithSequence.

#[local] Existing Instance ExampleSequence.engine.

Lemma sequenceDeltaHandler_ignores_remote_witness :
  sequenceDeltaHandler ExampleSequence.remoteInsert 7%nat ExampleSequence.handler
  = ExampleSequence.handler.
Proof.
  apply (sequenceDeltaHandler_ignores_remote ExampleSequence.remoteInsert 7%nat
           ExampleSequence.handler).
  reflexivity.
Defined.

End HandlerFacts.

(** ** Arrays *)

Module JsArrayFacts.
Import JsArray.

Section Facts.
Context {A : Type}.
Implicit Types (l items : list A) (tags : list (option A)).

Lemma relativeIndex_in len i : 0 <= i <= len -> relativeIndex len i = i.
Proof. intros Hi. unfold relativeIndex. destruct (Z.ltb_spec i 0); lia. Qed.


Lemma slice_from pos l :
  0 <= pos <= Z.of_nat (length l) -> slice pos None l = drop (Z.to_nat pos) l.
Proof.
  intros Hpos. unfold slice. rewrite relativeIndex_in by assumption.
  apply take_ge. rewrite length_drop. lia.
Qed.

Lemma slice_to pos l :
  0 <= pos <= Z.of_nat (length l) ->
  slice 0 (Some pos) l = take (Z.to_nat pos) l.
Proof.
  intros Hpos. unfold slice.
  rewrite (relativeIndex_in _ 0), (relativeIndex_in _ pos) by lia.
  rewrite Z.sub_0_r. reflexivity.
Qed.


(** Splicing a range out leaves what is before and what is after it. *)
Lemma splice_out start count l :
  0 <= start -> 0 <= count -> start + count <= Z.of_nat (length l) ->
  splice start count [] l
  = take (Z.to_nat start) l ++ drop (Z.to_nat (start + count)) l.
Proof.
  intros Hs Hc Hlen. unfold splice. rewrite relativeIndex_in by lia.
  replace (Z.min (Z.max count 0) _) with count by lia. reflexivity.
Qed.

Lemma setLength_cut pos tags :
  0 <= pos <= Z.of_nat (length tags) ->
  setLength pos tags = take (Z.to_nat pos) tags.
Proof.
  intros Hpos. unfold setLength.
  replace (Z.to_nat pos - length tags)%nat with 0%nat by lia.
  apply app_nil_r.
Qed.

Lemma get_lookup pos tags :
  0 <= pos -> get pos tags = mjoin (tags !! Z.to_nat pos).
Proof. intros Hpos. unfold get. destruct (Z.ltb_spec pos 0); [lia | done]. Qed.

Lemma lookup_set_eq i x tags :
  (if (i <? length tags)%nat then <[i := x]> tags
   else tags ++ replicate (i - length tags) None ++ [x]) !! i = Some x.
Proof.
  destruct (Nat.ltb_spec i (length tags)).
  - by apply list_lookup_insert_eq.
  - rewrite lookup_app_r by lia. rewrite lookup_app_r; rewrite length_replicate.
    + by replace (i - length tags - (i - length tags))%nat with 0%nat by lia.
    + lia.
Qed.

Lemma lookup_set_ne i j x tags :
  i <> j ->
  mjoin ((if (i <? length tags)%nat then <[i := x]> tags
          else tags ++ replicate (i - length tags) None ++ [x]) !! j)
  = mjoin (tags !! j).
Proof.
  intros Hne. destruct (Nat.ltb_spec i (length tags)).
  - by rewrite list_lookup_insert_ne.
  - destruct (Nat.lt_ge_cases j (length tags)).
    + by rewrite lookup_app_l.
    + rewrite lookup_app_r, (lookup_ge_None_2 tags) by lia.
      destruct (Nat.lt_ge_cases (j - length tags) (i - length tags)).
      * rewrite lookup_app_l by (rewrite length_replicate; lia).
        rewrite lookup_replicate_2 by lia. reflexivity.
      * rewrite lookup_app_r by (rewrite length_replicate; lia).
        rewrite length_replicate.
        destruct (j - length tags - (i - length tags))%nat as [| k] eqn:Hk;
          [lia | reflexivity].
Qed.

(** Reading the element that has been written gives it back, and the
    other elements read as before. *)
Lemma get_set pos q x tags :
  0 <= pos -> 0 <= q ->
  get q (set pos x tags) = if decide (q = pos) then x else get q tags.
Proof.
  intros Hpos Hq. rewrite !get_lookup by assumption. unfold set.
  destruct (Z.ltb_spec pos 0); [lia |].
  destruct (decide (q = pos)) as [-> | Hne].
  - by rewrite lookup_set_eq.
  - apply lookup_set_ne. lia.
Qed.

End Facts.
End JsArrayFacts.

(** ** More about the addressing scheme *)

Module AddressingMore.
Import JsNumberFacts AddressingFacts.

(** X1: a position below [2^53] is the position of the row and the column
    that [positionToRowCol] gives for it; the row is not negative and the
    column lies in [[0, maxCols)], so it may be [maxCol] itself. *)
Theorem positionToRowCol_inverse position :
  0 <= position < 2 ^ 53 ->
  0 <= fst (positionToRowCol position)
  /\ 0 <= snd (positionToRowCol position) < maxCols
  /\ rowColToPosition (fst (positionToRowCol position))
       (snd (positionToRowCol position)) = position.
Proof.
  intros Hp. rewrite positionToRowCol_exact by assumption. cbn [fst snd].
  pose proof (Z.div_mod position maxCols ltac:(rewrite maxCols_eq; lia)) as Hdm.
  pose proof (Z.mod_pos_bound position maxCols ltac:(rewrite maxCols_eq; lia)).
  assert (0 <= position / maxCols).
  { apply Z.div_pos; [lia | rewrite maxCols_eq; lia]. }
  repeat split; try lia.
  rewrite rowColToPosition_exact; lia.
Qed.

Lemma positionToRowCol_inverse_witness :
  0 <= fst (positionToRowCol 2097152)
  /\ 0 <= snd (positionToRowCol 2097152) < maxCols
  /\ rowColToPosition (fst (positionToRowCol 2097152))
       (snd (positionToRowCol 2097152)) = 2097152.
Proof. apply (positionToRowCol_inverse 2097152). lia. Defined.

(** X2: two different cells whose positions are below [2^53] and whose
    columns are below [maxCols] have different positions. *)
Theorem rowColToPosition_injective row col row' col' :
  0 <= row -> 0 <= col < maxCols -> row * maxCols + col < 2 ^ 53 ->
  0 <= row' -> 0 <= col' < maxCols -> row' * maxCols + col' < 2 ^ 53 ->
  (row, col) <> (row', col') ->
  rowColToPosition row col <> rowColToPosition row' col'.
Proof.
  intros Hr Hc Hb Hr' Hc' Hb' Hne.
  rewrite !rowColToPosition_exact by lia. rewrite maxCols_eq in *.
  intros Heq. apply Hne. f_equal; nia.
Qed.

Lemma rowColToPosition_injective_witness :
  rowColToPosition 3 2097152 <> rowColToPosition 4 0.
Proof.
  apply (rowColToPosition_injective 3 2097152 4 0);
    rewrite ?maxCols_eq; try lia. discriminate.
Defined.

End AddressingMore.

(** ** Rows, columns and the length of the sequence *)

Module SparseMatrixMore.
Import JsNumberFacts AddressingFacts SparseMatrix SparseMatrixFacts.
Import SparseMatrixEdit.

Section WithClient.
Context `{MergeTreeClient}.

Hypothesis length_removeRangeLocal : forall c pos1 pos2,
  0 <= pos1 <= pos2 -> pos2 <= getLength c ->
  getLength (removeRangeLocal pos1 pos2 c) = getLength c - (pos2 - pos1).
Hypothesis length_insertSegmentLocal : forall c pos1 seg,
  0 <= pos1 <= getLength c ->
  getLength (insertSegmentLocal pos1 seg c) = getLength c + segmentLength seg.

Lemma length_rowOps (src dest n L : Z) :
  0 <= src -> 0 <= dest -> 0 <= n ->
  src + n <= maxCol -> dest + n <= maxCol ->
  forall (k : nat) c r0,
    0 <= r0 -> (r0 + Z.of_nat k) * maxCols <= L -> getLength c = L ->
    getLength (foldl applyOp c
                 (flat_map (rowOps src dest n) (seqZ r0 (Z.of_nat k)))) = L.
Proof.
  intros Hsrc Hdest Hn Hsn Hdn.
  induction k as [| k IH]; intros c r0 Hr0 Hrows Hlen; [assumption |].
  rewrite (seqZ_cons r0 (Z.of_nat (S k))) by lia.
  replace (Z.pred (Z.of_nat (S k))) with (Z.of_nat k) by lia.
  cbn [flat_map]. rewrite foldl_app.
  change maxCol with 2097152 in *. rewrite maxCols_eq in *.
  apply IH; [lia | lia |].
  unfold rowOps. cbn [foldl applyOp]. rewrite ?maxCols_eq.
  rewrite length_insertSegmentLocal; rewrite length_removeRangeLocal;
    cbn [segmentLength]; lia.
Qed.

(** X3: [insertCols] and [removeCols] leave the length of the sequence, and
    with it the number of the rows, as it was. *)
Theorem insertCols_removeCols_keep_length (m : SparseMatrix.t) (col n : Z)
    (fuel : nat) :
  0 <= col -> 0 < n -> col + n <= maxCol ->
  0 <= getLength (client m) < 2 ^ 53 ->
  (Z.to_nat (numRows m) <= fuel)%nat ->
  getLength (client (fst (insertCols fuel col n m))) = getLength (client m)
  /\ numRows (fst (insertCols fuel col n m)) = numRows m
  /\ getLength (client (fst (removeCols fuel col n m))) = getLength (client m)
  /\ numRows (fst (removeCols fuel col n m)) = numRows m.
Proof.
  intros Hcol Hn Hcn HL Hfuel.
  assert (Hsub : (maxCol - n)%js = maxCol - n).
  { apply sub_exact. change maxCol with 2097152 in *. lia. }
  assert (Hrows : numRows m * maxCols <= getLength (client m)).
  { rewrite numRows_exact by assumption.
    rewrite Z.mul_comm. apply Z.mul_div_le. rewrite maxCols_eq. lia. }
  assert (0 <= numRows m).
  { rewrite numRows_exact by assumption.
    apply Z.div_pos; [lia | rewrite maxCols_eq; lia]. }
  assert (Hkeep : forall src dest, 0 <= src -> 0 <= dest ->
    src + n <= maxCol -> dest + n <= maxCol ->
    getLength (client (fst (moveAsPadding fuel src dest n m)))
    = getLength (client m)).
  { intros src dest Hs Hd Hsn Hdn.
    rewrite (moveAsPadding_grouped length_removeRangeLocal
               length_insertSegmentLocal) by lia.
    cbn [fst client].
    rewrite <- (Z2Nat.id (numRows m)) at 1 by lia.
    apply (length_rowOps src dest n); lia. }
  unfold insertCols, removeCols, numRows. rewrite Hsub.
  rewrite !Hkeep by lia. done.
Qed.

(** X4: [insertRows row n], at a row of the sequence, makes the sequence [n]
    rows longer, and [removeRows row n] after it gives the sequence its
    length back. *)
Theorem insertRows_removeRows_length (c : Client) (row n : Z) :
  0 <= row -> 0 < n -> row * maxCols <= getLength c ->
  getLength c + n * maxCols < 2 ^ 53 ->
  let inserted := fst (insertRows row n c) in
  getLength inserted = getLength c + n * maxCols
  /\ fst (positionToRowCol (getLength inserted))
     = fst (positionToRowCol (getLength c)) + n
  /\ getLength (fst (removeRows row n inserted)) = getLength c.
Proof.
  intros Hrow Hn Hpos HL inserted. subst inserted.
  unfold insertRows, removeRows, removeRange. cbn [fst].
  rewrite rowColToPosition_exact by (rewrite ?maxCols_eq in *; lia).
  rewrite maxCols_eq in *.
  rewrite mul_exact, Z.add_0_r by lia.
  rewrite add_exact by lia.
  rewrite length_insertSegmentLocal by lia. cbn [segmentLength].
  split; [lia |]. split.
  - rewrite !positionToRowCol_exact by lia. cbn [fst].
    rewrite maxCols_eq.
    replace (getLength c + 2097153 * n) with (getLength c + n * 2097153) by lia.
    apply Z.div_add. lia.
  - rewrite length_removeRangeLocal;
      rewrite ?length_insertSegmentLocal; cbn [segmentLength]; lia.
Qed.

End WithClient.

#[local] Existing Instance UnwrittenMatrix.client.

Lemma insertCols_removeCols_keep_length_witness :
  getLength (client (fst (insertCols 2 2 3 (UnwrittenMatrix.ofRows 2))))
  = getLength (client (UnwrittenMatrix.ofRows 2))
  /\ numRows (fst (insertCols 2 2 3 (UnwrittenMatrix.ofRows 2)))
     = numRows (UnwrittenMatrix.ofRows 2)
  /\ getLength (client (fst (removeCols 2 2 3 (UnwrittenMatrix.ofRows 2))))
     = getLength (client (UnwrittenMatrix.ofRows 2))
  /\ numRows (fst (removeCols 2 2 3 (UnwrittenMatrix.ofRows 2)))
     = numRows (UnwrittenMatrix.ofRows 2).
Proof.
  apply (insertCols_removeCols_keep_length (H := UnwrittenMatrix.client)
           ltac:(intros; simpl; lia) ltac:(intros; simpl; lia)
           (UnwrittenMatrix.ofRows 2) 2 3 2).
  - lia.
  - lia.
  - unfold maxCol. lia.
  - vm_compute. split; [discriminate | reflexivity].
  - vm_compute. lia.
Defined.

Lemma insertRows_removeRows_length_witness :
  let inserted := fst (insertRows (H := UnwrittenMatrix.client) 1 3 4194306) in
  getLength inserted = 4194306 + 3 * maxCols
  /\ fst (positionToRowCol (getLength inserted))
     = fst (positionToRowCol 4194306) + 3
  /\ getLength (fst (removeRows 1 3 inserted)) = 4194306.
Proof.
  apply (insertRows_removeRows_length (H := UnwrittenMatrix.client)
           ltac:(intros; simpl; lia) ltac:(intros; simpl; lia) 4194306 1 3).
  - lia.
  - lia.
  - vm_compute. discriminate.
  - vm_compute. reflexivity.
Defined.

End SparseMatrixMore.

(** ** The segments *)

Module SegmentFacts.
Import JsNumberFacts JsArray JsArrayFacts.

Section WithTypes.
Context {Item Tag Props : Type}.
Variable addProperties : Props -> option Props -> option Props.

Implicit Types (spec : JSON.Spec Item Props) (fields : JSON.Fields Item Props).
Implicit Types (run other : RunSegment.t (Item := Item) (Tag := Tag)).

(** X5: [segmentFromSpec] throws on what is not an object and on an object
    that has neither [pad] nor [items], and on nothing else.  An object
    with a [pad] gives a padding segment of that length, also when it has
    [items]; an object with [items] and no [pad] gives a run of these
    items, with as many tags, all [undefined]. *)
Theorem segmentFromSpec_cases spec :
  (SparseMatrixFactory.segmentFromSpec (Tag := Tag) addProperties spec
     = Throws "Unrecognized IJSONObject"
   <-> (spec = JSON.NotAnObject
        \/ exists fields, spec = JSON.Object fields
             /\ JSON.pad fields = None /\ JSON.items fields = None))
  /\ (forall fields size, spec = JSON.Object fields ->
        JSON.pad fields = Some size ->
        exists properties,
          SparseMatrixFactory.segmentFromSpec (Tag := Tag) addProperties spec
          = Returns (PaddingSegment size, properties))
  /\ (forall fields its, spec = JSON.Object fields ->
        JSON.pad fields = None -> JSON.items fields = Some its ->
        exists properties,
          SparseMatrixFactory.segmentFromSpec (Tag := Tag) addProperties spec
          = Returns (RunSegment its (replicate (length its) None), properties)).
Proof.
  unfold SparseMatrixFactory.segmentFromSpec, PaddingSegment.fromJSONObject,
    RunSegment.fromJSONObject.
  split; [| split].
  - destruct spec as [| fields]; [split; auto |].
    destruct (JSON.pad fields) as [size |] eqn:Hpad.
    + split; [destruct (JSON.props fields); discriminate |].
      intros [[=] | (fields' & [= <-] & Hp & _)]. congruence.
    + destruct (JSON.items fields) as [its |] eqn:Hits.
      * split; [discriminate |].
        intros [[=] | (fields' & [= <-] & _ & Hi)]. congruence.
      * split; [| reflexivity]. intros _. right. eauto.
  - intros fields size -> Hpad. rewrite Hpad.
    destruct (JSON.props fields); eexists; reflexivity.
  - intros fields its -> Hpad Hits. rewrite Hpad, Hits.
    eexists. reflexivity.
Qed.

(** X6: the serialized form of a padding segment is recognized, and
    [segmentFromSpec] makes of it a padding segment of the same length with
    the same properties, when adding properties to a segment without any
    gives it these properties. *)
Theorem padding_toJSONObject_segmentFromSpec
    (segment : PaddingSegment.t (Props := Props)) :
  (forall p, addProperties p None = Some p) ->
  SparseMatrixFactory.segmentFromSpec (Item := Item) (Tag := Tag) addProperties
    (PaddingSegment.toJSONObject segment)
  = Returns (PaddingSegment (PaddingSegment.cachedLength segment),
             PaddingSegment.properties segment).
Proof.
  intros Hadd. destruct segment as [size [p |]]; cbn; [| reflexivity].
  rewrite Hadd. reflexivity.
Qed.


(** X8: splitting a run whose tags go with its items at a position inside
    it gives two runs whose tags go with their items: the old run keeps the
    items and the tags before the position and the new run has those from
    the position on, so that none is lost and each tag stays with its item;
    at a position that is not positive the run is not split. *)
Theorem run_split_partitions run pos :
  RunSegment.aligned run ->
  (0 < pos <= Z.of_nat (length (RunSegment.items run)) ->
     exists before after,
       RunSegment.createSplitSegmentAt pos run = (before, Some after)
       /\ RunSegment.items before = take (Z.to_nat pos) (RunSegment.items run)
       /\ RunSegment.items after = drop (Z.to_nat pos) (RunSegment.items run)
       /\ RunSegment.tags before = take (Z.to_nat pos) (RunSegment.tags run)
       /\ RunSegment.tags after = drop (Z.to_nat pos) (RunSegment.tags run)
       /\ RunSegment.aligned before /\ RunSegment.aligned after)
  /\ (pos <= 0 -> RunSegment.createSplitSegmentAt pos run = (run, None)).
Proof.
  intros Hal. unfold RunSegment.aligned in *. split.
  - intros Hpos. unfold RunSegment.createSplitSegmentAt.
    destruct (Z.ltb_spec 0 pos); [| lia].
    rewrite !slice_from, slice_to, setLength_cut by lia.
    eexists _, _. split; [reflexivity |]. cbn.
    do 4 (split; [reflexivity |]).
    split; [rewrite !length_take; lia | rewrite !length_drop; lia].
  - intros Hpos. unfold RunSegment.createSplitSegmentAt.
    destruct (Z.ltb_spec 0 pos); [lia | reflexivity].
Qed.

(** X9: removing a range that lies inside a run whose tags go with its
    items takes the items and the tags of the range out and leaves the
    others in place, each tag with its item; the run tells that it is
    empty exactly when the range was the whole run. *)
Theorem run_removeRange run start stop :
  RunSegment.aligned run ->
  0 <= start <= stop ->
  stop <= Z.of_nat (length (RunSegment.items run)) ->
  Z.of_nat (length (RunSegment.items run)) < 2 ^ 53 ->
  let kept := {|
    RunSegment.items :=
      take (Z.to_nat start) (RunSegment.items run)
      ++ drop (Z.to_nat stop) (RunSegment.items run);
    RunSegment.tags :=
      take (Z.to_nat start) (RunSegment.tags run)
      ++ drop (Z.to_nat stop) (RunSegment.tags run) |} in
  fst (RunSegment.removeRange start stop run) = kept
  /\ RunSegment.aligned kept
  /\ (snd (RunSegment.removeRange start stop run) = true
      <-> start = 0 /\ stop = Z.of_nat (length (RunSegment.items run))).
Proof.
  intros Hal Hrange Hstop Hlen kept. unfold RunSegment.aligned in *.
  unfold RunSegment.removeRange, RunSegment.superRemoveRange.
  rewrite sub_exact by lia.
  rewrite !splice_out by lia.
  replace (start + (stop - start)) with stop by lia.
  cbn [fst snd]. split; [reflexivity |]. split.
  - subst kept. cbn. rewrite !length_app, !length_take, !length_drop. lia.
  - rewrite Nat.eqb_eq, length_app, length_take, length_drop. lia.
Qed.

(** X10: splitting a padding segment at a position and appending the new
    segment to what is left gives a segment of the length it had;
    appending a segment that is no padding throws. *)
Theorem padding_split_append (length pos : Z) (other : MatrixSegment Item Tag) :
  Z.abs length < 2 ^ 53 -> Z.abs (length - pos) < 2 ^ 53 ->
  (let '(rest, new) :=
     PaddingSegment.createSplitSegmentAt (Item := Item) (Tag := Tag) pos length in
   rest = pos /\ PaddingSegment.append rest new = Returns length)
  /\ (PaddingSegment.isPadding other = false ->
      PaddingSegment.append length other
      = Throws "can only append padding segment").
Proof.
  intros Hlen Hdiff. split.
  - unfold PaddingSegment.createSplitSegmentAt, PaddingSegment.append.
    split; [reflexivity |]. rewrite sub_exact by assumption.
    rewrite add_exact by (replace (pos + (length - pos)) with length by lia;
                          assumption).
    f_equal. lia.
  - destruct other; [reflexivity | discriminate | reflexivity].
Qed.

(** X11: after [setTag] at a position that is not negative, [getTag] at
    that position gives the tag, and at every other such position what it
    gave before; the items stay as they are. *)
Theorem run_setTag_getTag run pos q (tag : option Tag) :
  0 <= pos -> 0 <= q ->
  RunSegment.getTag q (RunSegment.setTag pos tag run)
  = (if decide (q = pos) then tag else RunSegment.getTag q run)
  /\ RunSegment.items (RunSegment.setTag pos tag run) = RunSegment.items run.
Proof.
  intros Hpos Hq. split; [| reflexivity].
  unfold RunSegment.getTag, RunSegment.setTag. cbn.
  by apply get_set.
Qed.

End WithTypes.

Lemma padding_toJSONObject_segmentFromSpec_witness :
  SparseMatrixFactory.segmentFromSpec (Item := Z) (Tag := unit)
    (fun p _ => Some p)
    (PaddingSegment.toJSONObject
       {| PaddingSegment.cachedLength := 4;
          PaddingSegment.properties := Some 7%nat |})
  = Returns (PaddingSegment 4, Some 7%nat).
Proof.
  apply (padding_toJSONObject_segmentFromSpec (Item := Z) (Tag := unit)
           (fun p _ => Some p)
           {| PaddingSegment.cachedLength := 4;
              PaddingSegment.properties := Some 7%nat |}).
  reflexivity.
Defined.


Lemma run_split_partitions_witness :
  exists before after,
    RunSegment.createSplitSegmentAt 1
      {| RunSegment.items := [1; 2; 3];
         RunSegment.tags := [Some tt; None; Some tt] |}
    = (before, Some after)
    /\ RunSegment.items before = [1]
    /\ RunSegment.items after = [2; 3]
    /\ RunSegment.tags before = [Some tt]
    /\ RunSegment.tags after = [None; Some tt]
    /\ RunSegment.aligned before /\ RunSegment.aligned after.
Proof.
  apply (run_split_partitions
           {| RunSegment.items := [1; 2; 3];
              RunSegment.tags := [Some tt; None; Some tt] |} 1).
  - reflexivity.
  - simpl. lia.
Defined.

Lemma run_removeRange_witness :
  fst (RunSegment.removeRange 1 2
         {| RunSegment.items := [1; 2; 3];
            RunSegment.tags := [Some tt; None; Some tt] |})
  = {| RunSegment.items := [1; 3]; RunSegment.tags := [Some tt; Some tt] |}.
Proof.
  apply (run_removeRange
           {| RunSegment.items := [1; 2; 3];
              RunSegment.tags := [Some tt; None; Some tt] |} 1 2).
  - reflexivity.
  - lia.
  - simpl. lia.
  - simpl. lia.
Defined.

Lemma padding_split_append_witness :
  PaddingSegment.append (Item := Z) (Tag := unit) 10 (OtherSegment "TextSegment")
  = Throws "can only append padding segment".
Proof.
  apply (padding_split_append (Item := Z) (Tag := unit) 10 4
           (OtherSegment "TextSegment")).
  - simpl. lia.
  - simpl. lia.
  - reflexivity.
Defined.

Lemma run_setTag_getTag_witness :
  RunSegment.getTag 4
    (RunSegment.setTag 4 (Some tt)
       {| RunSegment.items := [1; 2]; RunSegment.tags := [None; None] |})
  = Some tt.
Proof.
  apply (run_setTag_getTag
           {| RunSegment.items := [1; 2]; RunSegment.tags := [None; None] |}
           4 4 (Some tt)); lia.
Defined.

End SegmentFacts.

(** ** More about recording *)

Module AddMore.
Import TrackingGroup TrackingGroupFacts Revertable AddFacts.

Section WithSequence.
Context `{SharedSegmentSequence}.

Implicit Types (h : list (list nat)) (r : Revertable.t).
Implicit Types (tr : list ITrackedSharedSegmentSequenceRevertable).
Implicit Types (x : ISequenceDeltaRange) (xs : list ISequenceDeltaRange).
Implicit Types (ev : SequenceDeltaEvent).

Lemma add_fold ev h r :
  add ev (h, r)
  = (fst (fst (foldl (addRange (deltaOperation ev))
                 (h, tracking r, last (tracking r)) (ranges ev))),
     setTracking
       (snd (fst (foldl (addRange (deltaOperation ev))
                    (h, tracking r, last (tracking r)) (ranges ev)))) r).
Proof.
  unfold add. destruct (ranges ev) as [| x xs] eqn:Hr.
  - cbn. by rewrite setTracking_same.
  - cbn [length Nat.ltb Nat.leb].
    by destruct (foldl _ _ _) as [[h' tr'] current'].
Qed.

Lemma foldl_addRange_distinct op xs : forall h tr current,
  distinctRuns op ((fun t => (operation t, propertyDelta t)) <$> current) xs ->
  fst (foldl (addRange op) (h, tr, current) xs)
  = (h ++ ((fun x => [segment x]) <$> xs),
     tr ++ imap (fun i x => {| trackingGroup := length h + i;
                               propertyDelta := propertyDeltas x;
                               operation := op |}) xs).
Proof.
  induction xs as [| x xs IH]; intros h tr current Hd.
  - cbn. by rewrite !app_nil_r.
  - destruct Hd as [Hx Hrest]. cbn [foldl].
    rewrite addRange_start by (destruct current; exact Hx).
    rewrite startGroup_eq, IH by exact Hrest.
    rewrite fmap_cons, imap_cons, <- !app_assoc. cbn [app].
    rewrite Nat.add_0_r. do 3 f_equal.
    apply imap_ext. intros i y _. cbn. f_equal. rewrite length_app. simpl. lia.
Qed.

(** X13: ranges of which none goes with the one before it, nor the first
    with the tail entry, are recorded one entry each, in their order and
    each with a new group that links its segment alone: a range is never
    put into an entry before the tail, also when it would match it. *)
Theorem add_keeps_distinct_runs_apart h r ev :
  distinctRuns (deltaOperation ev)
    ((fun t => (operation t, propertyDelta t)) <$> last (tracking r))
    (ranges ev) ->
  add ev (h, r)
  = (h ++ ((fun x => [segment x]) <$> ranges ev),
     setTracking
       (tracking r
        ++ imap (fun i x => {| trackingGroup := length h + i;
                               propertyDelta := propertyDeltas x;
                               operation := deltaOperation ev |})
             (ranges ev)) r).
Proof.
  intros Hd. rewrite add_fold.
  rewrite (foldl_addRange_distinct _ _ _ _ _ Hd). reflexivity.
Qed.

Lemma segments_app_l h h' tg :
  (tg < length h)%nat -> segments (h ++ h') tg = segments h tg.
Proof. intros Hlt. unfold segments. by rewrite lookup_app_l. Qed.

Lemma segments_snoc h segs : segments (h ++ [segs]) (length h) = segs.
Proof.
  unfold segments. rewrite lookup_app_r by lia.
  by rewrite Nat.sub_diag.
Qed.

Lemma segments_nonempty_lt h tg : segments h tg <> [] -> (tg < length h)%nat.
Proof.
  intros Hne. destruct (Nat.lt_ge_cases tg (length h)) as [| Hge]; [done |].
  by rewrite segments_ge in Hne.
Qed.

Lemma link_in_nonempty sg segs : link_in sg segs <> [] .
Proof.
  unfold link_in. destruct (decide (sg ∈ segs)) as [Hin |].
  - intros ->. by apply not_elem_of_nil in Hin.
  - by destruct segs.
Qed.

Lemma addRange_entriesLinked op h tr current x :
  entriesLinked h tr -> current = last tr ->
  let s := addRange op (h, tr, current) x in
  entriesLinked (fst (fst s)) (snd (fst s)) /\ snd s = last (snd (fst s)).
Proof.
  intros [Hnd Hne] Hcur.
  assert (Hstart :
    let s := startGroup op (h, tr, current) x in
    entriesLinked (fst (fst s)) (snd (fst s)) /\ snd s = last (snd (fst s))).
  { rewrite startGroup_eq. cbn [fst snd]. split; [| by rewrite last_snoc].
    split.
    - rewrite fmap_app. apply NoDup_app. split; [exact Hnd |]. split.
      + intros tg (e & -> & He)%list_elem_of_fmap.
        intros Hnew%list_elem_of_singleton.
        eapply Forall_forall in Hne; [| exact He].
        apply segments_nonempty_lt in Hne. cbn in Hnew. lia.
      + apply NoDup_singleton.
    - apply Forall_app. split.
      + eapply Forall_impl; [exact Hne |]. intros e He. cbn beta in *.
        rewrite segments_app_l; [exact He | by apply segments_nonempty_lt].
      + apply Forall_singleton. cbn. by rewrite segments_snoc. }
  unfold addRange. destruct current as [cur |]; [| exact Hstart].
  destruct (bool_decide (operation cur = op)
            && matchProperties (propertyDelta cur) (propertyDeltas x));
    [| exact Hstart].
  cbn [fst snd]. split; [| exact Hcur]. split; [exact Hnd |].
  eapply Forall_impl; [exact Hne |]. intros e He. cbn beta in *.
  destruct (decide (trackingGroup cur = trackingGroup e)) as [Heq | Hdiff].
  - unfold link. rewrite Heq, segments_alter_lt
      by (by apply segments_nonempty_lt).
    apply link_in_nonempty.
  - unfold link. by rewrite segments_alter_ne.
Qed.

(** X14: recording keeps the entries of a revertable linked: after [add],
    as before, no two entries share a tracking group and the group of
    every entry links at least one segment. *)
Theorem add_keeps_entries_linked h r ev :
  entriesLinked h (tracking r) ->
  entriesLinked (fst (add ev (h, r))) (tracking (snd (add ev (h, r)))).
Proof.
  intros Hlinked. rewrite add_fold. cbn [fst snd tracking setTracking].
  assert (Hfold : forall xs h tr current,
    entriesLinked h tr -> current = last tr ->
    let s := foldl (addRange (deltaOperation ev)) (h, tr, current) xs in
    entriesLinked (fst (fst s)) (snd (fst s))).
  { induction xs as [| x xs IH]; intros h0 tr current Hl Hc; [exact Hl |].
    cbn [foldl].
    destruct (addRange_entriesLinked (deltaOperation ev) h0 tr current x Hl Hc)
      as [Hl' Hc'].
    destruct (addRange (deltaOperation ev) (h0, tr, current) x)
      as [[h1 tr1] current1].
    by apply IH. }
  by apply Hfold.
Qed.

End WithSequence.

#[local] Existing Instance ExampleSequence.engine.

Lemma add_keeps_distinct_runs_apart_witness :
  add {| isLocal := true; deltaOperation := ANNOTATE;
         ranges := [ {| segment := 0%nat; propertyDeltas := [("bold"%string, 1)] |};
                     {| segment := 2%nat; propertyDeltas := [] |};
                     {| segment := 1%nat; propertyDeltas := [("bold"%string, 1)] |} ] |}
      ([], ExampleSequence.revertable [])
  = ([[0]; [2]; [1]]%nat,
     ExampleSequence.revertable
       [ ExampleSequence.entry ANNOTATE 0%nat [("bold"%string, 1)];
         ExampleSequence.entry ANNOTATE 1%nat [];
         ExampleSequence.entry ANNOTATE 2%nat [("bold"%string, 1)] ]).
Proof.
  refine (add_keeps_distinct_runs_apart [] (ExampleSequence.revertable [])
            {| isLocal := true; deltaOperation := ANNOTATE;
               ranges := [ {| segment := 0%nat;
                              propertyDeltas := [("bold"%string, 1)] |};
                           {| segment := 2%nat; propertyDeltas := [] |};
                           {| segment := 1%nat;
                              propertyDeltas := [("bold"%string, 1)] |} ] |} _).
  cbn. repeat split; right; reflexivity.
Defined.

Lemma add_keeps_entries_linked_witness :
  entriesLinked
    (fst (add ExampleSequence.remoteInsert ([], ExampleSequence.revertable [])))
    (tracking
       (snd (add ExampleSequence.remoteInsert
               ([], ExampleSequence.revertable [])))).
Proof.
  apply (add_keeps_entries_linked [] (ExampleSequence.revertable [])
           ExampleSequence.remoteInsert).
  split; [apply NoDup_nil_2 | apply Forall_nil_2].
Defined.

End AddMore.

(** ** More about reverting *)

Module RevertMore.
Import TrackingGroup TrackingGroupFacts Revertable RevertFacts.

Section WithSequence.
Context `{SharedSegmentSequence}.

Implicit Types (w : World) (r : Revertable.t).
Implicit Types (tracked : ITrackedSharedSegmentSequenceRevertable).
Implicit Types (trs : list ITrackedSharedSegmentSequenceRevertable).

Lemma revertSegment_completes tracked w sg rest :
  segments (groups w) (trackingGroup tracked) = sg :: rest ->
  operation tracked = INSERT
  \/ (operation tracked = REMOVE /\ forall spec, is_Some (segmentFromSpec spec)) ->
  snd (revertSegment tracked w) = Normal.
Proof.
  intros Hs Hop. unfold revertSegment. rewrite Hs.
  destruct Hop as [-> | [-> Hspec]].
  - cbn [sequence setGroups]. by destruct (removedSeq (sequence w) sg).
  - cbn [sequence setGroups].
    by destruct (Hspec (toJSONObject (sequence w) sg)) as [content ->].
Qed.

Lemma revert_group_completes tracked :
  operation tracked = INSERT
  \/ (operation tracked = REMOVE /\ forall spec, is_Some (segmentFromSpec spec)) ->
  forall fuel w,
    (size (groups w) (trackingGroup tracked) <= fuel)%nat ->
    exists w',
      while fuel (groupNotEmpty tracked) (revertSegment tracked) w = (w', Normal)
      /\ size (groups w') (trackingGroup tracked) = 0%nat
      /\ forall tg, (size (groups w') tg <= size (groups w) tg)%nat.
Proof.
  intros Hop. induction fuel as [| fuel IH]; intros w Hsize.
  - exists w. rewrite while_done; [repeat split; lia |].
    unfold groupNotEmpty. apply Nat.ltb_ge. lia.
  - destruct (segments (groups w) (trackingGroup tracked)) as [| sg rest] eqn:Hs.
    + exists w. rewrite while_done by (by apply groupNotEmpty_nil).
      unfold size. rewrite Hs. repeat split; lia.
    + pose proof (revertSegment_completes _ _ _ _ Hs Hop) as Hnormal.
      destruct (revertSegment tracked w) as [w1 c1] eqn:Hbody.
      cbn [snd] in Hnormal. subst c1.
      destruct (revertSegment_sizes _ _ _ _ Hbody) as (_ & Hle & Hlt).
      specialize (Hlt eq_refl).
      destruct (IH w1 ltac:(lia)) as (w' & Hloop & Hzero & Hle').
      exists w'. rewrite (while_step _ _ _ _ _
                            (groupNotEmpty_cons _ _ _ _ Hs) Hbody).
      repeat split; [assumption | assumption |].
      intros tg. etransitivity; [apply Hle' | apply Hle].
Qed.

Lemma revert_entries_complete fuel : forall trs fuel' w r,
  tracking r = trs ->
  (length trs <= fuel')%nat ->
  Forall (fun e => (size (groups w) (trackingGroup e) <= fuel)%nat) trs ->
  Forall (fun e => operation e = INSERT
            \/ (operation e = REMOVE
                /\ forall spec, is_Some (segmentFromSpec spec))) trs ->
  exists w',
    while fuel' hasTracking (revertEntry fuel) (w, r)
    = ((w', setTracking [] r), Normal)
    /\ (forall tg, (size (groups w') tg <= size (groups w) tg)%nat)
    /\ Forall (fun e => size (groups w') (trackingGroup e) = 0%nat) trs.
Proof.
  induction trs as [| tracked trs IH] using rev_ind;
    intros fuel' w r Htr Hlen Hsz Hops.
  - exists w. rewrite while_done.
    + assert (Hr : setTracking [] r = r)
        by (rewrite <- Htr; apply setTracking_same').
      rewrite Hr. repeat split; [lia | constructor].
    + unfold hasTracking. cbn [snd]. by rewrite Htr.
  - rewrite length_app in Hlen. simpl in Hlen.
    destruct fuel' as [| fuel']; [lia |].
    apply Forall_app in Hsz as [Hsz Ht]. apply Forall_inv in Ht.
    apply Forall_app in Hops as [Hops Hop]. apply Forall_inv in Hop.
    destruct (revert_group_completes tracked Hop fuel w Ht)
      as (w1 & Hloop & Hzero & Hle).
    assert (Hbody : revertEntry fuel (w, r) = ((w1, setTracking trs r), Normal)).
    { unfold revertEntry. by rewrite Htr, pop_snoc, Hloop. }
    rewrite (while_step _ _ _ _ _ (hasTracking_snoc _ _ _ _ Htr) Hbody).
    destruct (IH fuel' w1 (setTracking trs r) eq_refl ltac:(lia))
      as (w' & Hrun & Hle' & Hzeros); [| exact Hops |].
    + eapply Forall_impl; [exact Hsz |].
      intros e He. cbn beta in *. etransitivity; [apply Hle | apply He].
    + exists w'. split; [exact Hrun |]. split.
      * intros tg. etransitivity; [apply Hle' | apply Hle].
      * apply Forall_app. split; [exact Hzeros |]. apply Forall_singleton.
        specialize (Hle' (trackingGroup tracked)). lia.
Qed.

(** X15: a revertable whose entries are all inserts or removes, on a
    sequence that rebuilds a segment from every serialized form, is
    reverted to the end: with fuel for its loops [revert] completes
    normally, the revertable has no entry left and the group of each of its
    entries links no segment any more. *)
Theorem revert_inserts_removes_completes fuel w r :
  (length (tracking r) <= fuel)%nat ->
  Forall (fun e => (size (groups w) (trackingGroup e) <= fuel)%nat)
    (tracking r) ->
  Forall (fun e => operation e = INSERT
            \/ (operation e = REMOVE
                /\ forall spec, is_Some (segmentFromSpec spec))) (tracking r) ->
  exists w',
    revert fuel (w, r) = ((w', setTracking [] r), Normal)
    /\ Forall (fun e => size (groups w') (trackingGroup e) = 0%nat)
         (tracking r).
Proof.
  intros Hlen Hsz Hops.
  destruct (revert_entries_complete fuel (tracking r) fuel w r eq_refl
              Hlen Hsz Hops) as (w' & Hrun & _ & Hzeros).
  by exists w'.
Qed.

Lemma revert_removed_group tracked :
  operation tracked = INSERT ->
  forall fuel w,
    Forall (fun sg => is_Some (removedSeq (sequence w) sg))
      (segments (groups w) (trackingGroup tracked)) ->
    while fuel (groupNotEmpty tracked) (revertSegment tracked) w
    = while fuel (groupNotEmpty tracked) (disgardSegment tracked) w.
Proof.
  intros Hop. induction fuel as [| fuel IH]; intros w Hremoved.
  - reflexivity.
  - destruct (segments (groups w) (trackingGroup tracked)) as [| sg rest] eqn:Hs.
    + by rewrite !while_done by (by apply groupNotEmpty_nil).
    + apply Forall_cons in Hremoved as [[seq Hsg] Hrest].
      assert (Hbody : revertSegment tracked w
        = (setGroups (unlink (trackingGroup tracked) sg (groups w)) w, Normal)).
      { unfold revertSegment. rewrite Hs, Hop. cbn [sequence setGroups].
        by rewrite Hsg. }
      rewrite (while_step _ _ _ _ _ (groupNotEmpty_cons _ _ _ _ Hs) Hbody).
      rewrite (while_step _ _ _ _ _ (groupNotEmpty_cons _ _ _ _ Hs)
                 (disgardSegment_cons _ _ _ _ Hs)).
      apply IH. cbn [setGroups groups sequence].
      by rewrite (segments_unlink_head _ _ _ _ Hs).
Qed.

(** X16: an insert entry whose linked segments have all been removed by now
    is reverted without an edit: for it [revert] does what [disgard] does,
    it takes the entry off the list and unlinks the segments. *)
Theorem revert_removed_inserts_as_disgard fuel w r trs tracked :
  tracking r = trs ++ [tracked] ->
  operation tracked = INSERT ->
  Forall (fun sg => is_Some (removedSeq (sequence w) sg))
    (segments (groups w) (trackingGroup tracked)) ->
  revertEntry fuel (w, r) = disgardEntry fuel (w, r)
  /\ calls (fst (fst (revertEntry fuel (w, r)))) = calls w.
Proof.
  intros Htr Hop Hremoved.
  assert (Heq : revertEntry fuel (w, r) = disgardEntry fuel (w, r)).
  { unfold revertEntry, disgardEntry. rewrite Htr, pop_snoc.
    by rewrite (revert_removed_group tracked Hop fuel w Hremoved). }
  split; [exact Heq |]. rewrite Heq.
  unfold disgardEntry. rewrite Htr, pop_snoc.
  assert (Hcalls : forall fuel w0,
    calls (fst (while fuel (groupNotEmpty tracked) (disgardSegment tracked) w0))
    = calls w0).
  { clear. induction fuel as [| fuel IH]; intros w0.
    - simpl. by destruct (groupNotEmpty tracked w0).
    - simpl. destruct (groupNotEmpty tracked w0); [| done].
      unfold disgardSegment at 1.
      destruct (segments (groups w0) (trackingGroup tracked)); by rewrite IH. }
  specialize (Hcalls fuel w).
  by destruct (while fuel (groupNotEmpty tracked) (disgardSegment tracked) w).
Qed.

(** X17: an entry of a kind that [revert] does not revert is taken off the
    list in any case.  When its group links no segment nothing else
    happens, and there is no error; when it links one, the first segment is
    unlinked, no edit is made and the error is thrown: the entry is lost,
    the other segments stay linked and the earlier entries stay recorded. *)
Theorem revert_unsupported_kind fuel w r trs tracked :
  tracking r = trs ++ [tracked] ->
  operation tracked = GROUP ->
  (segments (groups w) (trackingGroup tracked) = [] ->
     revertEntry fuel (w, r) = ((w, setTracking trs r), Normal))
  /\ (forall sg rest,
        segments (groups w) (trackingGroup tracked) = sg :: rest ->
        revert (S fuel) (w, r)
        = ((setGroups (unlink (trackingGroup tracked) sg (groups w)) w,
            setTracking trs r),
           Throw "operationt type not revertable")
        /\ segments (unlink (trackingGroup tracked) sg (groups w))
             (trackingGroup tracked) = rest).
Proof.
  intros Htr Hop. split.
  - intros Hs. unfold revertEntry. rewrite Htr, pop_snoc.
    by rewrite while_done by (by apply groupNotEmpty_nil).
  - intros sg rest Hs. split; [| by apply segments_unlink_head].
    assert (Hbody : revertSegment tracked w
      = (setGroups (unlink (trackingGroup tracked) sg (groups w)) w,
         Throw "operationt type not revertable")).
    { unfold revertSegment. by rewrite Hs, Hop. }
    unfold revert.
    erewrite while_throw; [reflexivity | by eapply hasTracking_snoc |].
    unfold revertEntry. rewrite Htr, pop_snoc.
    by rewrite (while_throw _ _ _ _ _ _ (groupNotEmpty_cons _ _ _ _ Hs) Hbody).
Qed.

End WithSequence.

Lemma revert_inserts_removes_completes_witness :
  exists w',
    revert (H := LenientSequence.engine) 5
      (LenientSequence.world [[1]; [1; 2]]%nat,
       LenientSequence.revertable
         [LenientSequence.entry INSERT 1%nat; LenientSequence.entry REMOVE 0%nat])
    = ((w', setTracking [] (LenientSequence.revertable
         [LenientSequence.entry INSERT 1%nat; LenientSequence.entry REMOVE 0%nat])),
       Normal)
    /\ Forall (fun e => size (groups w') (trackingGroup e) = 0%nat)
         [LenientSequence.entry INSERT 1%nat; LenientSequence.entry REMOVE 0%nat].
Proof.
  apply (revert_inserts_removes_completes (H := LenientSequence.engine) 5
           (LenientSequence.world [[1]; [1; 2]]%nat)
           (LenientSequence.revertable
              [LenientSequence.entry INSERT 1%nat;
               LenientSequence.entry REMOVE 0%nat])).
  - simpl. lia.
  - apply (bool_decide_unpack _). vm_compute. exact I.
  - apply Forall_cons_2; [left; reflexivity |].
    apply Forall_cons_2; [| apply Forall_nil_2].
    right. split; [reflexivity |]. intros spec. by eexists.
Defined.

#[local] Existing Instance ExampleSequence.engine.

Lemma revert_removed_inserts_as_disgard_witness :
  revertEntry 5 (ExampleSequence.world [[1%nat]],
                 ExampleSequence.revertable [ExampleSequence.entry INSERT 0%nat []])
  = disgardEntry 5 (ExampleSequence.world [[1%nat]],
                    ExampleSequence.revertable
                      [ExampleSequence.entry INSERT 0%nat []])
  /\ calls (fst (fst (revertEntry 5
       (ExampleSequence.world [[1%nat]],
        ExampleSequence.revertable [ExampleSequence.entry INSERT 0%nat []]))))
     = [].
Proof.
  apply (revert_removed_inserts_as_disgard 5 (ExampleSequence.world [[1%nat]])
           (ExampleSequence.revertable [ExampleSequence.entry INSERT 0%nat []])
           [] (ExampleSequence.entry INSERT 0%nat [])).
  - reflexivity.
  - reflexivity.
  - repeat constructor. by eexists.
Defined.

Lemma revert_unsupported_kind_witness :
  revert 1 (ExampleSequence.world [[0; 2]%nat],
            ExampleSequence.revertable
              [ExampleSequence.entry INSERT 0%nat [];
               ExampleSequence.entry GROUP 0%nat []])
  = ((ExampleSequence.world [[2%nat]],
      ExampleSequence.revertable [ExampleSequence.entry INSERT 0%nat []]),
     Throw "operationt type not revertable").
Proof.
  apply (proj2 (revert_unsupported_kind 0 (ExampleSequence.world [[0; 2]%nat])
                  (ExampleSequence.revertable
                     [ExampleSequence.entry INSERT 0%nat [];
                      ExampleSequence.entry GROUP 0%nat []])
                  [ExampleSequence.entry INSERT 0%nat []]
                  (ExampleSequence.entry GROUP 0%nat [])
                  eq_refl eq_refl) 0%nat [2%nat] eq_refl).
Defined.

End RevertMore.

(** ** More about the handler *)

Module HandlerMore.
Import Handler AddMore.

Section WithSequence.
Context `{SharedSegmentSequence}.

Implicit Types (h : Handler.t) (ev : SequenceDeltaEvent).
Implicit Types (evs : list SequenceDeltaEvent) (r : Revertable.t).

Lemma add_target ev g r :
  Revertable.target (snd (Revertable.add ev (g, r))) = Revertable.target r.
Proof. by rewrite add_fold. Qed.

Lemma addTo_open revertable ev h r :
  revertables h !! revertable = Some r ->
  addTo revertable ev h
  = {| sequences := sequences h; pushed := pushed h;
       revertables :=
         <[revertable := snd (Revertable.add ev (trackingGroups h, r))]>
           (revertables h);
       trackingGroups := fst (Revertable.add ev (trackingGroups h, r)) |}.
Proof.
  intros Hr. unfold addTo. rewrite Hr.
  by destruct (Revertable.add ev (trackingGroups h, r)).
Qed.

Lemma addTo_consistent revertable ev h :
  handlerConsistent h -> handlerConsistent (addTo revertable ev h).
Proof.
  intros Hc. destruct (revertables h !! revertable) as [r |] eqn:Hr;
    [| unfold addTo; by rewrite Hr].
  rewrite (addTo_open _ _ _ _ Hr).
  intros target rid Hseq. cbn [sequences pushed revertables] in *.
  destruct (Hc target rid Hseq) as (Hpushed & r0 & Hr0 & Htarget).
  split; [exact Hpushed |].
  destruct (decide (revertable = rid)) as [-> | Hne].
  - eexists. split.
    + apply list_lookup_insert_eq. by eapply lookup_lt_Some.
    + rewrite add_target. congruence.
  - exists r0. by rewrite list_lookup_insert_ne.
Qed.

(** X18: the delta callback and the clearing on a new operation keep the
    handler consistent: every sequence that has an open revertable has one
    that belongs to it and that the stack manager has been given. *)
Theorem handler_stays_consistent h ev (target : nat) :
  handlerConsistent h ->
  handlerConsistent (sequenceDeltaHandler ev target h)
  /\ handlerConsistent (changePushed h).
Proof.
  intros Hc. split.
  - unfold sequenceDeltaHandler. destruct (isLocal ev); [| exact Hc].
    destruct (sequences h !! target) as [revertable |] eqn:Hopen;
      [by apply addTo_consistent |].
    apply addTo_consistent.
    intros target' rid Hseq. cbn [sequences pushed revertables] in *.
    unfold pushToCurrentOperation.
    destruct (decide (target = target')) as [<- | Hne].
    + rewrite lookup_insert_eq in Hseq. injection Hseq as <-. split.
      * apply elem_of_app. right. by apply list_elem_of_singleton.
      * eexists. split; [apply list_lookup_middle; reflexivity | reflexivity].
    + rewrite lookup_insert_ne in Hseq by assumption.
      destruct (Hc target' rid Hseq) as (Hpushed & r0 & Hr0 & Htarget).
      split; [apply elem_of_app; by left |].
      exists r0. split; [by apply lookup_app_l_Some | assumption].
  - intros target' rid Hseq. cbn in Hseq. by rewrite lookup_empty in Hseq.
Qed.

Lemma handler_open target revertable evs : forall h r,
  sequences h !! target = Some revertable ->
  revertables h !! revertable = Some r ->
  let recorded :=
    foldl (fun s ev => Revertable.add ev s) (trackingGroups h, r)
      (filter (fun ev => isLocal ev = true) evs) in
  foldl (fun h ev => sequenceDeltaHandler ev target h) h evs
  = {| sequences := sequences h; pushed := pushed h;
       revertables := <[revertable := snd recorded]> (revertables h);
       trackingGroups := fst recorded |}.
Proof.
  induction evs as [| ev evs IH]; intros h r Hopen Hr.
  - cbn. rewrite list_insert_id by assumption. by destruct h.
  - cbn [foldl]. unfold sequenceDeltaHandler at 2.
    destruct (isLocal ev) eqn:Hlocal.
    + rewrite Hopen, (addTo_open _ _ _ _ Hr).
      rewrite filter_cons_True by assumption. cbn [foldl].
      destruct (Revertable.add ev (trackingGroups h, r)) as [g1 r1] eqn:Hadd.
      cbn [fst snd].
      rewrite (IH _ r1); cbn [sequences pushed revertables trackingGroups].
      * by rewrite list_insert_insert_eq.
      * assumption.
      * apply list_lookup_insert_eq. by eapply lookup_lt_Some.
    + rewrite filter_cons_False by congruence. by apply IH.
Qed.

(** X19: the deltas of one sequence that come in while no new operation
    starts go into one revertable.  When the sequence has no open
    revertable and at least one of the events is local, the handler creates
    one revertable, pushes it to the stack manager once, and records in it
    the local events, in their order, as [add] does on a new revertable;
    the remote events among them leave no trace. *)
Theorem handler_one_revertable_per_operation h (target : nat) evs :
  sequences h !! target = None ->
  Exists (fun ev => isLocal ev = true) evs ->
  let revertable := length (revertables h) in
  let recorded :=
    foldl (fun s ev => Revertable.add ev s)
      (trackingGroups h,
       {| Revertable.target := target; Revertable.tracking := [] |})
      (filter (fun ev => isLocal ev = true) evs) in
  foldl (fun h ev => sequenceDeltaHandler ev target h) h evs
  = {| sequences := <[target := revertable]> (sequences h);
       pushed := pushed h ++ [revertable];
       revertables := revertables h ++ [snd recorded];
       trackingGroups := fst recorded |}.
Proof.
  intros Hclosed Hlocal. induction evs as [| ev evs IH]; [by inversion Hlocal |].
  cbn [foldl]. unfold sequenceDeltaHandler at 2.
  destruct (isLocal ev) eqn:Hev.
  - rewrite Hclosed. clear IH Hlocal.
    rewrite filter_cons_True by assumption. cbn [foldl].
    erewrite addTo_open;
      [| cbn [revertables]; apply list_lookup_middle; reflexivity].
    cbn [sequences pushed revertables trackingGroups].
    destruct (Revertable.add ev _) as [g1 r1] eqn:Hadd. cbn [fst snd].
    erewrite (handler_open target (length (revertables h)) evs _ r1);
      cbn [sequences pushed revertables trackingGroups].
    + unfold pushToCurrentOperation. f_equal.
      rewrite <- (Nat.add_0_r (length (revertables h))).
      by rewrite !insert_app_r.
    + apply lookup_insert_eq.
    + rewrite <- (Nat.add_0_r (length (revertables h))).
      rewrite insert_app_r. apply list_lookup_middle. lia.
  - rewrite filter_cons_False by congruence. apply IH.
    apply Exists_cons in Hlocal as [Hhere | Hlater]; [congruence | assumption].
Qed.

End WithSequence.

#[local] Existing Instance ExampleSequence.engine.

Lemma handler_stays_consistent_witness :
  sequenceDeltaHandler ExampleEvents.localRemove 7%nat ExampleEvents.openHandler
  = {| sequences := {[ 7%nat := 0%nat ]};
       pushed := [0%nat];
       revertables :=
         [ {| Revertable.target := 7%nat;
              Revertable.tracking :=
                [ ExampleSequence.entry INSERT 0%nat [];
                  ExampleSequence.entry REMOVE 1%nat [] ] |} ];
       trackingGroups := [[0; 2]; [1]]%nat |}
  /\ handlerConsistent
       (sequenceDeltaHandler ExampleEvents.localRemove 7%nat
          ExampleEvents.openHandler)
  /\ handlerConsistent (changePushed ExampleEvents.openHandler).
Proof.
  split; [reflexivity |].
  apply (handler_stays_consistent ExampleEvents.openHandler
           ExampleEvents.localRemove 7%nat).
  intros target revertable Hseq.
  unfold ExampleEvents.openHandler in Hseq. cbn [sequences] in Hseq.
  apply lookup_singleton_Some in Hseq as [<- <-].
  split; [apply list_elem_of_singleton; reflexivity |].
  eexists. split; reflexivity.
Defined.

Lemma handler_one_revertable_per_operation_witness :
  foldl (fun h ev => sequenceDeltaHandler ev 7%nat h) ExampleSequence.handler
    [ExampleSequence.remoteInsert; ExampleEvents.localInsert;
     ExampleEvents.localRemove]
  = {| sequences := {[ 7%nat := 0%nat ]};
       pushed := [0%nat];
       revertables :=
         [ {| Revertable.target := 7%nat;
              Revertable.tracking :=
                [ ExampleSequence.entry INSERT 0%nat [];
                  ExampleSequence.entry REMOVE 1%nat [] ] |} ];
       trackingGroups := [[0; 2]; [1]]%nat |}.
Proof.
  apply (handler_one_revertable_per_operation ExampleSequence.handler 7%nat
           [ExampleSequence.remoteInsert; ExampleEvents.localInsert;
            ExampleEvents.localRemove]).
  - apply lookup_empty.
  - apply Exists_cons_tl, Exists_cons_hd. reflexivity.
Defined.

End HandlerMore.

(** ** Further facts: the tags of the cells of the matrix *)

Module TagFacts.
Import JsArray JsArrayFacts SparseMatrixEdit.

Section WithClient.
Context `{MergeTreeClient}.

(** X12: on a cell of a run [setTag] writes
    the tag where [getTag] reads it afterwards, and leaves the items; on a
    cell of any other segment [getTag] gives [undefined], and [setTag]
    does nothing for [undefined] and throws for a tag. *)
Theorem matrix_setTag_getTag (c : Client) row col segment offset
    (tag : option SparseMatrixTag) :
  getSegment row col c = Some (segment, offset) -> 0 <= offset ->
  match segment with
  | RunSegment items tags =>
      exists tags',
        setTag row col tag c = Returns (Some (RunSegment items tags')) /\
        forall c' : Client,
          getSegment row col c' = Some (RunSegment items tags', offset) ->
          getTag row col c' = Returns tag
  | _ =>
      getTag row col c = Returns None /\
      setTag row col tag c
      = match tag with
        | Some _ => Throws "Must not attempt to set tags on"
        | None => Returns None
        end
  end.
Proof.
  intros Hseg Hoff. unfold setTag, getTag. rewrite Hseg.
  destruct segment as [items tags | n | ty]; [| split; reflexivity ..].
  eexists. split; [reflexivity |].
  intros c' ->. cbn. f_equal. unfold RunSegment.getTag. cbn.
  rewrite get_set by lia. by rewrite decide_True.
Qed.

End WithClient.

#[local] Existing Instance CellMatrix.client.

Lemma matrix_setTag_getTag_witness :
  exists tags',
    setTag (H := CellMatrix.client) 0 1 (Some "bold") [None; Some (5, None)]
    = Returns (Some (RunSegment [5] tags')) /\
    forall c' : list CellMatrix.Cell,
      getSegment (H := CellMatrix.client) 0 1 c' = Some (RunSegment [5] tags', 0) ->
      getTag (H := CellMatrix.client) 0 1 c' = Returns (Some "bold").
Proof.
  apply (matrix_setTag_getTag (H := CellMatrix.client)
           [None; Some (5, None)] 0 1 (RunSegment [5] [None]) 0 (Some "bold")).
  - reflexivity.
  - lia.
Defined.

End TagFacts.

(** ** Further facts: the timer of the build tool *)

Module TimerFacts.
Import JsNumber JsNumberFacts.

Lemma rne_lower n d : 0 <= n -> 0 < d -> 2 * n <= 2 * d * rne n d + d.
Proof.
  intros Hn Hd. unfold rne.
  pose proof (Z.div_mod n d ltac:(lia)) as Hdm.
  pose proof (Z.mod_pos_bound n d Hd) as Hr.
  destruct (Z.ltb_spec (2 * (n mod d)) d).
  - nia.
  - destruct (Z.ltb_spec d (2 * (n mod d))).
    + nia.
    + destruct (Z.even (n / d)); nia.
Qed.

Lemma ilog2q_le n d : ilog2q n d <= Z.log2 n - Z.log2 d.
Proof.
  unfold ilog2q.
  destruct (if 0 <=? Z.log2 n - Z.log2 d then _ else _); lia.
Qed.

(** Dividing a count of milliseconds by a thousand and writing the quotient
    with three decimals gives the count back, digit for digit. *)
Lemma toFixed3_div d :
  0 < d < 2 ^ 52 -> JsFloat.toFixed3 (JsFloat.div d 1000) = JsFloat.thousandths d.
Proof.
  intros [Hd0 Hd]. unfold JsFloat.div, round_q.
  replace (Z.abs d) with d by lia.
  destruct (Z.eqb_spec d 0) as [| _]; [lia |].
  assert (Hlog : Z.log2 d < 52) by (apply Z.log2_lt_pow2; lia).
  pose proof (ilog2q_le d 1000) as Hq. change (Z.log2 1000) with 9 in Hq.
  set (e := ilog2q d 1000 - 52) in *.
  destruct (Z.leb_spec 0 e); [lia |].
  set (s := - e).
  assert (Hs : 10 <= s) by (unfold s; lia).
  assert (HP : 2 ^ 10 <= 2 ^ s) by (apply Z.pow_le_mono_r; lia).
  change (2 ^ 10) with 1024 in HP.
  destruct (rne_bounds (d * 2 ^ s) 1000 ltac:(nia) ltac:(lia)) as [Hlo Hhi].
  pose proof (rne_lower (d * 2 ^ s) 1000 ltac:(nia) ltac:(lia)) as Hlow.
  assert (Hm : 0 <= rne (d * 2 ^ s) 1000).
  { etransitivity; [| exact Hlo]. apply Z.div_pos; nia. }
  replace (Z.sgn d) with 1 by lia. rewrite Z.mul_1_l.
  unfold JsFloat.toFixed3.
  destruct (Z.ltb_spec (rne (d * 2 ^ s) 1000) 0); [lia |].
  f_equal. unfold JsFloat.nearestThousandth.
  destruct (Z.leb_spec 0 e); [lia |]. fold s.
  replace (2 ^ (s + 1)) with (2 * 2 ^ s) by (rewrite Z.pow_add_r by lia; change (2 ^ 1) with 2; lia).
  set (P := 2 ^ s) in *. set (M := rne (d * P) 1000) in *.
  symmetry. apply Z.div_unique with (r := 2 * (M * 1000) + P - 2 * P * d); lia.
Qed.

Lemma length_append (s1 s2 : string) :
  String.length (s1 +:+ s2) = (String.length s1 + String.length s2)%nat.
Proof. induction s1 as [| c s1 IH]; simpl; [reflexivity | now rewrite IH]. Qed.

Lemma pad_width n :
  0 <= n < 100 -> String.length (Logging.pad (pretty n)) = 2%nat.
Proof.
  intros Hn.
  assert (Hall : Forall (fun n => String.length (Logging.pad (pretty n)) = 2%nat)
                   (seqZ 0 100)).
  { apply (bool_decide_unpack _). vm_compute. exact I. }
  rewrite Forall_forall in Hall. apply Hall, elem_of_seqZ. lia.
Qed.

Lemma last_cons_default {A} (a x : A) (l : list A) :
  default a (last (x :: l)) = default x (last l).
Proof.
  revert a x. induction l as [| y l IH]; intros a x; [reflexivity |].
  change (last (x :: y :: l)) with (last (y :: l)).
  rewrite (IH a y), (IH x y). reflexivity.
Qed.

Section WithChalk.
Variable yellow : string -> string.
Variable options : Logging.Options.

Local Abbreviation time := (Timer.time yellow options).
Local Abbreviation times := (Timer.times yellow options).

Lemma times_cons call calls s :
  times (call :: calls) s = times calls (snd (time call s)).
Proof. reflexivity. Qed.

Lemma time_timer call timer console :
  fst (snd (time call (timer, console)))
  = {| Timer.enabled := Timer.enabled timer;
       Timer.lastTime := Timer.currTime call;
       Timer.totalTime :=
         (Timer.totalTime timer + (Timer.currTime call - Timer.lastTime timer))%js |}.
Proof. reflexivity. Qed.

Lemma times_total t0 calls timer console :
  0 <= t0 < 2 ^ 52 ->
  0 <= Timer.lastTime timer < 2 ^ 52 ->
  Timer.totalTime timer = Timer.lastTime timer - t0 ->
  Forall (fun call => 0 <= Timer.currTime call < 2 ^ 52) calls ->
  let timer' := fst (times calls (timer, console)) in
  Timer.enabled timer' = Timer.enabled timer /\
  Timer.lastTime timer'
    = default (Timer.lastTime timer) (last (Timer.currTime <$> calls)) /\
  Timer.totalTime timer' = Timer.lastTime timer' - t0.
Proof.
  intros Ht0. revert timer console.
  induction calls as [| call calls IH]; intros timer console Hl Htot Hall.
  - simpl. auto.
  - apply Forall_cons in Hall as [Hc Hall].
    rewrite times_cons.
    destruct (time call (timer, console)) as [secs [timer1 console1]] eqn:Ht.
    pose proof (time_timer call timer console) as Htm. rewrite Ht in Htm.
    cbn [fst snd] in Htm |- *.
    assert (H52 : 2 ^ 52 + 2 ^ 52 = 2 ^ 53) by reflexivity.
    assert (Hd : (Timer.currTime call - Timer.lastTime timer)%js
                 = Timer.currTime call - Timer.lastTime timer)
      by (apply sub_exact; lia).
    rewrite Hd, Htot in Htm.
    rewrite add_exact in Htm by lia.
    specialize (IH timer1 console1).
    rewrite Htm in IH. cbn [Timer.enabled Timer.lastTime Timer.totalTime] in IH.
    destruct (IH Hc ltac:(lia) Hall) as (He & Hlast & Htotal).
    subst timer1. split; [exact He |]. split; [| exact Htotal].
    rewrite Hlast, fmap_cons. symmetry. apply last_cons_default.
Qed.

Lemma logStatus_length date text console :
  length (Logging.logStatus yellow options date text console)
  = S (length console).
Proof.
  unfold Logging.logStatus.
  destruct (negb _); rewrite length_app; simpl; lia.
Qed.

Lemma logStatus_app date text console :
  exists line, Logging.logStatus yellow options date text console = console ++ [line].
Proof.
  unfold Logging.logStatus. destruct (negb _); eauto.
Qed.

Lemma time_console call timer console :
  exists new,
    snd (snd (time call (timer, console))) = console ++ new /\
    length new
    = (if Timer.enabled timer && Timer.truthy (Timer.msg call) then 1 else 0)%nat.
Proof.
  unfold Timer.time. cbn [snd].
  destruct (Timer.enabled timer && Timer.truthy (Timer.msg call)).
  - destruct (100 <? _).
    + destruct (logStatus_app (Timer.date call)
        (default "" (Timer.msg call) +:+ " - " +:+
           JsFloat.toFixed3 (JsFloat.div
             (Timer.currTime call - Timer.lastTime timer)%js 1000) +:+ "s")
        console) as [line ->]. exists [line]. auto.
    + destruct (logStatus_app (Timer.date call)
        (default "" (Timer.msg call) +:+ " - " +:+
           pretty (Timer.currTime call - Timer.lastTime timer)%js +:+ "ms")
        console) as [line ->]. exists [line]. auto.
  - exists []. rewrite app_nil_r. auto.
Qed.

(** X20: starting from a timer made when the clock read [t0],
    after any calls of [time] the total is what the clock read at the last
    call less [t0], whether or not the clock went back in between; the
    readings are below [2^52]. *)
Theorem getTotalTime_telescopes enabled t0 calls console :
  0 <= t0 < 2 ^ 52 ->
  Forall (fun call => 0 <= Timer.currTime call < 2 ^ 52) calls ->
  Timer.getTotalTime (fst (times calls (Timer.create enabled t0, console)))
  = default t0 (last (Timer.currTime <$> calls)) - t0.
Proof.
  intros Ht0 Hall.
  destruct (times_total t0 calls (Timer.create enabled t0) console Ht0)
    as (_ & Hlast & Htot); cbn [Timer.create Timer.lastTime Timer.totalTime];
    [lia | lia | exact Hall |].
  unfold Timer.getTotalTime. rewrite Htot, Hlast. reflexivity.
Qed.

(** X21: calls of [time] only add lines to the console,
    one for each call with a message that is not empty when the timer is
    enabled, and none at all when it is not. *)
Theorem times_console calls timer console :
  exists new,
    snd (times calls (timer, console)) = console ++ new /\
    length new
    = (if Timer.enabled timer
       then length (filter (fun call => Timer.truthy (Timer.msg call) = true) calls)
       else 0)%nat.
Proof.
  revert timer console. induction calls as [| call calls IH]; intros timer console.
  - exists []. simpl. rewrite app_nil_r. destruct (Timer.enabled timer); auto.
  - rewrite times_cons.
    destruct (time call (timer, console)) as [secs [timer1 console1]] eqn:Ht.
    pose proof (time_timer call timer console) as Htm.
    destruct (time_console call timer console) as (new1 & Hc1 & Hl1).
    rewrite Ht in Htm, Hc1. cbn [fst snd] in Htm, Hc1 |- *.
    destruct (IH timer1 console1) as (new & Hc & Hl).
    exists (new1 ++ new). rewrite Hc, Hc1, app_assoc. split; [reflexivity |].
    rewrite length_app, Hl, Hl1. subst timer1. cbn [Timer.enabled].
    rewrite filter_cons.
    destruct (Timer.enabled timer); [| reflexivity].
    cbn [andb]. destruct (decide _) as [Heq | Hne].
    + rewrite Heq. reflexivity.
    + destruct (Timer.truthy _); [congruence | reflexivity].
Qed.

(** X22: an enabled timer given a message logs the
    elapsed milliseconds exactly: as they are, followed by [ms], up to a
    hundred, and above with the point three digits from the right,
    followed by [s]; the division by a thousand loses no digit. *)
Theorem time_shows_elapsed call timer console text :
  Timer.enabled timer = true ->
  Timer.msg call = Some text -> text <> "" ->
  0 <= Timer.lastTime timer < 2 ^ 52 ->
  0 <= Timer.currTime call < 2 ^ 52 ->
  let elapsed := Timer.currTime call - Timer.lastTime timer in
  snd (snd (time call (timer, console)))
  = Logging.logStatus yellow options (Timer.date call)
      (text +:+ " - " +:+
       (if 100 <? elapsed then JsFloat.thousandths elapsed +:+ "s"
        else pretty elapsed +:+ "ms"))
      console.
Proof.
  intros Hen Hmsg Htext Hl Hc elapsed.
  assert (H52 : 2 ^ 52 + 2 ^ 52 = 2 ^ 53) by reflexivity.
  unfold Timer.time. cbn [snd]. rewrite Hen, Hmsg. cbn [Timer.truthy default].
  rewrite sub_exact by lia. fold elapsed.
  destruct (String.eqb_spec text ""); [contradiction |]. cbn [negb andb].
  destruct (Z.ltb_spec 100 elapsed); [| reflexivity].
  rewrite toFixed3_div by lia. reflexivity.
Qed.

(** X23: the stamp that [logStatus] puts before a message
    is eleven characters wide at every time of the day. *)
Theorem stamp_width date :
  0 <= Logging.getHours date < 24 ->
  0 <= Logging.getMinutes date < 60 ->
  0 <= Logging.getSeconds date < 60 ->
  String.length (Logging.stamp date) = 11%nat.
Proof.
  intros Hh Hm Hs. unfold Logging.stamp.
  repeat rewrite length_append.
  rewrite !pad_width by lia. reflexivity.
Qed.

End WithChalk.

Lemma getTotalTime_telescopes_witness :
  Timer.getTotalTime
    (fst (Timer.times (fun s => s) {| Logging.verbose := false; Logging.logtime := false |}
       [ {| Timer.msg := Some "build"; Timer.currTime := 1500;
            Timer.date := {| Logging.getHours := 9; Logging.getMinutes := 5;
                             Logging.getSeconds := 0 |} |};
         {| Timer.msg := None; Timer.currTime := 1200;
            Timer.date := {| Logging.getHours := 9; Logging.getMinutes := 5;
                             Logging.getSeconds := 1 |} |} ]
       (Timer.create true 1000, [])))
  = 200.
Proof.
  apply (getTotalTime_telescopes (fun s => s)
           {| Logging.verbose := false; Logging.logtime := false |} true 1000).
  - lia.
  - repeat constructor; simpl; lia.
Defined.

Lemma time_shows_elapsed_witness :
  snd (snd (Timer.time (fun s => s)
     {| Logging.verbose := false; Logging.logtime := false |}
     {| Timer.msg := Some "build"; Timer.currTime := 2234;
        Timer.date := {| Logging.getHours := 9; Logging.getMinutes := 5;
                         Logging.getSeconds := 0 |} |}
     (Timer.create true 1000, [])))
  = ["build - 1.234s"].
Proof.
  apply (time_shows_elapsed (fun s => s)
           {| Logging.verbose := false; Logging.logtime := false |}
           {| Timer.msg := Some "build"; Timer.currTime := 2234;
              Timer.date := {| Logging.getHours := 9; Logging.getMinutes := 5;
                               Logging.getSeconds := 0 |} |}
           (Timer.create true 1000) [] "build").
  - reflexivity.
  - reflexivity.
  - discriminate.
  - simpl. lia.
  - simpl. lia.
Defined.

Lemma stamp_width_witness :
  String.length (Logging.stamp {| Logging.getHours := 9; Logging.getMinutes := 5;
                                  Logging.getSeconds := 0 |}) = 11%nat.
Proof.
  apply stamp_width; simpl; lia.
Defined.

End TimerFacts.

(** ** Further facts: the Kafka orderer *)

Module KafkaFacts.

Section WithTypes.
Context `{OrdererTypes}.
Variable RawOperationType : string.
Variable stringify : IRawOperationMessage.t -> string.

Local Abbreviation Create := (KafkaOrdererConnection.Create RawOperationType stringify).
Local Abbreviation order := (KafkaOrdererConnection.order RawOperationType stringify).
Local Abbreviation disconnect :=
  (KafkaOrdererConnection.disconnect RawOperationType stringify).
Local Abbreviation calls := (KafkaOrdererConnection.calls RawOperationType stringify).
Local Abbreviation connect := (KafkaOrderer.connect RawOperationType stringify).
Local Abbreviation connects := (KafkaOrderer.connects RawOperationType stringify).

Local Abbreviation stamped := (KafkaOrdererConnection.stamped RawOperationType stringify).

Lemma submitRawOperation_stamped clock connection message services :
  IRawOperationMessage.documentId message
  = KafkaOrdererConnection.documentId connection ->
  IRawOperationMessage.tenantId message
  = KafkaOrdererConnection.tenantId connection ->
  IRawOperationMessage.user message = KafkaOrdererConnection.user connection ->
  IRawOperationMessage.type message = RawOperationType ->
  exists entry,
    (KafkaOrdererConnection.submitRawOperation stringify clock connection
       message services).2
    = {| Services.sent := Services.sent services ++ [entry];
         Services.joined := Services.joined services |}
    /\ stamped connection entry.
Proof.
  intros Hd Ht Hu Hty. eexists. split; [reflexivity |].
  split; [reflexivity |]. eexists. split; [reflexivity |]. cbn. auto.
Qed.

Lemma call_stamped connection services c :
  exists entry,
    KafkaOrdererConnection.call RawOperationType stringify connection services c
    = {| Services.sent := Services.sent services ++ [entry];
         Services.joined := Services.joined services |}
    /\ stamped connection entry.
Proof.
  destruct c as [[message |] clock]; cbn [KafkaOrdererConnection.call];
    apply submitRawOperation_stamped; reflexivity.
Qed.

Lemma calls_stamped connection cs services :
  exists new,
    Services.sent (calls connection cs services) = Services.sent services ++ new /\
    Services.joined (calls connection cs services) = Services.joined services /\
    length new = length cs /\ Forall (stamped connection) new.
Proof.
  revert services. induction cs as [| c cs IH]; intros services.
  - exists []. cbn. rewrite app_nil_r. auto.
  - destruct (call_stamped connection services c) as (entry & Hc & Hst).
    unfold KafkaOrdererConnection.calls in *. cbn [foldl]. rewrite Hc.
    destruct (IH {| Services.sent := Services.sent services ++ [entry];
                    Services.joined := Services.joined services |})
      as (new & Hs & Hj & Hl & Hall).
    exists (entry :: new). rewrite Hs, Hj. cbn [Services.sent Services.joined].
    rewrite <- app_assoc. cbn. auto.
Qed.

(** X24: making a connection and calling it any
    number of times hands the producer one message for the join and one for
    each call, every one keyed by the id of the document and stamped with
    the tenant, the document and the user of the connection; the socket
    joins the room of the document and the room of the client, once. *)
Theorem connection_messages_stamped existing document tenantId documentId
    socket user client maxMessageSize choice clock cs services :
  let connection :=
    (Create existing document tenantId documentId socket user client
       maxMessageSize choice clock services).1 in
  let services' :=
    calls connection cs
      (Create existing document tenantId documentId socket user client
         maxMessageSize choice clock services).2 in
  KafkaOrdererConnection.documentId connection = documentId /\
  KafkaOrdererConnection.tenantId connection = tenantId /\
  KafkaOrdererConnection.user connection = user /\
  KafkaOrdererConnection.clientId connection = choice /\
  (exists new,
     Services.sent services' = Services.sent services ++ new /\
     length new = S (length cs) /\ Forall (stamped connection) new) /\
  Services.joined services'
  = Services.joined services
    ++ [(socket, tenantId +:+ "/" +:+ documentId); (socket, "client#" +:+ choice)].
Proof.
  intros connection services'. subst connection services'.
  unfold KafkaOrdererConnection.Create, KafkaOrdererConnection.new.
  set (connection :=
         {| KafkaOrdererConnection.existing := existing;
            KafkaOrdererConnection.tenantId := tenantId;
            KafkaOrdererConnection.documentId := documentId;
            KafkaOrdererConnection.clientId := choice;
            KafkaOrdererConnection.user := user;
            KafkaOrdererConnection.client := client;
            KafkaOrdererConnection.maxMessageSize := maxMessageSize;
            KafkaOrdererConnection.parentBranch := IDocument.parent document |}).
  destruct (submitRawOperation_stamped clock connection
              (KafkaOrdererConnection.systemMessage RawOperationType clock connection
                 (IDocumentMessage.Join choice client) ClientJoin) services
              eq_refl eq_refl eq_refl eq_refl) as (entry & Hs & Hst).
  rewrite Hs. cbn [fst snd Services.sent Services.joined].
  match goal with |- context [calls connection cs ?s] =>
    destruct (calls_stamped connection cs s) as (new & Hsent & Hj & Hl & Hall)
  end.
  rewrite Hsent, Hj. cbn [Services.sent Services.joined].
  repeat split; try reflexivity.
  exists (entry :: new). rewrite <- app_assoc. cbn. rewrite Hl. auto.
Qed.

(** X25: [order] pushes its trace to the message of the
    caller, so a message that is ordered a second time is sent with the
    trace of the first time before the new one. *)
Theorem order_traces_accumulate message traces clock1 clock2 connection services :
  IDocumentMessage.traces message = Some traces ->
  let first := order message clock1 connection services in
  let second := order first.1 clock2 connection first.2 in
  IDocumentMessage.traces first.1
  = Some (traces ++ [KafkaOrdererConnection.startTrace clock1]) /\
  IDocumentMessage.traces second.1
  = Some (traces ++ [KafkaOrdererConnection.startTrace clock1;
                     KafkaOrdererConnection.startTrace clock2]) /\
  exists raw : IRawOperationMessage.t,
    last (Services.sent second.2)
    = Some (stringify raw, KafkaOrdererConnection.documentId connection) /\
    IRawOperationMessage.operation raw = second.1 /\
    IRawOperationMessage.clientId raw
    = Some (KafkaOrdererConnection.clientId connection).
Proof.
  intros Htr first second. subst first second.
  unfold KafkaOrdererConnection.order, KafkaOrdererConnection.submitRawOperation.
  cbn [fst snd IRawOperationMessage.operation].
  assert (H1 : KafkaOrdererConnection.traced clock1 message
               = {| IDocumentMessage.clientSequenceNumber :=
                      IDocumentMessage.clientSequenceNumber message;
                    IDocumentMessage.contents := IDocumentMessage.contents message;
                    IDocumentMessage.referenceSequenceNumber :=
                      IDocumentMessage.referenceSequenceNumber message;
                    IDocumentMessage.traces :=
                      Some (traces ++ [KafkaOrdererConnection.startTrace clock1]);
                    IDocumentMessage.type := IDocumentMessage.type message |})
    by (unfold KafkaOrdererConnection.traced; rewrite Htr; reflexivity).
  rewrite H1. unfold KafkaOrdererConnection.traced.
  cbn [IDocumentMessage.traces IDocumentMessage.clientSequenceNumber
       IDocumentMessage.contents IDocumentMessage.referenceSequenceNumber
       IDocumentMessage.type Services.sent].
  rewrite <- (app_assoc traces). cbn [app].
  split; [reflexivity |]. split; [reflexivity |].
  eexists. rewrite last_snoc. split; [reflexivity |].
  cbn. auto.
Qed.

Lemma connects_from requests orderer connections services :
  exists new,
    (connects requests (orderer, connections, services)).1.2 = connections ++ new /\
    KafkaOrdererConnection.existing <$> new
    = match requests with
      | [] => []
      | _ :: rest => KafkaOrderer.existing orderer :: replicate (length rest) true
      end /\
    KafkaOrdererConnection.clientId <$> new = KafkaOrderer.choice <$> requests /\
    Forall (fun connection =>
              KafkaOrdererConnection.tenantId connection
              = KafkaOrderer.tenantId orderer /\
              KafkaOrdererConnection.documentId connection
              = KafkaOrderer.documentId orderer) new.
Proof.
  revert orderer connections services.
  induction requests as [| request requests IH]; intros orderer connections services.
  - exists []. cbn. rewrite app_nil_r. auto.
  - unfold KafkaOrderer.connects in *. cbn [foldl].
    destruct (connect _ _ _ _ _ orderer services)
      as [[orderer1 connection] services1] eqn:Hc.
    assert (He : KafkaOrdererConnection.existing connection
                 = KafkaOrderer.existing orderer /\
                 KafkaOrdererConnection.clientId connection
                 = KafkaOrderer.choice request /\
                 KafkaOrdererConnection.tenantId connection
                 = KafkaOrderer.tenantId orderer /\
                 KafkaOrdererConnection.documentId connection
                 = KafkaOrderer.documentId orderer /\
                 KafkaOrderer.existing orderer1 = true /\
                 KafkaOrderer.tenantId orderer1 = KafkaOrderer.tenantId orderer /\
                 KafkaOrderer.documentId orderer1 = KafkaOrderer.documentId orderer).
    { injection Hc as <- <- _. cbn. auto 10. }
    destruct He as (He & Hid & Ht & Hd & He1 & Ht1 & Hd1).
    destruct (IH orderer1 (connections ++ [connection]) services1)
      as (new & Hnew & Hex & Hids & Hall).
    exists (connection :: new). rewrite Hnew, <- app_assoc.
    split; [reflexivity |]. rewrite !fmap_cons, He, Hid, Hids.
    split; [| split; [reflexivity |]].
    + f_equal. rewrite Hex. destruct requests as [| r rest]; [reflexivity |].
      rewrite He1. reflexivity.
    + constructor; [auto |]. rewrite Ht1, Hd1 in Hall. exact Hall.
Qed.

(** X26: of the
    connections that calls of [connect] make, the first has [existing] as
    the orderer had it, which is what the storage said when the orderer is
    new, and every later one has it set; each is named as the name
    generator chose and is for the tenant and the document of the
    orderer. *)
Theorem connects_existing requests orderer services :
  let connections := (connects requests (orderer, [], services)).1.2 in
  KafkaOrdererConnection.existing <$> connections
  = match requests with
    | [] => []
    | _ :: rest => KafkaOrderer.existing orderer :: replicate (length rest) true
    end /\
  KafkaOrdererConnection.clientId <$> connections = KafkaOrderer.choice <$> requests /\
  Forall (fun connection =>
            KafkaOrdererConnection.tenantId connection
            = KafkaOrderer.tenantId orderer /\
            KafkaOrdererConnection.documentId connection
            = KafkaOrderer.documentId orderer) connections.
Proof.
  intros connections. subst connections.
  destruct (connects_from requests orderer [] services) as (new & -> & Hrest).
  exact Hrest.
Qed.

End WithTypes.

Section WithStorage.
Context `{OrdererTypes}.
Variable Storage : Type.
Variable getOrCreateDocument :
  string -> string -> Storage -> IDocumentDetails.t * Storage.

Local Abbreviation create := (KafkaOrdererFactory.create Storage getOrCreateDocument).
Local Abbreviation creates := (KafkaOrdererFactory.creates Storage getOrCreateDocument).

Local Abbreviation mapped := (KafkaOrdererFactory.mapped Storage).

Lemma create_mapped tenantId documentId factory :
  mapped factory -> mapped (create tenantId documentId factory).2 /\
  KafkaOrdererFactory.maxMessageSize (create tenantId documentId factory).2
  = KafkaOrdererFactory.maxMessageSize factory.
Proof.
  intros Hm. unfold KafkaOrdererFactory.create. cbn [snd].
  destruct (_ !! _) as [ref |] eqn:Hlook; [auto |].
  unfold KafkaOrderer.Create.
  destruct (getOrCreateDocument _ _ _) as [details storage']. split; [| reflexivity].
  intros fullId ref. cbn.
  destruct (decide (fullId = tenantId +:+ "/" +:+ documentId)) as [-> | Hne].
  - rewrite lookup_insert_eq. intros [= <-].
    eexists. rewrite lookup_app_r, Nat.sub_diag by lia. cbn. eauto.
  - rewrite lookup_insert_ne by congruence. intros Href.
    destruct (Hm _ _ Href) as (orderer & Ho & Hid & Hsz).
    exists orderer. rewrite lookup_app_l by (by eapply lookup_lt_Some). auto.
Qed.

Lemma create_fst tenantId documentId factory :
  (create tenantId documentId factory).1
  = KafkaOrdererFactory.ordererMap (create tenantId documentId factory).2
    !! (tenantId +:+ "/" +:+ documentId).
Proof. reflexivity. Qed.

Lemma create_hit tenantId documentId factory ref :
  KafkaOrdererFactory.ordererMap factory !! (tenantId +:+ "/" +:+ documentId)
  = Some ref ->
  create tenantId documentId factory = (Some ref, factory).
Proof.
  intros Href. unfold KafkaOrdererFactory.create. rewrite Href.
  rewrite Href. reflexivity.
Qed.

Lemma create_some tenantId documentId factory :
  is_Some (KafkaOrdererFactory.ordererMap (create tenantId documentId factory).2
           !! (tenantId +:+ "/" +:+ documentId)).
Proof.
  unfold KafkaOrdererFactory.create. cbn [snd].
  destruct (KafkaOrdererFactory.ordererMap factory
            !! (tenantId +:+ "/" +:+ documentId)) as [ref |] eqn:Hlook.
  - rewrite Hlook. eauto.
  - unfold KafkaOrderer.Create.
    destruct (getOrCreateDocument _ _ _) as [details storage'].
    cbn [KafkaOrdererFactory.ordererMap]. rewrite lookup_insert_eq. eauto.
Qed.

(** X27: a request whose tenant and document
    spell the full id of an earlier request gets the orderer of that
    request, and neither the storage nor the factory is touched. *)
Theorem create_shares_by_full_id tenantId1 documentId1 tenantId2 documentId2
    factory :
  tenantId1 +:+ "/" +:+ documentId1 = tenantId2 +:+ "/" +:+ documentId2 ->
  let first := create tenantId1 documentId1 factory in
  is_Some first.1 /\ create tenantId2 documentId2 first.2 = first.
Proof.
  intros Hid first. subst first.
  destruct (create_some tenantId1 documentId1 factory) as [ref Href].
  rewrite create_fst, Href. split; [eauto |].
  rewrite (create_hit tenantId2 documentId2 _ ref) by (rewrite <- Hid; exact Href).
  rewrite (surjective_pairing (create tenantId1 documentId1 factory)) at 2.
  rewrite create_fst, Href. reflexivity.
Qed.

(** X28: after any requests to a new factory, every
    entry of the map leads to an orderer the factory has made, whose tenant
    and document spell the key of the entry and whose size of a message is
    that of the factory. *)
Theorem creates_mapped requests storage maxMessageSize :
  mapped (creates requests (KafkaOrdererFactory.new Storage storage maxMessageSize)).
Proof.
  assert (Hgen : forall factory, mapped factory -> mapped (creates requests factory)).
  { induction requests as [| [tenantId documentId] requests IH]; intros factory Hm.
    - exact Hm.
    - unfold KafkaOrdererFactory.creates in *. cbn [foldl].
      apply IH. by apply create_mapped. }
  apply Hgen. intros fullId ref Hlook. cbn in Hlook.
  by rewrite lookup_empty in Hlook.
Qed.

End WithStorage.

#[local] Existing Instance ExampleOrderer.types.

Lemma order_traces_accumulate_witness :
  let connection :=
    {| KafkaOrdererConnection.existing := false;
       KafkaOrdererConnection.tenantId := "fluid";
       KafkaOrdererConnection.documentId := "doc";
       KafkaOrdererConnection.clientId := "red-fox";
       KafkaOrdererConnection.user := "ann";
       KafkaOrdererConnection.client := "browser";
       KafkaOrdererConnection.maxMessageSize := 16384;
       KafkaOrdererConnection.parentBranch := None |} in
  let first :=
    KafkaOrdererConnection.order "RawOperation" ExampleOrderer.stringify
      ExampleOrderer.op (ExampleOrderer.clock 10) connection
      ExampleOrderer.services in
  let second :=
    KafkaOrdererConnection.order "RawOperation" ExampleOrderer.stringify
      first.1 (ExampleOrderer.clock 20) connection first.2 in
  Services.sent second.2 = [("op:1:red-fox", "doc"); ("op:2:red-fox", "doc")] /\
  IDocumentMessage.traces second.1
  = Some [KafkaOrdererConnection.startTrace (ExampleOrderer.clock 10);
          KafkaOrdererConnection.startTrace (ExampleOrderer.clock 20)].
Proof.
  intros connection first second.
  split; [reflexivity |].
  apply (order_traces_accumulate "RawOperation" ExampleOrderer.stringify
           ExampleOrderer.op [] (ExampleOrderer.clock 10) (ExampleOrderer.clock 20)
           connection ExampleOrderer.services).
  reflexivity.
Defined.

Lemma create_shares_by_full_id_witness :
  let factory :=
    KafkaOrdererFactory.new (list (string * string)) [] 16384 in
  let first :=
    KafkaOrdererFactory.create _ ExampleOrderer.getOrCreateDocument
      "a/b" "c" factory in
  first.1 = Some 0%nat /\
  KafkaOrdererFactory.create _ ExampleOrderer.getOrCreateDocument
    "a" "b/c" first.2 = first /\
  KafkaOrdererFactory.storage first.2 = [("a/b", "c")].
Proof.
  intros factory first.
  split; [reflexivity |]. split; [| reflexivity].
  apply (create_shares_by_full_id _ ExampleOrderer.getOrCreateDocument
           "a/b" "c" "a" "b/c" factory).
  reflexivity.
Defined.

End KafkaFacts.
